(** * graphql-go: the execution core, [internal/exec/exec.go]

    A shallow embedding of the request executor: selection merging
    ([collectFieldsToResolve], [typeOf]), field execution
    ([execFieldSelection]), type-directed serialization
    ([execSelectionSet], [execSelections]) and the entry point [Execute].

    Conventions of the model.
    - A [*bytes.Buffer] is the list of bytes written so far; a function
      that writes to [out] takes the buffer and returns it.  A panic
      unwinds the Go stack but keeps what was written, so the buffer and
      the request are returned on a panic too.
    - [reflect.Value] is the inductive [Value]; the reflect operations
      the code uses panic on a value of the wrong kind, as in Go.
    - A resolver method is a function of its arguments.
    - Calls that leave the package (tracer, logger, limiter, resolver
      methods) are recorded in [Log], in the order they happen.
    - A [context.Context] is what its [Err] method reports at a time.
      The time of a request ([Clock]) is the number of method calls it
      has made through reflect, so a context can be cancelled while a
      resolver runs and is seen cancelled at the next check.
    - Goroutines started together run one after the other in an order an
      oracle ([pick]) chooses; they share the request (error list, log)
      and each owns its buffer.
    - The recursion of [execSelectionSet] is bounded by a counter; [None]
      means the counter ran out, which enough of it excludes. *)

From stdpp Require Import gmap strings list fin_maps pretty.
From Stdlib Require Import Strings.Byte.

Set Default Proof Using "Type".
#[local] Set Warnings "-register-all".

(** ** Data model *)

Definition Buffer := list byte.

Definition WriteByte (c : byte) (out : Buffer) : Buffer := out ++ [c].
Definition WriteString (s : string) (out : Buffer) : Buffer :=
  out ++ String.list_byte_of_string s.
Definition Write (p : list byte) (out : Buffer) : Buffer := out ++ p.

(** The payload of a Go panic ([interface{}]). *)
Inductive Payload :=
| PanicString (s : string)          (* panic("unreachable"), runtime and resolver panics *)
| PanicQueryError (msg : string).   (* panic(errors.Errorf(...)) *)

(** A Go [error], observed through its [Error()] method. *)
Record error := { Error : string }.

Inductive PathElem :=
| PathAlias (s : string)
| PathIndex (i : nat).

(** [errors.QueryError], the fields this package touches. *)
Record QueryError := {
  Message : string;
  Path : list PathElem;
  OriginalError : option error;
  PanicValue : option Payload;
}.

(** [errors.Errorf(format, args...)]: [msg] is the formatted text. *)
Definition Errorf (msg : string) : QueryError :=
  {| Message := msg; Path := []; OriginalError := None; PanicValue := None |}.

Definition set_Path (e : QueryError) (p : list PathElem) : QueryError :=
  {| Message := Message e; Path := p;
     OriginalError := OriginalError e; PanicValue := PanicValue e |}.
Definition set_OriginalError (e : QueryError) (c : error) : QueryError :=
  {| Message := Message e; Path := Path e;
     OriginalError := Some c; PanicValue := PanicValue e |}.
Definition set_PanicValue (e : QueryError) (v : Payload) : QueryError :=
  {| Message := Message e; Path := Path e;
     OriginalError := OriginalError e; PanicValue := Some v |}.

Definition panicError (value : Payload) : QueryError :=
  let err := Errorf "internal server error" in
  set_PanicValue err value.

(** [ctx.Err()] at a time: [None] until the context is cancelled. *)
Record Context := { Err : nat -> option error }.

(** [common.Type] *)
Inductive Ty :=
| Object (name : string)
| Interface (name : string)
| Union (name : string)
| Scalar (name : string)
| Enum (name : string)
| InputObject (name : string)
| List (OfType : Ty)
| NonNull (OfType : Ty).

Definition Ty_String (t : Ty) : string :=
  match t with
  | Object n | Interface n | Union n | Scalar n | Enum n | InputObject n => n
  | List _ => "[]"
  | NonNull _ => "!"
  end.

Definition unwrapNonNull (t : Ty) : Ty * bool :=
  match t with
  | NonNull OfType => (OfType, true)
  | _ => (t, false)
  end.

(** [pubquery.SelectedField] *)
Inductive SelectedField :=
| mkSelectedField (Name : string) (Selected : list SelectedField).

(** The arguments a resolver method is called with. *)
Inductive Arg :=
| ArgContext (ctx : Context)
| ArgPacked (packed : string)
| ArgSelected (fields : list SelectedField).

Inductive CallResult (V : Type) :=
| Returns (outs : list V)
| Panics (v : Payload).
Arguments Returns {V} outs.
Arguments Panics {V} v.

(** [reflect.Value] *)
Inductive Value :=
| VInvalid                                   (* the zero reflect.Value *)
| VBool (b : bool)
| VInt (n : Z)
| VString (s : string)
| VNilPtr
| VPtr (elem : Value)
| VNilSlice
| VSlice (elems : list Value)
| VNilError                                  (* the nil value of type error *)
| VError (e : error)
| VStruct                                    (* what a non-nil resolver pointer or error points to *)
| VResolver (methods : nat -> list Arg -> CallResult Value).

Inductive Kind := Invalid | Bool | Int | String_ | Ptr | Slice | Interface_ | Struct.

Definition Value_Kind (v : Value) : Kind :=
  match v with
  | VInvalid => Invalid
  | VBool _ => Bool
  | VInt _ => Int
  | VString _ => String_
  | VNilPtr | VPtr _ | VResolver _ => Ptr
  | VNilSlice | VSlice _ => Slice
  | VNilError | VError _ => Interface_
  | VStruct => Struct
  end.

Definition Kind_eqb (a b : Kind) : bool :=
  match a, b with
  | Invalid, Invalid | Bool, Bool | Int, Int | String_, String_
  | Ptr, Ptr | Slice, Slice | Interface_, Interface_ | Struct, Struct => true
  | _, _ => false
  end.

Definition IsValid (v : Value) : bool :=
  match v with VInvalid => false | _ => true end.

(** [resolvable.Field] *)
Record Field := {
  Name : string;
  Type_ : Ty;
  TypeName : string;
  MethodIndex : nat;
  HasContext : bool;
  HasSelected : bool;
  HasError : bool;
  ArgsPacker : bool;                          (* ArgsPacker != nil *)
  TraceLabel : string;
}.

(** [selected.SchemaField] without its [Sels], which are the second
    argument of [SchemaFieldSel]. *)
Record SchemaField := {
  Field_ : Field;
  Alias : string;
  Args : list (string * string);
  PackedArgs : string;
  Async : bool;
  FixedResult : Value;
}.

(** [selected.TypenameField] *)
Record TypenameField := {
  tfName : string;
  tfAlias : string;
  TypeAssertions : list (string * nat);       (* name, MethodIndex: in range order *)
}.

(** [selected.Selection] *)
Inductive Selection :=
| SchemaFieldSel (sel : SchemaField) (Sels : list Selection)
| TypenameFieldSel (sel : TypenameField)
| TypeAssertionSel (MethodIndex : nat) (Sels : list Selection).

Record fieldToExec := {
  field : SchemaField;
  sels : list Selection;
  resolver : Value;
}.

Inductive pathSegment :=
| mkPathSegment (parent : option pathSegment) (value : PathElem).

Fixpoint toSlice_node (p : pathSegment) : list PathElem :=
  match p with
  | mkPathSegment parent value =>
      match parent with
      | None => []
      | Some q => toSlice_node q
      end ++ [value]
  end.

Definition toSlice (p : option pathSegment) : list PathElem :=
  match p with
  | None => []
  | Some q => toSlice_node q
  end.

Inductive Event :=
| LimiterAcquire
| LimiterRelease
| TraceField (label typeName fieldName : string) (trivial : bool)
             (args : list (string * string))
| TraceFinish (err : option QueryError)
| MethodCall (index : nat) (args : list Arg)
| LogPanic (v : Payload).

(** [exec.Request]: the shared error list, the tracer, the log and the
    time. *)
Record Request := {
  Errs : list QueryError;
  Log : list Event;
  Clock : nat;
  Tracer :
    Context -> string -> string -> string -> bool -> list (string * string) ->
    Context;
}.

Definition AddError (err : QueryError) (r : Request) : Request :=
  {| Errs := Errs r ++ [err]; Log := Log r; Clock := Clock r; Tracer := Tracer r |}.
Definition emit (e : Event) (r : Request) : Request :=
  {| Errs := Errs r; Log := Log r ++ [e]; Clock := Clock r; Tracer := Tracer r |}.
(** Time passes while a method runs. *)
Definition tick (r : Request) : Request :=
  {| Errs := Errs r; Log := Log r; Clock := S (Clock r); Tracer := Tracer r |}.

(** ** Computations *)

Inductive Res (A : Type) :=
| Ok (a : A)
| Panic (v : Payload).
Arguments Ok {A} a.
Arguments Panic {A} v.

(** Code that reads and calls through reflect: it may log and panic. *)
Definition M (A : Type) := Request -> Request * Res A.

Definition ret {A} (a : A) : M A := fun r => (r, Ok a).
Definition panic {A} (v : Payload) : M A := fun r => (r, Panic v).
Definition bind {A B} (c : M A) (k : A -> M B) : M B :=
  fun r =>
    match c r with
    | (r', Ok a) => k a r'
    | (r', Panic v) => (r', Panic v)
    end.

Notation "'let*' x ':=' c 'in' k" := (bind c (fun x => k))
  (at level 10, x pattern, c at level 100, k at level 200).

(** Code that writes to a buffer.  [None]: the recursion bound ran out. *)
Inductive Outcome :=
| Done
| Panicked (v : Payload).

Definition Exec := Buffer -> Request -> option (Buffer * Request * Outcome).

Definition skip : Exec := fun out r => Some (out, r, Done).
Definition write (f : Buffer -> Buffer) : Exec := fun out r => Some (f out, r, Done).
Definition raise (v : Payload) : Exec := fun out r => Some (out, r, Panicked v).
Definition andThen (a b : Exec) : Exec :=
  fun out r =>
    match a out r with
    | Some (out', r', Done) => b out' r'
    | other => other
    end.
Definition run {A} (c : M A) (k : A -> Exec) : Exec :=
  fun out r =>
    match c r with
    | (r', Ok a) => k a out r'
    | (r', Panic v) => Some (out, r', Panicked v)
    end.

Notation "a ;; b" := (andThen a b) (at level 100, b at level 200, right associativity).

(** ** reflect *)

Definition Method_Call (v : Value) (i : nat) (args : list Arg) : M (list Value) :=
  fun r =>
    let r := tick (emit (MethodCall i args) r) in
    match v with
    | VResolver methods =>
        match methods i args with
        | Returns outs => (r, Ok outs)
        | Panics p => (r, Panic p)
        end
    | _ => (r, Panic (PanicString "reflect: Method index out of range"))
    end.

(** [ctx.Err()] *)
Definition Context_Err (ctx : Context) : M (option error) :=
  fun r => (r, Ok (Err ctx (Clock r))).

Definition index (outs : list Value) (i : nat) : M Value :=
  match outs !! i with
  | Some v => ret v
  | None => panic (PanicString "runtime error: index out of range")
  end.

Definition Value_Bool (v : Value) : M bool :=
  match v with
  | VBool b => ret b
  | _ => panic (PanicString "reflect: call of reflect.Value.Bool on non-bool Value")
  end.

Definition IsNil (v : Value) : M bool :=
  match v with
  | VNilPtr | VNilSlice | VNilError => ret true
  | VPtr _ | VSlice _ | VError _ | VResolver _ => ret false
  | _ => panic (PanicString "reflect: call of reflect.Value.IsNil on non-nillable Value")
  end.

Definition Elem (v : Value) : M Value :=
  match v with
  | VPtr elem => ret elem
  | VNilPtr | VNilError => ret VInvalid
  | VError _ | VResolver _ => ret VStruct
  | _ => panic (PanicString "reflect: call of reflect.Value.Elem on non-pointer Value")
  end.

Definition Len (v : Value) : M nat :=
  match v with
  | VSlice elems => ret (length elems)
  | VNilSlice => ret 0
  | VString s => ret (String.length s)
  | _ => panic (PanicString "reflect: call of reflect.Value.Len on non-slice Value")
  end.

Definition Index (v : Value) (i : nat) : M Value :=
  match v with
  | VSlice elems =>
      match elems !! i with
      | Some e => ret e
      | None => panic (PanicString "reflect: slice index out of range")
      end
  | VString s =>
      match String.get i s with
      | Some c => ret (VInt (Z.of_nat (Ascii.nat_of_ascii c)))
      | None => panic (PanicString "reflect: string index out of range")
      end
  | _ => panic (PanicString "reflect: call of reflect.Value.Index on non-slice Value")
  end.

(** [callOut[1].Interface().(error)] *)
Definition Interface_error (v : Value) : M error :=
  match v with
  | VError e => ret e
  | _ => panic (PanicString "interface conversion: interface is not error")
  end.

(** ** The [selected] package, as far as this file calls it *)

Definition anyOf {A} (p : A -> bool) : list A -> bool :=
  fix go l := match l with [] => false | a :: l' => p a || go l' end.

(** Modelled from the spec: [selected.HasAsyncSel], which is not part of
    this file.  A selection set is asynchronous when a field of it is
    marked asynchronous, also below a type assertion; a typename
    selection is synchronous. *)
Fixpoint HasAsyncSel1 (sel : Selection) : bool :=
  match sel with
  | SchemaFieldSel sel _ => Async sel
  | TypenameFieldSel _ => false
  | TypeAssertionSel _ Sels => anyOf HasAsyncSel1 Sels
  end.
Definition HasAsyncSel (sels : list Selection) : bool := anyOf HasAsyncSel1 sels.

(** ** Selection merging *)

Fixpoint selectionToSelectedField (sel : Selection) : list SelectedField :=
  match sel with
  | SchemaFieldSel selField Sels =>
      [mkSelectedField (Name (Field_ selField))
         (flat_map selectionToSelectedField Sels)]
  | _ => []
  end.
Definition selectionToSelectedFields (sels : list Selection) : list SelectedField :=
  flat_map selectionToSelectedField sels.

(** [for name, a := range tf.TypeAssertions] *)
Fixpoint typeOf_range (assertions : list (string * nat)) (resolver : Value) : M string :=
  match assertions with
  | [] => ret ""
  | (name, methodIndex) :: rest =>
      let* out := Method_Call resolver methodIndex [] in
      let* ok := index out 1 in
      let* b := Value_Bool ok in
      if b then ret name else typeOf_range rest resolver
  end.

Definition typeOf (tf : TypenameField) (resolver : Value) : M string :=
  if length (TypeAssertions tf) =? 0 then ret (tfName tf)
  else typeOf_range (TypeAssertions tf) resolver.

(** [for _, x := range l { s = f(x, s) }] for a body that may panic *)
Definition forEach {A S} (f : A -> S -> M S) : list A -> S -> M S :=
  fix go l s :=
    match l with
    | [] => ret s
    | a :: l' => let* s' := f a s in go l' s'
    end.

Definition append_sels (Sels : list Selection) (f : fieldToExec) : fieldToExec :=
  {| field := field f; sels := sels f ++ Sels; resolver := resolver f |}.

Section Exec.

(** [resolvable.MetaFieldTypename] *)
Variable MetaFieldTypename : Field.

(** The merge state: [fields] holds the [fieldToExec] objects in the
    order they were created, and [fieldByAlias] refers to one of them by
    its position in [fields] (the Go map holds the same pointers as the
    slice). *)
Definition Merge := (list fieldToExec * gmap string nat)%type.

(** One iteration of the loop of [collectFieldsToResolve]. *)
Fixpoint collectFieldToResolve (sel : Selection) (resolver : Value)
    (st : Merge) : M Merge :=
  let '(fields, fieldByAlias) := st in
  match sel with
  | SchemaFieldSel sel Sels =>
      match fieldByAlias !! Alias sel with
      | Some i => ret (alter (append_sels Sels) i fields, fieldByAlias)
      | None =>
          let f := {| field := sel; sels := []; resolver := resolver |} in
          let i := length fields in
          ret (alter (append_sels Sels) i (fields ++ [f]),
               <[Alias sel := i]> fieldByAlias)
      end
  | TypenameFieldSel sel =>
      let* name := typeOf sel resolver in
      let sf := {| Field_ := MetaFieldTypename; Alias := tfAlias sel;
                   Args := []; PackedArgs := ""; Async := false;
                   FixedResult := VString name |} in
      ret (fields ++ [{| field := sf; sels := []; resolver := resolver |}],
           fieldByAlias)
  | TypeAssertionSel methodIndex Sels =>
      let* out := Method_Call resolver methodIndex [] in
      let* ok := index out 1 in
      let* b := Value_Bool ok in
      if negb b then ret (fields, fieldByAlias)
      else
        let* narrowed := index out 0 in
        forEach (fun s => collectFieldToResolve s narrowed) Sels
                (fields, fieldByAlias)
  end.

Definition collectFieldsToResolve (sels : list Selection) (resolver : Value)
    (fields : list fieldToExec) (fieldByAlias : gmap string nat) : M Merge :=
  forEach (fun s => collectFieldToResolve s resolver) sels (fields, fieldByAlias).

(** ** Goroutines *)

Definition handlePanic (ctx : Context) (body : Exec) : Exec :=
  fun out r =>
    match body out r with
    | Some (out, r, Panicked value) =>
        let r := emit (LogPanic value) r in
        Some (out, AddError (panicError value) r, Done)
    | other => other
    end.

Fixpoint extract {A} (k : nat) (l : list A) : option (A * list A) :=
  match l, k with
  | [], _ => None
  | x :: l', 0 => Some (x, l')
  | x :: l', S k' =>
      match extract k' l' with
      | Some (y, l'') => Some (y, x :: l'')
      | None => None
      end
  end.

(** The Go scheduler: of [k] goroutines started at [path] and not yet
    run, the one it runs next. *)
Variable pick : list PathElem -> nat -> nat.

(** [n] goroutines are pending; each recovers with [handlePanic] and
    writes to a buffer of its own, which ends up in [outs]. *)
Fixpoint schedule (n : nat) (ctx : Context) (site : list PathElem)
    (pending : list (nat * Exec)) (outs : list Buffer) (r : Request)
    : option (list Buffer * Request) :=
  match n with
  | 0 => Some (outs, r)
  | S n =>
      match extract (pick site (length pending) `mod` length pending) pending with
      | None => Some (outs, r)
      | Some ((i, task), pending) =>
          match handlePanic ctx task [] r with
          | None => None
          | Some (b, r, _) => schedule n ctx site pending (<[i := b]> outs) r
          end
      end
  end.

(** [wg.Add(len(tasks)); for ... { go ... }; wg.Wait()] *)
Definition goAll (ctx : Context) (site : list PathElem) (tasks : list Exec)
    (r : Request) : option (list Buffer * Request) :=
  schedule (length tasks) ctx site (imap pair tasks)
           (replicate (length tasks) []) r.

(** ** Field execution *)

Definition ExecSelectionSet :=
  Context -> list Selection -> Ty -> option pathSegment -> Value -> Exec.

(** [var in []reflect.Value] and the three [append]s to it *)
Definition callArgs (traceCtx : Context) (f : fieldToExec) : list Arg :=
  (if HasContext (Field_ (field f)) then [ArgContext traceCtx] else [])
  ++ (if ArgsPacker (Field_ (field f)) then [ArgPacked (PackedArgs (field f))] else [])
  ++ (if HasSelected (Field_ (field f))
      then [ArgSelected (selectionToSelectedFields (sels f))] else []).

(** The closure of [execFieldSelection] that sets [result] and returns
    [err], before its deferred [recover]. *)
Definition resolveField (traceCtx : Context) (f : fieldToExec)
    (path : option pathSegment) : M (Value * option QueryError) :=
  if IsValid (FixedResult (field f)) then ret (FixedResult (field f), None)
  else
    let* cancelled := Context_Err traceCtx in
    match cancelled with
    | Some err => ret (VInvalid, Some (Errorf (Error err)))
    | None =>
        let in_ := callArgs traceCtx f in
        let* callOut :=
          Method_Call (resolver f) (MethodIndex (Field_ (field f))) in_ in
        let* result := index callOut 0 in
        if HasError (Field_ (field f)) then
          let* e := index callOut 1 in
          let* isNil := IsNil e in
          if negb isNil then
            let* resolverErr := Interface_error e in
            let err := Errorf (Error resolverErr) in
            let err := set_Path err (toSlice path) in
            let err := set_OriginalError err resolverErr in
            ret (result, Some err)
          else ret (result, None)
        else ret (result, None)
    end.

(** The closure with its [recover]: a panic becomes the field's error. *)
Definition recoverField (path : option pathSegment)
    (body : M (Value * option QueryError)) (r : Request)
    : Request * (Value * option QueryError) :=
  match body r with
  | (r, Ok res) => (r, res)
  | (r, Panic panicValue) =>
      let r := emit (LogPanic panicValue) r in
      let err := panicError panicValue in
      (r, (VInvalid, Some (set_Path err (toSlice path))))
  end.

(** [f.out] is the buffer the function is applied to. *)
Definition execFieldSelection (execSelectionSet : ExecSelectionSet)
    (ctx : Context) (f : fieldToExec) (path : option pathSegment)
    (applyLimiter : bool) : Exec :=
  fun out r =>
    let r := if applyLimiter then emit LimiterAcquire r else r in
    let fld := Field_ (field f) in
    let traceCtx :=
      Tracer r ctx (TraceLabel fld) (TypeName fld) (Name fld)
             (negb (Async (field f))) (Args (field f)) in
    let r := emit (TraceField (TraceLabel fld) (TypeName fld) (Name fld)
                              (negb (Async (field f))) (Args (field f))) r in
    let '(r, (result, err)) := recoverField path (resolveField traceCtx f path) r in
    let r := if applyLimiter then emit LimiterRelease r else r in
    match err with
    | Some err =>
        let r := AddError err r in
        Some (WriteString "null" out, emit (TraceFinish (Some err)) r, Done)
    | None =>
        match execSelectionSet traceCtx (sels f) (Type_ fld) path result out r with
        | Some (out, r, o) => Some (out, emit (TraceFinish None) r, o)
        | None => None
        end
    end.

(** ** Serialization *)

(** [for i, x := range l { body }] *)
Fixpoint rangeFrom {A} (i : nat) (l : list A) (body : nat -> A -> Exec) : Exec :=
  match l with
  | [] => skip
  | x :: l' => body i x ;; rangeFrom (S i) l' body
  end.
Definition range {A} (l : list A) (body : nat -> A -> Exec) : Exec :=
  rangeFrom 0 l body.

Definition comma (i : nat) : Exec :=
  if 0 <? i then write (WriteByte ","%byte) else skip.

Definition subPath (path : option pathSegment) (value : PathElem) : option pathSegment :=
  Some (mkPathSegment path value).

(** [out.WriteByte('"'); out.WriteString(alias); out.WriteByte('"');
    out.WriteByte(':')], after the comma between two entries *)
Definition writeKey (i : nat) (f : fieldToExec) : Exec :=
  comma i ;;
  write (WriteByte x22) ;;
  write (WriteString (Alias (field f))) ;;
  write (WriteByte x22) ;;
  write (WriteByte ":"%byte).

Definition fieldPath (path : option pathSegment) (f : fieldToExec) : option pathSegment :=
  subPath path (PathAlias (Alias (field f))).

(** The second loop of [execSelections], and its body; [outs] are the
    buffers the goroutines of the first loop filled, when [async]. *)
Definition fieldEntry (execSelectionSet : ExecSelectionSet) (ctx : Context)
    (path : option pathSegment) (async : bool) (outs : list Buffer)
    (i : nat) (f : fieldToExec) : Exec :=
  writeKey i f ;;
  if async then write (Write (outs !!! i))
  else execFieldSelection execSelectionSet ctx f (fieldPath path f) false.

Definition execFields (execSelectionSet : ExecSelectionSet) (ctx : Context)
    (path : option pathSegment) (async : bool) (outs : list Buffer)
    (fields : list fieldToExec) : Exec :=
  write (WriteByte "{"%byte) ;;
  range fields (fieldEntry execSelectionSet ctx path async outs) ;;
  write (WriteByte "}"%byte).

Definition execSelections (execSelectionSet : ExecSelectionSet)
    (ctx : Context) (sels : list Selection) (path : option pathSegment)
    (resolver : Value) (serially : bool) : Exec :=
  let async := negb serially && HasAsyncSel sels in
  run (collectFieldsToResolve sels resolver [] ∅) (fun '(fields, _) =>
  fun out r =>
    let spawned :=
      if async then
        goAll ctx (toSlice path)
          (map (fun f => execFieldSelection execSelectionSet ctx f
                           (fieldPath path f) true) fields) r
      else Some ([], r) in
    match spawned with
    | None => None
    | Some (outs, r) => execFields execSelectionSet ctx path async outs fields out r
    end).

(** [r.execSelectionSet(ctx, sels, t.OfType, &pathSegment{path, i},
    resolver.Index(i), out)] *)
Definition listElem (execSelectionSet : ExecSelectionSet) (ctx : Context)
    (sels : list Selection) (OfType : Ty) (path : option pathSegment)
    (resolver : Value) (i : nat) : Exec :=
  run (Index resolver i) (fun e =>
  execSelectionSet ctx sels OfType (subPath path (PathIndex i)) e).

(** The list case of [execSelectionSet] when a selection is
    asynchronous: one goroutine for each element, then the entries in
    index order. *)
Definition listConcurrently (execElem : nat -> Exec) (ctx : Context)
    (path : option pathSegment) (l : nat) : Exec :=
  fun out r =>
    match goAll ctx (toSlice path) (map execElem (seq 0 l)) r with
    | None => None
    | Some (entryouts, r) =>
        (write (WriteByte "["%byte) ;;
         range entryouts (fun i entryout => comma i ;; write (Write entryout)) ;;
         write (WriteByte "]"%byte)) out r
    end.

(** The list case otherwise: the elements one after the other, into [out]. *)
Definition listSequentially (execElem : nat -> Exec) (l : nat) : Exec :=
  write (WriteByte "["%byte) ;;
  range (seq 0 l) (fun _ i => comma i ;; execElem i) ;;
  write (WriteByte "]"%byte).

(** [encoding/json.Marshal] of [resolver.Interface()]; [None]: it fails. *)
Variable json_Marshal : Value -> option (list byte).

(** The name of the Go type of a value, which [Value.String] prints for a
    value that is not a string, and [fmt]'s rendering of a value with %v. *)
Variable typeString : Value -> string.
Variable Sprint : Value -> string.

Definition Value_String (v : Value) : string :=
  match v with
  | VString s => s
  | VInvalid => "<invalid Value>"
  | _ => "<" +:+ typeString v +:+ " Value>"
  end.

Definition quoted (s : string) : string :=
  String (Ascii.ascii_of_byte x22) (s +:+ String (Ascii.ascii_of_byte x22) EmptyString).

Fixpoint execSelectionSet (n : nat) (ctx : Context) (sels : list Selection)
    (typ : Ty) (path : option pathSegment) (resolver : Value) : Exec :=
  match n with
  | 0 => fun _ _ => None
  | S n =>
      let '(t, nonNull) := unwrapNonNull typ in
      match t with
      | Object _ | Interface _ | Union _ =>
          run (if Kind_eqb (Value_Kind resolver) Ptr then IsNil resolver
               else ret false) (fun isNil =>
          if isNil : bool then
            if nonNull
            then raise (PanicQueryError ("got nil for non-null " +:+ quoted (Ty_String t)))
            else write (WriteString "null")
          else execSelections (execSelectionSet n) ctx sels path resolver false)
      | _ =>
          let serialize (resolver : Value) : Exec :=
            match t with
            | List OfType =>
                run (Len resolver) (fun l =>
                let execElem :=
                  listElem (execSelectionSet n) ctx sels OfType path resolver in
                if HasAsyncSel sels then listConcurrently execElem ctx path l
                else listSequentially execElem l)
            | Scalar _ =>
                if IsValid resolver then
                  match json_Marshal resolver with
                  | Some data => write (Write data)
                  | None => raise (PanicQueryError ("could not marshal " +:+ Sprint resolver))
                  end
                else raise (PanicString "reflect: call of reflect.Value.Interface on zero Value")
            | Enum _ =>
                write (WriteByte x22) ;;
                write (WriteString (Value_String resolver)) ;;
                write (WriteByte x22)
            | _ => raise (PanicString "unreachable")
            end in
          if nonNull then serialize resolver
          else
            run (IsNil resolver) (fun isNil =>
            if isNil : bool then write (WriteString "null")
            else run (Elem resolver) serialize)
      end
  end.

(** ** The entry point *)

Inductive OperationType := Query | Mutation | Subscription.

Record Operation := { opType : OperationType }.
Record Schema := { Resolver : Value }.

Definition isMutation (t : OperationType) : bool :=
  match t with Mutation => true | _ => false end.

(** [selected.ApplyOperation(&r.Request, s, op)] *)
Variable ApplyOperation : Schema -> Operation -> M (list Selection).

Definition Execute (n : nat) (ctx : Context) (s : Schema) (op : Operation)
    (r : Request) : option (list byte * list QueryError) :=
  match handlePanic ctx
          (run (ApplyOperation s op) (fun sels =>
           execSelections (execSelectionSet n) ctx sels None (Resolver s)
                          (isMutation (opType op)))) [] r with
  | None => None
  | Some (out, r, _) =>
      match Err ctx (Clock r) with
      | Some err =>
          let qErr := Errorf (Error err) in
          let qErr := set_OriginalError qErr err in
          Some ([], [qErr])
      | None => Some (out, Errs r)
      end
  end.

End Exec.

(** ** The merge, as the specification words it *)

(** What the traversal of a selection set meets: a field selection with
    the resolver it is met under, or a typename selection with the name
    computed for it. *)
Inductive Occurrence :=
| FieldOcc (sel : SchemaField) (Sels : list Selection) (resolver : Value)
| TypenameOcc (alias name : string) (resolver : Value).

Definition isField (alias : string) (o : Occurrence) : bool :=
  match o with
  | FieldOcc sel _ _ => bool_decide (Alias sel = alias)
  | TypenameOcc _ _ _ => false
  end.

(** The nested selections of the field selections with this alias. *)
Definition nested (alias : string) (occs : list Occurrence) : list Selection :=
  flat_map (fun o =>
    match o with
    | FieldOcc sel Sels _ => if bool_decide (Alias sel = alias) then Sels else []
    | TypenameOcc _ _ _ => []
    end) occs.

Section Merge.

Variable MetaFieldTypename : Field.

Definition typenameField (alias name : string) : SchemaField :=
  {| Field_ := MetaFieldTypename; Alias := alias; Args := []; PackedArgs := "";
     Async := false; FixedResult := VString name |}.

(** The selections in traversal order.  A type assertion whose predicate
    holds stands for its nested selections under the narrowed resolver;
    one whose predicate fails stands for nothing. *)
Fixpoint occurrencesOf (sel : Selection) (resolver : Value) : M (list Occurrence) :=
  match sel with
  | SchemaFieldSel sel Sels => ret [FieldOcc sel Sels resolver]
  | TypenameFieldSel tf =>
      let* name := typeOf tf resolver in
      ret [TypenameOcc (tfAlias tf) name resolver]
  | TypeAssertionSel methodIndex Sels =>
      let* out := Method_Call resolver methodIndex [] in
      let* ok := index out 1 in
      let* b := Value_Bool ok in
      if negb b then ret []
      else
        let* narrowed := index out 0 in
        forEach (fun s acc => let* o := occurrencesOf s narrowed in ret (acc ++ o))
                Sels []
  end.

Definition occurrences (sels : list Selection) (resolver : Value)
    : M (list Occurrence) :=
  forEach (fun s acc => let* o := occurrencesOf s resolver in ret (acc ++ o)) sels [].

(** The merged fields: a field selection whose alias no earlier field
    selection has makes an entry, at its place in the traversal, with its
    own metadata and resolver and with the nested selections of all the
    field selections of that alias, in order; a later one makes none.  A
    typename selection makes an entry with the name as fixed result. *)
Fixpoint mergedFrom (before after : list Occurrence) : list fieldToExec :=
  match after with
  | [] => []
  | o :: rest =>
      match o with
      | FieldOcc sel Sels resolver =>
          if existsb (isField (Alias sel)) before then []
          else [{| field := sel; sels := Sels ++ nested (Alias sel) rest;
                   resolver := resolver |}]
      | TypenameOcc alias name resolver =>
          [{| field := typenameField alias name; sels := []; resolver := resolver |}]
      end ++ mergedFrom (before ++ [o]) rest
  end.

Definition merged (occs : list Occurrence) : list fieldToExec := mergedFrom [] occs.

(** ** How much recursion a selection set needs *)

Fixpoint ty_height (t : Ty) : nat :=
  match t with
  | List OfType | NonNull OfType => S (ty_height OfType)
  | _ => 1
  end.

Fixpoint need1 (sel : Selection) : nat :=
  match sel with
  | SchemaFieldSel sel Sels => ty_height (Type_ (Field_ sel)) + sum_list_with need1 Sels
  | TypenameFieldSel _ => ty_height (Type_ MetaFieldTypename)
  | TypeAssertionSel _ Sels => sum_list_with need1 Sels
  end.
Definition need (sels : list Selection) : nat := sum_list_with need1 sels.

End Merge.

(** ** Definitions the statements and proofs use *)

(** The request after the predicate calls of [typeOf]. *)
Definition calls (assertions : list (string * nat)) (r : Request) : Request :=
  foldl (fun r a => tick (emit (MethodCall a.2 []) r)) r assertions.

(** The bytes of [writeKey]. *)
Definition keyBytes (i : nat) (f : fieldToExec) : list byte :=
  (if 0 <? i then [","%byte] else []) ++ [x22] ++
  String.list_byte_of_string (Alias (field f)) ++ [x22; ":"%byte].

(** The context and the span [r.Tracer.TraceField] gives for a field. *)
Definition traceCtxOf (r : Request) (ctx : Context) (f : fieldToExec) : Context :=
  Tracer r ctx (TraceLabel (Field_ (field f))) (TypeName (Field_ (field f)))
         (Name (Field_ (field f))) (negb (Async (field f))) (Args (field f)).

Definition spanOf (f : fieldToExec) : Event :=
  TraceField (TraceLabel (Field_ (field f))) (TypeName (Field_ (field f)))
             (Name (Field_ (field f))) (negb (Async (field f))) (Args (field f)).

Definition nullBytes : list byte := String.list_byte_of_string "null".

Definition isComposite (t : Ty) : bool :=
  match t with Object _ | Interface _ | Union _ => true | _ => false end.

Definition mapRes {A B} (f : A -> B) (x : Request * Res A) : Request * Res B :=
  match x with
  | (r, Ok a) => (r, Ok (f a))
  | (r, Panic v) => (r, Panic v)
  end.

(** The body of the loop of [occurrences]. *)
Definition gather (resolver : Value) (s : Selection) (acc : list Occurrence)
    : M (list Occurrence) :=
  let* o := occurrencesOf s resolver in ret (acc ++ o).

(** The position, in [mergedFrom before after], of the entry that a field
    selection of [after] with this alias made. *)
Fixpoint entryIdx (before after : list Occurrence) (alias : string) : option nat :=
  match after with
  | [] => None
  | o :: rest =>
      match o with
      | FieldOcc sel _ _ =>
          if existsb (isField (Alias sel)) before
          then entryIdx (before ++ [o]) rest alias
          else if bool_decide (Alias sel = alias) then Some 0
          else S <$> entryIdx (before ++ [o]) rest alias
      | TypenameOcc _ _ _ => S <$> entryIdx (before ++ [o]) rest alias
      end
  end.

Section MergeStep.

Variable MetaFieldTypename : Field.

Definition entryOf (o : Occurrence) : fieldToExec :=
  match o with
  | FieldOcc sel Sels resolver => {| field := sel; sels := Sels; resolver := resolver |}
  | TypenameOcc alias name resolver =>
      {| field := typenameField MetaFieldTypename alias name; sels := [];
         resolver := resolver |}
  end.

(** What [collectFieldToResolve] does with one occurrence. *)
Definition mergeOcc (st : Merge) (o : Occurrence) : Merge :=
  match o with
  | FieldOcc sel Sels resolver =>
      match st.2 !! Alias sel with
      | Some i => (alter (append_sels Sels) i st.1, st.2)
      | None => (st.1 ++ [entryOf o], <[Alias sel := length st.1]> st.2)
      end
  | TypenameOcc _ _ _ => (st.1 ++ [entryOf o], st.2)
  end.

(** What the merged fields need is what the selections need. *)
Definition weight (fields : list fieldToExec) : nat :=
  sum_list_with (fun f => ty_height (Type_ (Field_ (field f)))
                          + need MetaFieldTypename (sels f)) fields.

Definition occNeed (o : Occurrence) : nat :=
  match o with
  | FieldOcc sel Sels _ => ty_height (Type_ (Field_ sel)) + need MetaFieldTypename Sels
  | TypenameOcc _ _ _ => ty_height (Type_ MetaFieldTypename)
  end.

End MergeStep.

(** A context that no one cancels during the request, and a request
    whose tracer derives such contexts from such contexts. *)
Definition stable (ctx : Context) : Prop := forall t t', Err ctx t = Err ctx t'.
Definition steady (r : Request) : Prop :=
  forall ctx label typeName fieldName trivial args,
    stable ctx -> stable (Tracer r ctx label typeName fieldName trivial args).

(** The request with nothing in it yet, at time 0, and a request with
    what a computation added to another, the time it took included. *)
Definition clear (r : Request) : Request :=
  {| Errs := []; Log := []; Clock := 0; Tracer := Tracer r |}.
Definition extend (r d : Request) : Request :=
  {| Errs := Errs r ++ Errs d; Log := Log r ++ Log d; Clock := Clock r + Clock d;
     Tracer := Tracer r |}.

(** While no context changes, what a computation appends, to the buffer
    and to the request, does not depend on what is there, nor on the
    time. *)
Definition framed (e : Exec) : Prop :=
  forall out r, steady r ->
    e out r = match e [] (clear r) with
              | Some (b, d, o) => Some (out ++ b, extend r d, o)
              | None => None
              end.

Definition framedM {A} (c : M A) : Prop :=
  forall r, steady r -> c r = (extend r (c (clear r)).1, (c (clear r)).2).

Definition framedRec (rec : ExecSelectionSet) : Prop :=
  forall ctx sels typ path v, stable ctx -> framed (rec ctx sels typ path v).

(** What a computation appends to the buffer does not depend on what
    the buffer holds. *)
Definition appends (e : Exec) : Prop :=
  forall out r,
    e out r = match e [] r with
              | Some (b, r', o) => Some (out ++ b, r', o)
              | None => None
              end.

Definition appendsRec (rec : ExecSelectionSet) : Prop :=
  forall ctx sels typ path v, appends (rec ctx sels typ path v).

(** A loop whose every round writes into an empty buffer: the bytes of
    the rounds, and the request the last one leaves.  [None]: a round
    panicked or ran out of the recursion bound. *)
Fixpoint rounds {A} (body : nat -> A -> Exec) (i : nat) (l : list A) (r : Request)
    : option (list Buffer * Request) :=
  match l with
  | [] => Some ([], r)
  | x :: l' =>
      match body i x [] r with
      | Some (b, r1, Done) =>
          match rounds body (S i) l' r1 with
          | Some (bs, r') => Some (b :: bs, r')
          | None => None
          end
      | _ => None
      end
  end.

(** Goroutines that ran to the end in some order, each under its
    [handlePanic] and into a buffer of its own, which is its slot of
    [outs]. *)
Definition ranConcurrently (ctx : Context) (tasks : list Exec) (r : Request)
    (outs : list Buffer) (r' : Request) : Prop :=
  exists (order : list (nat * Exec)) (bs : list Buffer),
    order ≡ₚ imap pair tasks /\
    rounds (fun _ it => handlePanic ctx it.2) 0 order r = Some (bs, r') /\
    length outs = length tasks /\
    forall k it, order !! k = Some it -> outs !! it.1 = bs !! k.

(** A computation whose result and duration depend on the time only. *)
Definition timedM {A} (c : M A) : Prop :=
  forall r1 r2, Clock r1 = Clock r2 ->
    (c r1).2 = (c r2).2 /\ Clock (c r1).1 = Clock (c r2).1.

(** A computation that leaves the error list alone. *)
Definition quietM {A} (c : M A) : Prop := forall r, Errs (c r).1 = Errs r.

(** The recursion bound did not run out. *)
Definition total (e : Exec) : Prop := forall out r, is_Some (e out r).

(** The bytes a computation appends from time 0; by [framed] they are
    the same from every buffer and request while no context changes. *)
Definition bytesOf (t : Exec) (r : Request) : Buffer :=
  match t [] (clear r) with
  | Some (b, _, _) => b
  | None => []
  end.

Definition commaBytes (i : nat) : list byte :=
  if 0 <? i then [","%byte] else [].

(** Entries with a comma between two of them. *)
Definition joined (entries : list Buffer) : list byte :=
  concat (imap (fun i b => commaBytes i ++ b) entries).

(** ** More of what the statements speak of *)

(** The name a selection is reported to a resolver under, if it is. *)
Definition reportedName (sel : Selection) : option string :=
  match sel with
  | SchemaFieldSel selField _ => Some (Name (Field_ selField))
  | _ => None
  end.

Definition SelectedField_Name (f : SelectedField) : string :=
  match f with mkSelectedField name _ => name end.

(** The aliases of the field selections a traversal met, and its
    typename selections. *)
Definition fieldAliases (occs : list Occurrence) : list string :=
  omap (fun o => match o with
                 | FieldOcc sel _ _ => Some (Alias sel)
                 | TypenameOcc _ _ _ => None
                 end) occs.

Definition isTypename (o : Occurrence) : bool :=
  match o with TypenameOcc _ _ _ => true | FieldOcc _ _ _ => false end.

(** A count of the events of a log, each with a weight. *)
Definition tally (weigh : Event -> Z) (log : list Event) : Z :=
  foldr (fun e z => (weigh e + z)%Z) 0%Z log.

(** A count in which the two events of a pair cancel, and in which a
    method call and a logged panic weigh nothing. *)
Record paired (weigh : Event -> Z) : Prop := {
  paired_limiter : (weigh LimiterAcquire + weigh LimiterRelease = 0)%Z;
  paired_span : forall label typeName fieldName trivial args err,
    (weigh (TraceField label typeName fieldName trivial args)
     + weigh (TraceFinish err) = 0)%Z;
  paired_call : forall i args, weigh (MethodCall i args) = 0%Z;
  paired_panic : forall v, weigh (LogPanic v) = 0%Z;
}.

(** The slots of the limiter that are taken, and the spans that are open. *)
Definition limiterHeld (e : Event) : Z :=
  match e with
  | LimiterAcquire => 1
  | LimiterRelease => -1
  | _ => 0
  end%Z.

Definition spanOpen (e : Event) : Z :=
  match e with
  | TraceField _ _ _ _ _ => 1
  | TraceFinish _ => -1
  | _ => 0
  end%Z.

(** [r'] is [r] with more recorded: errors and events are appended, the
    events weighing [w] in all, time does not run backwards, and the
    tracer is the same. *)
Definition grown (weigh : Event -> Z) (w : Z) (r r' : Request) : Prop :=
  Tracer r' = Tracer r /\ Clock r <= Clock r' /\
  exists errs log,
    Errs r' = Errs r ++ errs /\ Log r' = Log r ++ log /\ tally weigh log = w.

Definition keeps (weigh : Event -> Z) (e : Exec) : Prop :=
  forall out r out' r' o, e out r = Some (out', r', o) -> grown weigh 0 r r'.

Definition keepsM (weigh : Event -> Z) {A} (c : M A) : Prop :=
  forall r, grown weigh 0 r (c r).1.

Definition keepsRec (weigh : Event -> Z) (rec : ExecSelectionSet) : Prop :=
  forall ctx sels typ path v, keeps weigh (rec ctx sels typ path v).

Definition isAcquire (e : Event) : bool :=
  match e with LimiterAcquire => true | _ => false end.
Definition isRelease (e : Event) : bool :=
  match e with LimiterRelease => true | _ => false end.
Definition isTraceField (e : Event) : bool :=
  match e with TraceField _ _ _ _ _ => true | _ => false end.
Definition isTraceFinish (e : Event) : bool :=
  match e with TraceFinish _ => true | _ => false end.

(** Requests that differ in the order of their errors and in their
    logs only. *)
Definition same (r1 r2 : Request) : Prop :=
  Tracer r1 = Tracer r2 /\ Errs r1 ≡ₚ Errs r2 /\ Clock r1 = Clock r2.

(** Two runs from a request with the tracer of [r] that write the same
    bytes and end the same way, leaving requests that are the [same]. *)
Definition alike (r : Request) (x y : option (Buffer * Request * Outcome)) : Prop :=
  match x, y with
  | Some (b1, d1, o1), Some (b2, d2, o2) =>
      b1 = b2 /\ o1 = o2 /\ same d1 d2 /\ Tracer d1 = Tracer r
  | None, None => True
  | _, _ => False
  end.

Definition agree (e1 e2 : Exec) : Prop :=
  forall out r1 r2, steady r1 -> same r1 r2 -> alike r1 (e1 out r1) (e2 out r2).

Definition agreeRec (rec1 rec2 : ExecSelectionSet) : Prop :=
  forall ctx sels typ path v,
    stable ctx -> agree (rec1 ctx sels typ path v) (rec2 ctx sels typ path v).

(** The errors a goroutine records and the time it takes, on its own. *)
Definition errsOf (ctx : Context) (t : Exec) (r : Request) : list QueryError :=
  match handlePanic ctx t [] (clear r) with
  | Some (_, d, _) => Errs d
  | None => []
  end.

Definition ticksOf (ctx : Context) (t : Exec) (r : Request) : nat :=
  match handlePanic ctx t [] (clear r) with
  | Some (_, d, _) => Clock d
  | None => 0
  end.


(** ** A small schema to run the executor on *)

Module Demo.

Definition bytes (s : string) : list byte := String.list_byte_of_string s.

Definition marshal (v : Value) : option (list byte) :=
  match v with
  | VInt n => Some (bytes (pretty n))
  | VString s => Some (bytes (quoted s))
  | VBool true => Some (bytes "true")
  | VBool false => Some (bytes "false")
  | VNilPtr => Some (bytes "null")
  | _ => None
  end.

Definition noTracer (ctx : Context) (_ _ _ : string) (_ : bool)
    (_ : list (string * string)) : Context := ctx.

Definition request : Request :=
  {| Errs := []; Log := []; Clock := 0; Tracer := noTracer |}.

Definition contextCanceled : error := {| Error := "context canceled" |}.

Definition background : Context := {| Err := fun _ => None |}.
Definition canceled : Context := {| Err := fun _ => Some contextCanceled |}.
(** Cancelled while the [k]-th method call of the request runs. *)
Definition canceledDuring (k : nat) : Context :=
  {| Err := fun t => if k <=? t then Some contextCanceled else None |}.

Definition metaTypename : Field :=
  {| Name := "__typename"; Type_ := NonNull (Scalar "String"); TypeName := "";
     MethodIndex := 0; HasContext := false; HasSelected := false;
     HasError := false; ArgsPacker := false;
     TraceLabel := "GraphQL field: __typename" |}.

Definition firstPending (_ : list PathElem) (_ : nat) : nat := 0.
Definition lastPending (_ : list PathElem) (k : nat) : nat := k - 1.

Definition goType (_ : Value) : string := "T".

Definition mkField (name : string) (t : Ty) (methodIndex : nat) (hasError : bool) : Field :=
  {| Name := name; Type_ := t; TypeName := "Query"; MethodIndex := methodIndex;
     HasContext := false; HasSelected := false; HasError := hasError;
     ArgsPacker := false; TraceLabel := "GraphQL field: " +:+ name |}.

Definition select (alias : string) (f : Field) (async : bool) (Sels : list Selection) : Selection :=
  SchemaFieldSel {| Field_ := f; Alias := alias; Args := []; PackedArgs := "";
                    Async := async; FixedResult := VInvalid |} Sels.

Definition queryOp : Operation := {| opType := Query |}.
Definition mutationOp : Operation := {| opType := Mutation |}.

Definition apply (sels : list Selection) (_ : Schema) (_ : Operation) : M (list Selection) :=
  ret sels.

Definition exec (pick : list PathElem -> nat -> nat) (sels : list Selection)
    (n : nat) (ctx : Context) (root : Value) (op : Operation) :=
  Execute metaTypename pick marshal goType goType (apply sels) n ctx
          {| Resolver := root |} op request.

(** The scenario of the specification: [a: Int!] resolves to 5 and
    [b: String] fails. *)
Definition methodsAB (i : nat) (_ : list Arg) : CallResult Value :=
  match i with
  | 0 => Returns [VInt 5]
  | 1 => Returns [VNilPtr; VError {| Error := "boom" |}]
  | _ => Panics (PanicString "no such method")
  end.
Definition rootAB : Value := VResolver methodsAB.

Definition selsAB (async : bool) : list Selection :=
  [ select "a" (mkField "a" (NonNull (Scalar "Int")) 0 false) async [];
    select "b" (mkField "b" (Scalar "String") 1 true) async [] ].

Definition fieldOf (sel : Selection) (resolver : Value) : fieldToExec :=
  match sel with
  | SchemaFieldSel sel Sels => {| field := sel; sels := Sels; resolver := resolver |}
  | _ => {| field := typenameField metaTypename "" ""; sels := []; resolver := resolver |}
  end.

Definition fieldA : fieldToExec :=
  fieldOf (select "a" (mkField "a" (NonNull (Scalar "Int")) 0 false) false []) rootAB.
Definition fieldB : fieldToExec :=
  fieldOf (select "b" (mkField "b" (Scalar "String") 1 true) false []) rootAB.

(** A field whose resolver method panics. *)
Definition methodsPanic (_ : nat) (_ : list Arg) : CallResult Value :=
  Panics (PanicString "resolver panic").
Definition fieldP : fieldToExec :=
  fieldOf (select "p" (mkField "p" (Scalar "String") 0 false) false [])
          (VResolver methodsPanic).

(** An object type [T] with one field [x: Int!]. *)
Definition objT (x : Z) : Value :=
  VResolver (fun i _ =>
    match i with
    | 0 => Returns [VInt x]
    | _ => Panics (PanicString "no such method")
    end).
Definition selX (async : bool) : Selection :=
  select "x" (mkField "x" (NonNull (Scalar "Int")) 0 false) async [].

Definition threeT : list Value := [objT 1; objT 2; objT 3].
Definition holeT : list Value := [VNilPtr; objT 2].

(** [a: T!] resolves to a nil pointer, [b: Int!] to 7. *)
Definition rootNilA : Value :=
  VResolver (fun i _ =>
    match i with
    | 0 => Returns [VNilPtr]
    | 1 => Returns [VInt 7]
    | _ => Panics (PanicString "no such method")
    end).
Definition selsNilA : list Selection :=
  [ select "a" (mkField "a" (NonNull (Object "T")) 0 false) false [selX false];
    select "b" (mkField "b" (NonNull (Scalar "Int")) 1 false) false [] ].

(** An interface value that is none of its variants. *)
Definition methodsNone (_ : nat) (_ : list Arg) : CallResult Value :=
  Returns [VNilPtr; VBool false].
Definition typenameAB : TypenameField :=
  {| tfName := "Node"; tfAlias := "kind"; TypeAssertions := [("A", 0); ("B", 1)] |}.

(** A resolver with the narrowing predicates [ToA] (fails) and [ToB] (holds). *)
Definition methodsNarrow (i : nat) (_ : list Arg) : CallResult Value :=
  match i with
  | 0 => Returns [VNilPtr; VBool false]
  | 1 => Returns [objT 4; VBool true]
  | _ => Panics (PanicString "no such method")
  end.

Definition quote (s : string) : list byte := [x22] ++ bytes s ++ [x22].

(** What a caller can see of a run: the bytes, the errors, how it ended. *)
Definition observe (x : option (Buffer * Request * Outcome))
    : option (list byte * list QueryError * Outcome) :=
  match x with
  | Some (out, r, o) => Some (out, Errs r, o)
  | None => None
  end.

Definition boom : error := {| Error := "boom" |}.
Definition gotNilT : Payload :=
  PanicQueryError ("got nil for non-null " +:+ quoted "T").

Definition run := execSelectionSet metaTypename firstPending marshal goType goType.
Definition runLast := execSelectionSet metaTypename lastPending marshal goType goType.

End Demo.

(** * Properties *)

Lemma Selection_ind' (P : Selection → Prop) :
  (∀ sel Sels, Forall P Sels → P (SchemaFieldSel sel Sels)) →
  (∀ tf, P (TypenameFieldSel tf)) →
  (∀ methodIndex Sels, Forall P Sels → P (TypeAssertionSel methodIndex Sels)) →
  ∀ s, P s.
Proof.
  intros Hf Ht Ha. fix IH 1. intros [sel Sels|tf|methodIndex Sels].
  - apply Hf. induction Sels as [|s Sels IHs]; constructor; [apply IH | apply IHs].
  - apply Ht.
  - apply Ha. induction Sels as [|s Sels IHs]; constructor; [apply IH | apply IHs].
Qed.

Section Theory.

Context (MetaFieldTypename : Field) (pick : list PathElem → nat → nat)
  (json_Marshal : Value → option (list byte)) (typeString Sprint : Value → string)
  (ApplyOperation : Schema → Operation → M (list Selection)).

Local Abbreviation collectFieldToResolve := (collectFieldToResolve MetaFieldTypename).
Local Abbreviation collectFieldsToResolve := (collectFieldsToResolve MetaFieldTypename).
Local Abbreviation execSelectionSet :=
  (execSelectionSet MetaFieldTypename pick json_Marshal typeString Sprint).
Local Abbreviation execSelections := (execSelections MetaFieldTypename pick).
Local Abbreviation entryOf := (entryOf MetaFieldTypename).
Local Abbreviation mergeOcc := (mergeOcc MetaFieldTypename).
Local Abbreviation Execute :=
  (Execute MetaFieldTypename pick json_Marshal typeString Sprint ApplyOperation).

Lemma collect_cons sel sels resolver fields fieldByAlias r :
  collectFieldsToResolve (sel :: sels) resolver fields fieldByAlias r =
  (let* st := collectFieldToResolve sel resolver (fields, fieldByAlias) in
   collectFieldsToResolve sels resolver st.1 st.2) r.
Proof.
  unfold collectFieldsToResolve at 1. cbn [forEach]. unfold bind.
  destruct (collectFieldToResolve _ _ _ r) as [r' [[fs m]|v]]; reflexivity.
Qed.

(** C8. A type assertion whose predicate returns false is skipped: the
    merge goes on with the same fields and the same table, and no error
    is recorded.  One whose predicate returns true has its nested
    selections merged into the same fields and table under the narrowed
    resolver the call returned, before the merge goes on with the rest
    under the resolver it had. *)
Theorem type_assertion_narrowing methodIndex Sels rest resolver fields
    (fieldByAlias : gmap string nat) r r' outs ok :
  Method_Call resolver methodIndex [] r = (r', Ok outs) →
  outs !! 1 = Some (VBool ok) →
  (ok = false →
     collectFieldsToResolve (TypeAssertionSel methodIndex Sels :: rest)
       resolver fields fieldByAlias r
     = collectFieldsToResolve rest resolver fields fieldByAlias r'
     ∧ Errs r' = Errs r) ∧
  (ok = true → ∀ narrowed, outs !! 0 = Some narrowed →
     collectFieldsToResolve (TypeAssertionSel methodIndex Sels :: rest)
       resolver fields fieldByAlias r
     = (let* st := collectFieldsToResolve Sels narrowed fields fieldByAlias in
        collectFieldsToResolve rest resolver st.1 st.2) r').
Proof.
  intros Hcall Hok. split.
  - intros ->. split.
    + rewrite collect_cons. unfold bind at 1. cbn [collectFieldToResolve].
      unfold bind at 1. rewrite Hcall. unfold bind at 1, index. rewrite Hok.
      reflexivity.
    + unfold Method_Call in Hcall.
      destruct resolver; try discriminate.
      destruct (methods methodIndex []); inversion Hcall; reflexivity.
  - intros -> narrowed Hnar.
    rewrite collect_cons. unfold bind at 1. cbn [collectFieldToResolve].
    unfold bind at 1. rewrite Hcall. unfold bind at 1, index. rewrite Hok, Hnar.
    reflexivity.
Qed.


Lemma Errs_calls assertions r : Errs (calls assertions r) = Errs r.
Proof.
  revert r. induction assertions as [|a l IH]; intros r; [done|].
  cbn [calls foldl]. fold (calls l (tick (emit (MethodCall a.2 []) r))).
  by rewrite IH.
Qed.

Lemma typeOf_range_none methods assertions r :
  (∀ name methodIndex, (name, methodIndex) ∈ assertions →
     ∃ outs, methods methodIndex [] = Returns outs ∧ outs !! 1 = Some (VBool false)) →
  typeOf_range assertions (VResolver methods) r = (calls assertions r, Ok "").
Proof.
  revert r. induction assertions as [|[name methodIndex] l IH]; intros r H; [done|].
  destruct (H name methodIndex) as (outs & Hc & Ho); [left|].
  cbn [typeOf_range]. unfold bind at 1, Method_Call. rewrite Hc.
  unfold bind at 1, index. rewrite Ho. cbn.
  apply IH. intros n' m' Hin. apply (H n' m'). by right.
Qed.

(** C9. A typename selection on a type with narrowing variants none of
    whose predicates holds: [typeOf] returns the empty string and records
    no error, the merge appends one field with the empty string as fixed
    result, and executing that field writes the encoding of the empty
    string, [json_Marshal (VString "")], into the field's buffer. *)
Theorem typename_without_variant tf methods fields (fieldByAlias : gmap string nat) r :
  TypeAssertions tf ≠ [] →
  (∀ name methodIndex, (name, methodIndex) ∈ TypeAssertions tf →
     ∃ outs, methods methodIndex [] = Returns outs ∧ outs !! 1 = Some (VBool false)) →
  let f := {| field := typenameField MetaFieldTypename (tfAlias tf) "";
              sels := []; resolver := VResolver methods |} in
  ∃ r',
    typeOf tf (VResolver methods) r = (r', Ok "") ∧
    Errs r' = Errs r ∧
    collectFieldsToResolve [TypenameFieldSel tf] (VResolver methods) fields fieldByAlias r
      = (r', Ok (fields ++ [f], fieldByAlias)) ∧
    ∀ s data, Type_ MetaFieldTypename = NonNull (Scalar s) →
      json_Marshal (VString "") = Some data →
      ∀ n ctx path applyLimiter out r0, ∃ r1,
        execFieldSelection (execSelectionSet (S n)) ctx f path applyLimiter out r0
          = Some (out ++ data, r1, Done) ∧
        Errs r1 = Errs r0.
Proof.
  intros Hne Hall f.
  assert (Ht : typeOf tf (VResolver methods) r = (calls (TypeAssertions tf) r, Ok "")).
  { unfold typeOf. destruct (TypeAssertions tf) as [|a l] eqn:E; [done|].
    cbn [length Nat.eqb]. rewrite <- E in *. by apply typeOf_range_none. }
  exists (calls (TypeAssertions tf) r). split; [done|]. split; [apply Errs_calls|].
  split.
  - rewrite collect_cons. unfold bind at 1. cbn [collectFieldToResolve].
    unfold bind at 1. rewrite Ht. reflexivity.
  - intros s data HT Hdata n ctx path applyLimiter out r0.
    unfold execFieldSelection. cbn. rewrite HT. cbn. rewrite Hdata. cbn.
    eexists. split; [reflexivity|].
    destruct applyLimiter; reflexivity.
Qed.


Lemma writeKey_spec i f out r :
  writeKey i f out r = Some (out ++ keyBytes i f, r, Done).
Proof.
  unfold writeKey, keyBytes, comma, andThen, write, skip, WriteByte, WriteString.
  destruct (0 <? i); cbn; repeat rewrite <- app_assoc; reflexivity.
Qed.




(** C1. A field whose resolver method returns a non-nil error.  Exactly
    one QueryError is appended to the error list; its path is the
    field's location, its message and cause are the resolver's error.
    The field's buffer gets the bytes [null] and nothing else, and
    nothing is serialized below the field: the statement holds whatever
    [execSelectionSet] is, and the log shows the one method call.  In a
    serial selection set the loop goes on with the next field; in a
    concurrent one the field's goroutine ends normally. *)
Theorem resolver_error_nulls_field (execSelectionSet : ExecSelectionSet)
    ctx parent f r methods outs result e :
  let path := fieldPath parent f in
  let traceCtx := traceCtxOf r ctx f in
  let err := {| Message := Error e;
                Path := toSlice parent ++ [PathAlias (Alias (field f))];
                OriginalError := Some e; PanicValue := None |} in
  IsValid (FixedResult (field f)) = false →
  Err traceCtx (Clock r) = None →
  HasError (Field_ (field f)) = true →
  resolver f = VResolver methods →
  methods (MethodIndex (Field_ (field f))) (callArgs traceCtx f) = Returns outs →
  outs !! 0 = Some result →
  outs !! 1 = Some (VError e) →
  (∀ applyLimiter out, ∃ r',
     execFieldSelection execSelectionSet ctx f path applyLimiter out r
       = Some (out ++ nullBytes, r', Done) ∧
     Errs r' = Errs r ++ [err] ∧
     Log r' = Log r ++ (if applyLimiter then [LimiterAcquire] else [])
                    ++ [spanOf f;
                        MethodCall (MethodIndex (Field_ (field f))) (callArgs traceCtx f)]
                    ++ (if applyLimiter then [LimiterRelease] else [])
                    ++ [TraceFinish (Some err)]) ∧
  (∀ i rest outs0 out, ∃ r',
     rangeFrom i (f :: rest) (fieldEntry execSelectionSet ctx parent false outs0) out r
       = rangeFrom (S i) rest (fieldEntry execSelectionSet ctx parent false outs0)
           (out ++ keyBytes i f ++ nullBytes) r' ∧
     Errs r' = Errs r ++ [err]) ∧
  (∃ r',
     handlePanic ctx (execFieldSelection execSelectionSet ctx f path true) [] r
       = Some (nullBytes, r', Done) ∧
     Errs r' = Errs r ++ [err]).
Proof.
  intros path traceCtx err Hfix Hctx Herr Hres Hcall H0 H1.
  assert (Hfield : ∀ applyLimiter out, ∃ r',
     execFieldSelection execSelectionSet ctx f path applyLimiter out r
       = Some (out ++ nullBytes, r', Done) ∧
     Errs r' = Errs r ++ [err] ∧
     Log r' = Log r ++ (if applyLimiter then [LimiterAcquire] else [])
                    ++ [spanOf f;
                        MethodCall (MethodIndex (Field_ (field f))) (callArgs traceCtx f)]
                    ++ (if applyLimiter then [LimiterRelease] else [])
                    ++ [TraceFinish (Some err)]).
  { intros applyLimiter out.
    unfold execFieldSelection, recoverField, resolveField.
    assert (Ht : ∀ r0, Tracer r0 = Tracer r → 
       Tracer r0 ctx (TraceLabel (Field_ (field f))) (TypeName (Field_ (field f)))
         (Name (Field_ (field f))) (negb (Async (field f))) (Args (field f)) = traceCtx).
    { intros r0 ->. reflexivity. }
    rewrite Ht by (destruct applyLimiter; reflexivity).
    rewrite Hfix, Herr, Hres.
    unfold bind, Context_Err, Method_Call.
    assert (Hclock : ∀ e,
      Clock (emit e (if applyLimiter then emit LimiterAcquire r else r)) = Clock r)
      by (intros e0; by destruct applyLimiter).
    rewrite Hclock.
    rewrite Hctx, Hcall.
    unfold index. rewrite H0, H1. cbn.
    eexists. split; [reflexivity|].
    destruct applyLimiter; cbn; repeat rewrite <- app_assoc; split; reflexivity. }
  split; [exact Hfield|]. split.
  - intros i rest outs0 out.
    destruct (Hfield false (out ++ keyBytes i f)) as (r' & Hx & He & _).
    exists r'. split; [|exact He].
    cbn [rangeFrom]. unfold andThen at 1, fieldEntry at 1, andThen at 1.
    rewrite writeKey_spec. fold path. rewrite Hx. rewrite <- app_assoc. reflexivity.
  - destruct (Hfield true []) as (r' & Hx & He & _).
    exists r'. split; [|exact He]. unfold handlePanic. rewrite Hx. reflexivity.
Qed.

(** C7, amended. A field without fixed result whose trace-derived
    context is cancelled: the resolver method is not called (the log has
    the span and no method call), one QueryError with the text of the
    cancellation cause is appended, the field's buffer gets [null], and
    the serial loop and the goroutine go on as for a resolver error. *)
Theorem cancelled_field_skips_resolver (execSelectionSet : ExecSelectionSet)
    ctx parent f r cause :
  let path := fieldPath parent f in
  let traceCtx := traceCtxOf r ctx f in
  let err := Errorf (Error cause) in
  IsValid (FixedResult (field f)) = false →
  Err traceCtx (Clock r) = Some cause →
  (∀ applyLimiter out, ∃ r',
     execFieldSelection execSelectionSet ctx f path applyLimiter out r
       = Some (out ++ nullBytes, r', Done) ∧
     Errs r' = Errs r ++ [err] ∧
     Log r' = Log r ++ (if applyLimiter then [LimiterAcquire] else [])
                    ++ [spanOf f]
                    ++ (if applyLimiter then [LimiterRelease] else [])
                    ++ [TraceFinish (Some err)]) ∧
  (∀ i rest outs0 out, ∃ r',
     rangeFrom i (f :: rest) (fieldEntry execSelectionSet ctx parent false outs0) out r
       = rangeFrom (S i) rest (fieldEntry execSelectionSet ctx parent false outs0)
           (out ++ keyBytes i f ++ nullBytes) r' ∧
     Errs r' = Errs r ++ [err]) ∧
  (∃ r',
     handlePanic ctx (execFieldSelection execSelectionSet ctx f path true) [] r
       = Some (nullBytes, r', Done) ∧
     Errs r' = Errs r ++ [err]).
Proof.
  intros path traceCtx err Hfix Hctx.
  assert (Hfield : ∀ applyLimiter out, ∃ r',
     execFieldSelection execSelectionSet ctx f path applyLimiter out r
       = Some (out ++ nullBytes, r', Done) ∧
     Errs r' = Errs r ++ [err] ∧
     Log r' = Log r ++ (if applyLimiter then [LimiterAcquire] else [])
                    ++ [spanOf f]
                    ++ (if applyLimiter then [LimiterRelease] else [])
                    ++ [TraceFinish (Some err)]).
  { intros applyLimiter out.
    unfold execFieldSelection, recoverField, resolveField.
    assert (Ht : ∀ r0, Tracer r0 = Tracer r → 
       Tracer r0 ctx (TraceLabel (Field_ (field f))) (TypeName (Field_ (field f)))
         (Name (Field_ (field f))) (negb (Async (field f))) (Args (field f)) = traceCtx).
    { intros r0 ->. reflexivity. }
    rewrite Ht by (destruct applyLimiter; reflexivity).
    rewrite Hfix. unfold bind, Context_Err.
    assert (Hclock : ∀ e,
      Clock (emit e (if applyLimiter then emit LimiterAcquire r else r)) = Clock r)
      by (intros e0; by destruct applyLimiter).
    rewrite Hclock.
    rewrite Hctx. cbn.
    eexists. split; [reflexivity|].
    destruct applyLimiter; cbn; repeat rewrite <- app_assoc; split; reflexivity. }
  split; [exact Hfield|]. split.
  - intros i rest outs0 out.
    destruct (Hfield false (out ++ keyBytes i f)) as (r' & Hx & He & _).
    exists r'. split; [|exact He].
    cbn [rangeFrom]. unfold andThen at 1, fieldEntry at 1, andThen at 1.
    rewrite writeKey_spec. fold path. rewrite Hx. rewrite <- app_assoc. reflexivity.
  - destruct (Hfield true []) as (r' & Hx & He & _).
    exists r'. split; [|exact He]. unfold handlePanic. rewrite Hx. reflexivity.
Qed.


(** C5, amended. A non-null object, interface or union whose resolver
    value is a nil pointer: the serializer writes nothing and panics with
    "got nil for non-null"; the [handlePanic] of the enclosing goroutine
    or of [Execute] turns the panic into one QueryError. *)
Theorem nonnull_composite_nil_panics n ctx sels t path out r :
  isComposite t = true →
  let v := PanicQueryError ("got nil for non-null " +:+ quoted (Ty_String t)) in
  execSelectionSet (S n) ctx sels (NonNull t) path VNilPtr out r
    = Some (out, r, Panicked v) ∧
  ∃ r',
    handlePanic ctx (execSelectionSet (S n) ctx sels (NonNull t) path VNilPtr) out r
      = Some (out, r', Done) ∧
    Errs r' = Errs r ++ [panicError v].
Proof.
  intros Ht v.
  assert (H : execSelectionSet (S n) ctx sels (NonNull t) path VNilPtr out r
    = Some (out, r, Panicked v)).
  { destruct t; try discriminate Ht; reflexivity. }
  split; [exact H|]. unfold handlePanic. rewrite H. eexists. split; reflexivity.
Qed.

(** *** The merge *)





Lemma alter_new_entry (fields : list fieldToExec) sel Sels resolver :
  alter (append_sels Sels) (length fields)
        (fields ++ [{| field := sel; sels := []; resolver := resolver |}])
  = fields ++ [{| field := sel; sels := Sels; resolver := resolver |}].
Proof.
  induction fields as [|f fields IH]; [reflexivity|].
  cbn. f_equal. exact IH.
Qed.

Lemma forEach_cons {A S} (f : A → S → M S) a l s r :
  forEach f (a :: l) s r
  = match f a s r with
    | (r', Ok s') => forEach f l s' r'
    | (r', Panic v) => (r', Panic v)
    end.
Proof. reflexivity. Qed.

Lemma gather_eq resolver s acc r :
  gather resolver s acc r = mapRes (app acc) (occurrencesOf s resolver r).
Proof.
  unfold gather, bind. destruct (occurrencesOf s resolver r) as [r1 [o|v]]; reflexivity.
Qed.

Lemma gather_acc resolver sels acc r :
  forEach (gather resolver) sels acc r
  = mapRes (app acc) (forEach (gather resolver) sels [] r).
Proof.
  revert acc r. induction sels as [|s sels IH]; intros acc r.
  - cbn. unfold ret. by rewrite app_nil_r.
  - rewrite !forEach_cons, !gather_eq.
    destruct (occurrencesOf s resolver r) as [r1 [o|v]]; [|reflexivity].
    cbn [mapRes]. rewrite (IH (acc ++ o)), (IH ([] ++ o)).
    destruct (forEach _ sels [] r1) as [r2 [os|v]]; [|reflexivity].
    cbn. by rewrite app_assoc.
Qed.

Lemma bind_eq {A B} (c : M A) (k : A → M B) r :
  bind c k r = match c r with
               | (r', Ok a) => k a r'
               | (r', Panic v) => (r', Panic v)
               end.
Proof. reflexivity. Qed.

Lemma collect_one_occurrences sel : ∀ resolver st r,
  collectFieldToResolve sel resolver st r
  = mapRes (foldl mergeOcc st) (occurrencesOf sel resolver r).
Proof.
  induction sel as [sel Sels _|tf|methodIndex Sels IH] using Selection_ind';
    intros resolver [fields fieldByAlias] r.
  - cbn. destruct (fieldByAlias !! Alias sel); [reflexivity|].
    unfold ret. cbn. by rewrite alter_new_entry.
  - cbn. unfold bind. destruct (typeOf tf resolver r) as [r1 [name|v]]; reflexivity.
  - cbn [collectFieldToResolve occurrencesOf]. rewrite !bind_eq.
    destruct (Method_Call resolver methodIndex [] r) as [r1 [out|v]]; [|reflexivity].
    rewrite !bind_eq.
    destruct (index out 1 r1) as [r2 [ok|v]]; [|reflexivity].
    rewrite !bind_eq.
    destruct (Value_Bool ok r2) as [r3 [[]|v]]; [|reflexivity|reflexivity].
    cbn [negb]. rewrite !bind_eq.
    destruct (index out 0 r3) as [r4 [narrowed|v]]; [|reflexivity].
    change (forEach (λ s acc, let* o := occurrencesOf s narrowed in ret (acc ++ o)) Sels [] r4)
      with (forEach (gather narrowed) Sels [] r4).
    generalize (fields, fieldByAlias). clear fields fieldByAlias.
    revert r4. induction IH as [|s Sels Hs _ IHl]; intros r4 st; [reflexivity|].
    rewrite !forEach_cons, Hs, gather_eq.
    destruct (occurrencesOf s narrowed r4) as [r5 [o|v]]; [|reflexivity].
    cbn [mapRes]. rewrite IHl, (gather_acc narrowed Sels ([] ++ o)).
    destruct (forEach (gather narrowed) Sels [] r5) as [r6 [os|v]]; [|reflexivity].
    cbn. by rewrite foldl_app.
Qed.

Lemma collect_occurrences sels resolver fields (fieldByAlias : gmap string nat) r :
  collectFieldsToResolve sels resolver fields fieldByAlias r
  = mapRes (foldl mergeOcc (fields, fieldByAlias)) (occurrences sels resolver r).
Proof.
  unfold collectFieldsToResolve, occurrences.
  change (forEach (λ s acc, let* o := occurrencesOf s resolver in ret (acc ++ o)) sels [] r)
    with (forEach (gather resolver) sels [] r).
  generalize (fields, fieldByAlias). clear. intros st.
  revert r st. induction sels as [|s sels IH]; intros r st; [reflexivity|].
  rewrite !forEach_cons, collect_one_occurrences, gather_eq.
  destruct (occurrencesOf s resolver r) as [r1 [o|v]]; [|reflexivity].
  cbn [mapRes]. rewrite IH, (gather_acc resolver sels ([] ++ o)).
  destruct (forEach (gather resolver) sels [] r1) as [r2 [os|v]]; [|reflexivity].
  cbn. by rewrite foldl_app.
Qed.


Lemma nested_app alias l1 l2 : nested alias (l1 ++ l2) = nested alias l1 ++ nested alias l2.
Proof. unfold nested. by rewrite flat_map_app. Qed.

Lemma entryIdx_seen b after alias :
  existsb (isField alias) b = true → entryIdx b after alias = None.
Proof.
  revert b. induction after as [|o rest IH]; intros b Hb; [done|].
  assert (Hb' : existsb (isField alias) (b ++ [o]) = true).
  { rewrite existsb_app, Hb. done. }
  destruct o as [sel Sels res|al name res]; cbn [entryIdx].
  - destruct (existsb (isField (Alias sel)) b) eqn:E; [by apply IH|].
    case_bool_decide as Ha; [congruence|]. by rewrite IH.
  - by rewrite IH.
Qed.

Lemma entryIdx_None b after alias :
  entryIdx b after alias = None → existsb (isField alias) b = false →
  existsb (isField alias) after = false.
Proof.
  revert b. induction after as [|o rest IH]; intros b Hn Hb; [done|].
  destruct o as [sel Sels res|al name res]; cbn [entryIdx existsb isField] in *.
  - destruct (existsb (isField (Alias sel)) b) eqn:E.
    + case_bool_decide as Ha; [congruence|]. cbn.
      apply (IH (b ++ [FieldOcc sel Sels res])); [done|].
      rewrite existsb_app, Hb. cbn. rewrite bool_decide_eq_false_2; done.
    + case_bool_decide as Ha; [done|]. cbn.
      destruct (entryIdx _ rest alias) eqn:E'; [done|].
      apply (IH (b ++ [FieldOcc sel Sels res])); [done|].
      rewrite existsb_app, Hb. cbn. rewrite bool_decide_eq_false_2; done.
  - destruct (entryIdx _ rest alias) eqn:E'; [done|].
    apply (IH (b ++ [TypenameOcc al name res])); [done|].
    rewrite existsb_app, Hb. done.
Qed.

Lemma mergedFrom_snoc_typename b after alias name res :
  mergedFrom MetaFieldTypename b (after ++ [TypenameOcc alias name res])
  = mergedFrom MetaFieldTypename b after ++ [entryOf (TypenameOcc alias name res)].
Proof.
  revert b. induction after as [|o rest IH]; intros b; [reflexivity|].
  cbn [app mergedFrom]. rewrite IH.
  destruct o as [sel Sels res'|al nm res'].
  - rewrite nested_app. cbn [nested flat_map]. rewrite !app_nil_r.
    by rewrite <- app_assoc.
  - reflexivity.
Qed.

Lemma entryIdx_snoc_typename b after alias name res a :
  entryIdx b (after ++ [TypenameOcc alias name res]) a = entryIdx b after a.
Proof.
  revert b. induction after as [|o rest IH]; intros b; [reflexivity|].
  cbn [app entryIdx]. rewrite IH. reflexivity.
Qed.

Lemma mergedFrom_snoc_field b after sel Sels res :
  mergedFrom MetaFieldTypename b (after ++ [FieldOcc sel Sels res])
  = match entryIdx b after (Alias sel) with
    | Some i => alter (append_sels Sels) i (mergedFrom MetaFieldTypename b after)
    | None =>
        if existsb (isField (Alias sel)) (b ++ after)
        then mergedFrom MetaFieldTypename b after
        else mergedFrom MetaFieldTypename b after ++ [entryOf (FieldOcc sel Sels res)]
    end.
Proof.
  revert b. induction after as [|o rest IH]; intros b.
  - cbn. rewrite !app_nil_r. by destruct (existsb _ b).
  - cbn [app mergedFrom entryIdx]. rewrite IH.
    replace (b ++ o :: rest) with ((b ++ [o]) ++ rest) by (by rewrite <- app_assoc).
    destruct o as [sel' Sels' res'|al name res'].
    + destruct (existsb (isField (Alias sel')) b) eqn:E; [reflexivity|].
      rewrite nested_app.
      cbn [nested flat_map]. rewrite app_nil_r.
      destruct (decide (Alias sel' = Alias sel)) as [Ha|Ha].
      * rewrite (bool_decide_eq_true_2 (Alias sel = Alias sel')) by done.
        rewrite (bool_decide_eq_true_2 (Alias sel' = Alias sel)) by done.
        rewrite entryIdx_seen, existsb_app.
        2:{ rewrite existsb_app. cbn. rewrite bool_decide_eq_true_2 by done.
            by rewrite orb_true_r. }
        rewrite existsb_app. cbn [existsb isField].
        rewrite bool_decide_eq_true_2 by done. rewrite !orb_true_r. cbn.
        unfold append_sels. cbn. by rewrite <- app_assoc.
      * rewrite (bool_decide_eq_false_2 (Alias sel = Alias sel')) by done.
        rewrite (bool_decide_eq_false_2 (Alias sel' = Alias sel)) by done.
        rewrite app_nil_r.
        destruct (entryIdx (b ++ [FieldOcc sel' Sels' res']) rest (Alias sel)); cbn; [reflexivity|].
        by destruct (existsb (isField (Alias sel)) _).
    + destruct (entryIdx (b ++ [TypenameOcc al name res']) rest (Alias sel)); cbn; [reflexivity|].
      by destruct (existsb (isField (Alias sel)) _).
Qed.

Lemma entryIdx_snoc_field b after sel Sels res a :
  entryIdx b (after ++ [FieldOcc sel Sels res]) a
  = match entryIdx b after a with
    | Some i => Some i
    | None =>
        if bool_decide (Alias sel = a) && negb (existsb (isField a) (b ++ after))
        then Some (length (mergedFrom MetaFieldTypename b after))
        else None
    end.
Proof.
  revert b. induction after as [|o rest IH]; intros b.
  - cbn. rewrite app_nil_r.
    case_bool_decide as Ha; [subst a|].
    + by destruct (existsb _ b).
    + by destruct (existsb _ b).
  - cbn [app mergedFrom entryIdx]. rewrite IH.
    replace (b ++ o :: rest) with ((b ++ [o]) ++ rest) by (by rewrite <- app_assoc).
    destruct o as [sel' Sels' res'|al name res'].
    + destruct (existsb (isField (Alias sel')) b) eqn:E; [reflexivity|].
      destruct (bool_decide (Alias sel' = a)); [reflexivity|].
      destruct (entryIdx (b ++ [FieldOcc sel' Sels' res']) rest a); [reflexivity|].
      by destruct (bool_decide (Alias sel = a) && _).
    + destruct (entryIdx (b ++ [TypenameOcc al name res']) rest a); [reflexivity|].
      by destruct (bool_decide (Alias sel = a) && _).
Qed.

Lemma foldl_mergeOcc occs :
  ∃ m : gmap string nat,
    foldl mergeOcc ([], ∅) occs = (merged MetaFieldTypename occs, m) ∧
    ∀ a, m !! a = entryIdx [] occs a.
Proof.
  induction occs as [|x occs (m & Hf & Hm)] using rev_ind.
  - exists ∅. split; [reflexivity|]. intros a. apply lookup_empty.
  - rewrite foldl_app, Hf. cbn [foldl]. unfold merged in *.
    destruct x as [sel Sels res|al name res]; cbn [mergeOcc fst snd].
    + rewrite Hm, mergedFrom_snoc_field.
      destruct (entryIdx [] occs (Alias sel)) as [i|] eqn:E.
      * exists m. split; [reflexivity|]. intros a.
        rewrite entryIdx_snoc_field, Hm.
        destruct (entryIdx [] occs a) eqn:E'; [reflexivity|].
        case_bool_decide as Ha; [congruence|reflexivity].
      * rewrite app_nil_l, (entryIdx_None [] occs (Alias sel)) by done.
        eexists. split; [reflexivity|]. intros a.
        rewrite entryIdx_snoc_field, app_nil_l.
        destruct (decide (Alias sel = a)) as [<-|Hne].
        -- rewrite lookup_insert_eq, E, bool_decide_eq_true_2 by done.
           by rewrite (entryIdx_None [] occs (Alias sel)).
        -- rewrite lookup_insert_ne, Hm by done.
           rewrite bool_decide_eq_false_2 by done.
           by destruct (entryIdx [] occs a).
    + rewrite mergedFrom_snoc_typename.
      exists m. split; [reflexivity|]. intros a.
      by rewrite entryIdx_snoc_typename.
Qed.

(** C3. The fields [collectFieldsToResolve] produces from a selection
    list are [merged] of the selections in traversal order: one entry for
    each alias of a field selection, at the place of the first field
    selection with that alias and with its metadata and resolver, holding
    the nested selections of all field selections with that alias in
    order.  The merge panics exactly when the traversal does. *)
Theorem merge_first_seen sels resolver r :
  mapRes fst (collectFieldsToResolve sels resolver [] ∅ r)
  = mapRes (merged MetaFieldTypename) (occurrences sels resolver r).
Proof.
  rewrite collect_occurrences.
  destruct (occurrences sels resolver r) as [r' [occs|v]]; [|reflexivity].
  cbn. destruct (foldl_mergeOcc occs) as (m & -> & _). reflexivity.
Qed.
End Theory.




Lemma clear_extend r d : clear (extend r d) = clear r.
Proof. reflexivity. Qed.
Lemma clear_clear r : clear (clear r) = clear r.
Proof. reflexivity. Qed.
Lemma extend_clear r : extend r (clear r) = r.
Proof. destruct r. unfold extend, clear. cbn. by rewrite !app_nil_r, Nat.add_0_r. Qed.
Lemma extend_assoc r d1 d2 : extend (extend r d1) d2 = extend r (extend d1 d2).
Proof. unfold extend. cbn. by rewrite !app_assoc, Nat.add_assoc. Qed.
Lemma extend_AddError r d e : extend r (AddError e d) = AddError e (extend r d).
Proof. unfold extend, AddError. cbn. by rewrite app_assoc. Qed.
Lemma extend_emit r d e : extend r (emit e d) = emit e (extend r d).
Proof. unfold extend, emit. cbn. by rewrite app_assoc. Qed.
Lemma extend_tick r d : extend r (tick d) = tick (extend r d).
Proof. unfold extend, tick. cbn. by rewrite Nat.add_succ_r. Qed.
Lemma emit_as_extend r e : emit e r = extend r (emit e (clear r)).
Proof. by rewrite extend_emit, extend_clear. Qed.

Lemma call_as_extend r e : tick (emit e r) = extend r (tick (emit e (clear r))).
Proof. by rewrite extend_tick, <- emit_as_extend. Qed.

Lemma clear_Tracer r1 r2 : Tracer r1 = Tracer r2 → clear r1 = clear r2.
Proof. unfold clear. by intros ->. Qed.

Lemma steady_Tracer r1 r2 : Tracer r1 = Tracer r2 → steady r1 → steady r2.
Proof. unfold steady. by intros <-. Qed.

Lemma steady_clear r : steady r → steady (clear r).
Proof. done. Qed.

Lemma framed_Tracer e out r b d o :
  framed e → steady r → e out r = Some (b, d, o) → Tracer d = Tracer r.
Proof.
  intros H Hs He. rewrite H in He by done.
  destruct (e [] (clear r)) as [[[b' d'] o']|]; [|done].
  by inversion He.
Qed.

Lemma framedM_Tracer {A} (c : M A) r :
  framedM c → steady r → Tracer (c r).1 = Tracer r.
Proof. intros H Hs. by rewrite H. Qed.

Lemma framed_skip : framed skip.
Proof. intros out r _. cbn. by rewrite app_nil_r, extend_clear. Qed.

Lemma framed_write p : framed (write (Write p)).
Proof. intros out r _. cbn. by rewrite extend_clear. Qed.

Lemma framed_WriteByte c : framed (write (WriteByte c)).
Proof. apply (framed_write [c]). Qed.

Lemma framed_WriteString s : framed (write (WriteString s)).
Proof. apply (framed_write (String.list_byte_of_string s)). Qed.

Lemma framed_raise v : framed (raise v).
Proof. intros out r _. cbn. by rewrite app_nil_r, extend_clear. Qed.

Lemma framed_andThen a b : framed a → framed b → framed (a ;; b).
Proof.
  intros Ha Hb out r Hs. unfold andThen. rewrite Ha by done.
  destruct (a [] (clear r)) as [[[ba da] [|v]]|] eqn:E; [|reflexivity|reflexivity].
  assert (Tracer da = Tracer r) as Ht
    by (by apply (framed_Tracer a [] (clear r) ba da Done)).
  rewrite Hb, (Hb ba da), clear_extend
    by first [done|by apply (steady_Tracer r)].
  rewrite (clear_Tracer da r Ht).
  destruct (b [] (clear r)) as [[[bb db] o]|]; [|reflexivity].
  by rewrite app_assoc, extend_assoc.
Qed.

Lemma framed_run {A} (c : M A) (k : A → Exec) :
  framedM c → (∀ a, framed (k a)) → framed (run c k).
Proof.
  intros Hc Hk out r Hs. unfold run. rewrite Hc by done.
  destruct (c (clear r)) as [d [a|v]] eqn:E; cbn [fst snd].
  - assert (Tracer d = Tracer r) as Ht.
    { pose proof (framedM_Tracer c (clear r) Hc Hs) as H. by rewrite E in H. }
    rewrite Hk, (Hk a [] d), clear_extend
      by first [done|by apply (steady_Tracer r)].
    rewrite (clear_Tracer d r Ht).
    destruct (k a [] (clear r)) as [[[b d'] o]|]; [|reflexivity].
    by rewrite extend_assoc.
  - by rewrite app_nil_r.
Qed.

Lemma framed_rangeFrom {A} (l : list A) (body : nat → A → Exec) i :
  (∀ j x, x ∈ l → framed (body j x)) → framed (rangeFrom i l body).
Proof.
  revert i. induction l as [|x l IH]; intros i H; [apply framed_skip|].
  cbn [rangeFrom]. apply framed_andThen.
  - apply H. by left.
  - apply IH. intros j y Hy. apply H. by right.
Qed.

Lemma framed_handlePanic ctx body : framed body → framed (handlePanic ctx body).
Proof.
  intros H out r Hs. unfold handlePanic. rewrite H by done.
  destruct (body [] (clear r)) as [[[b d] [|v]]|]; [reflexivity| |reflexivity].
  by rewrite extend_AddError, extend_emit.
Qed.

Lemma framed_comma i : framed (comma i).
Proof. unfold comma. destruct (0 <? i); [apply framed_WriteByte|apply framed_skip]. Qed.

Lemma framed_writeKey i f : framed (writeKey i f).
Proof.
  unfold writeKey.
  repeat (apply framed_andThen;
          [first [apply framed_comma|apply framed_WriteByte|apply framed_WriteString]|]).
  apply framed_WriteByte.
Qed.

(** *** Code that only logs *)

Lemma framedM_ret {A} (a : A) : framedM (ret a).
Proof. intros r _. cbn. by rewrite extend_clear. Qed.

Lemma framedM_panic {A} v : framedM (@panic A v).
Proof. intros r _. cbn. by rewrite extend_clear. Qed.

Lemma framedM_bind {A B} (c : M A) (k : A → M B) :
  framedM c → (∀ a, framedM (k a)) → framedM (bind c k).
Proof.
  intros Hc Hk r Hs. unfold bind. rewrite Hc by done.
  destruct (c (clear r)) as [d [a|v]] eqn:E; cbn [fst snd]; [|reflexivity].
  assert (Tracer d = Tracer r) as Ht.
  { pose proof (framedM_Tracer c (clear r) Hc Hs) as H. by rewrite E in H. }
  rewrite Hk, (Hk a d), clear_extend by first [done|by apply (steady_Tracer r)].
  rewrite (clear_Tracer d r Ht).
  cbn. by rewrite extend_assoc.
Qed.

Lemma framedM_Method_Call v i args : framedM (Method_Call v i args).
Proof.
  intros r _. unfold Method_Call.
  destruct v; try (cbn [fst snd]; by rewrite <- call_as_extend).
  destruct (methods i args); cbn [fst snd]; by rewrite <- call_as_extend.
Qed.

(** The one place the time is read. *)
Lemma framedM_Context_Err ctx : stable ctx → framedM (Context_Err ctx).
Proof.
  intros Hc r _. unfold Context_Err. cbn. by rewrite extend_clear, (Hc (Clock r) 0).
Qed.

Lemma framedM_index outs i : framedM (index outs i).
Proof. unfold index. destruct (outs !! i); [apply framedM_ret|apply framedM_panic]. Qed.

Lemma framedM_Value_Bool v : framedM (Value_Bool v).
Proof. destruct v; first [apply framedM_ret|apply framedM_panic]. Qed.

Lemma framedM_IsNil v : framedM (IsNil v).
Proof. destruct v; first [apply framedM_ret|apply framedM_panic]. Qed.

Lemma framedM_Elem v : framedM (Elem v).
Proof. destruct v; first [apply framedM_ret|apply framedM_panic]. Qed.

Lemma framedM_Len v : framedM (Len v).
Proof. destruct v; first [apply framedM_ret|apply framedM_panic]. Qed.

Lemma framedM_Index v i : framedM (Index v i).
Proof.
  destruct v; try apply framedM_panic; cbn.
  - destruct (String.get i s); [apply framedM_ret|apply framedM_panic].
  - destruct (elems !! i); [apply framedM_ret|apply framedM_panic].
Qed.

Lemma framedM_Interface_error v : framedM (Interface_error v).
Proof. destruct v; first [apply framedM_ret|apply framedM_panic]. Qed.

Lemma framedM_typeOf_range assertions resolver : framedM (typeOf_range assertions resolver).
Proof.
  induction assertions as [|[name methodIndex] l IH]; [apply framedM_ret|].
  cbn [typeOf_range].
  apply framedM_bind; [apply framedM_Method_Call|]. intros out.
  apply framedM_bind; [apply framedM_index|]. intros ok.
  apply framedM_bind; [apply framedM_Value_Bool|]. intros [].
  - apply framedM_ret.
  - apply IH.
Qed.

Lemma framedM_typeOf tf resolver : framedM (typeOf tf resolver).
Proof.
  unfold typeOf. destruct (_ =? _); [apply framedM_ret|apply framedM_typeOf_range].
Qed.

Lemma framedM_forEach {A S} (f : A → S → M S) l :
  (∀ a s, a ∈ l → framedM (f a s)) → ∀ s, framedM (forEach f l s).
Proof.
  induction l as [|a l IH]; intros H s; [apply framedM_ret|].
  cbn [forEach]. apply framedM_bind.
  - apply H. by left.
  - intros s'. apply IH. intros b t Hb. apply H. by right.
Qed.

Lemma framedM_resolveField traceCtx f path :
  stable traceCtx → framedM (resolveField traceCtx f path).
Proof.
  intros Hst. unfold resolveField.
  destruct (IsValid _); [apply framedM_ret|].
  apply framedM_bind; [by apply framedM_Context_Err|]. intros [err|];
    [apply framedM_ret|].
  apply framedM_bind; [apply framedM_Method_Call|]. intros callOut.
  apply framedM_bind; [apply framedM_index|]. intros result.
  destruct (HasError _); [|apply framedM_ret].
  apply framedM_bind; [apply framedM_index|]. intros e.
  apply framedM_bind; [apply framedM_IsNil|]. intros []; cbn [negb].
  - apply framedM_ret.
  - apply framedM_bind; [apply framedM_Interface_error|]. intros resolverErr.
    apply framedM_ret.
Qed.

Lemma recoverField_frame path body r :
  framedM body → steady r →
  recoverField path body r
  = (extend r (recoverField path body (clear r)).1,
     (recoverField path body (clear r)).2).
Proof.
  intros H Hs. unfold recoverField. rewrite H by done.
  destruct (body (clear r)) as [d [res|v]]; cbn [fst snd]; [reflexivity|].
  by rewrite extend_emit.
Qed.

Lemma recoverField_Tracer path body r :
  framedM body → steady r → Tracer (recoverField path body r).1 = Tracer r.
Proof. intros H Hs. by rewrite recoverField_frame. Qed.

Lemma framed_execFieldSelection (rec : ExecSelectionSet) ctx f path applyLimiter :
  stable ctx →
  (∀ traceCtx v, stable traceCtx →
     framed (rec traceCtx (sels f) (Type_ (Field_ (field f))) path v)) →
  framed (execFieldSelection rec ctx f path applyLimiter).
Proof.
  intros Hctx Hrec out r Hs. unfold execFieldSelection.
  set (acq := λ r : Request, if applyLimiter then emit LimiterAcquire r else r).
  set (rel := λ r : Request, if applyLimiter then emit LimiterRelease r else r).
  change (if applyLimiter then emit LimiterAcquire r else r) with (acq r).
  change (if applyLimiter then emit LimiterAcquire (clear r) else clear r)
    with (acq (clear r)).
  assert (Hacq : ∀ a b, acq (extend a b) = extend a (acq b)).
  { intros a b. unfold acq. destruct applyLimiter; [by rewrite extend_emit|done]. }
  assert (Hrel : ∀ a b, rel (extend a b) = extend a (rel b)).
  { intros a b. unfold rel. destruct applyLimiter; [by rewrite extend_emit|done]. }
  assert (Ht : Tracer (acq r) = Tracer (acq (clear r))).
  { unfold acq. by destruct applyLimiter. }
  assert (Ht0 : Tracer (acq (clear r)) = Tracer r).
  { unfold acq. by destruct applyLimiter. }
  rewrite Ht.
  set (traceCtx := Tracer (acq (clear r)) ctx _ _ _ _ _).
  set (span := TraceField _ _ _ _ _).
  assert (Hst : stable traceCtx).
  { unfold traceCtx. rewrite Ht0. by apply Hs. }
  pose proof (framedM_resolveField traceCtx f path Hst) as Hbody.
  assert (Hs1 : steady (emit span (acq r))).
  { apply (steady_Tracer r); [|done]. cbn. by rewrite Ht, Ht0. }
  assert (Hs2 : steady (emit span (acq (clear r)))).
  { apply (steady_Tracer r); [|done]. cbn. by rewrite Ht0. }
  rewrite (recoverField_frame _ _ (emit span (acq r))) by done.
  rewrite (recoverField_frame _ _ (emit span (acq (clear r)))) by done.
  change (clear (emit span (acq r))) with (clear (acq r)).
  change (clear (emit span (acq (clear r)))) with (clear (acq (clear r))).
  replace (clear (acq r)) with (clear r) by (unfold acq; by destruct applyLimiter).
  replace (clear (acq (clear r))) with (clear r) by (unfold acq; by destruct applyLimiter).
  pose proof (recoverField_Tracer path (resolveField traceCtx f path) (clear r) Hbody Hs)
    as Ht2.
  destruct (recoverField path (resolveField traceCtx f path) (clear r))
    as [d2 [result err]]; cbn [fst snd] in *.
  change (if applyLimiter then emit LimiterRelease ?x else ?x) with (rel x).
  replace (acq r) with (extend r (acq (clear r)))
    by (by rewrite <- Hacq, extend_clear).
  rewrite <- extend_emit, extend_assoc, Hrel.
  set (d3 := rel (extend (emit span (acq (clear r))) d2)).
  assert (Hc3 : clear d3 = clear r).
  { unfold d3, rel, acq, clear. destruct applyLimiter; reflexivity. }
  assert (Hs3 : steady d3).
  { apply (steady_Tracer (clear r)); [|done]. by rewrite <- Hc3. }
  destruct err as [err|].
  - by rewrite extend_emit, extend_AddError.
  - rewrite (Hrec traceCtx result Hst _ (extend r d3)) by done.
    rewrite (Hrec traceCtx result Hst [] d3) by done.
    rewrite clear_extend, Hc3.
    destruct (rec traceCtx (sels f) _ path result [] (clear r)) as [[[b d4] o]|];
      [|reflexivity].
    by rewrite extend_emit, extend_assoc.
Qed.

Section Frames.

Context (MetaFieldTypename : Field) (pick : list PathElem → nat → nat)
  (json_Marshal : Value → option (list byte)) (typeString Sprint : Value → string)
  (ApplyOperation : Schema → Operation → M (list Selection)).

Local Abbreviation collectFieldToResolve := (collectFieldToResolve MetaFieldTypename).
Local Abbreviation collectFieldsToResolve := (collectFieldsToResolve MetaFieldTypename).
Local Abbreviation execSelectionSet :=
  (execSelectionSet MetaFieldTypename pick json_Marshal typeString Sprint).
Local Abbreviation execSelections := (execSelections MetaFieldTypename pick).
Local Abbreviation Execute :=
  (Execute MetaFieldTypename pick json_Marshal typeString Sprint ApplyOperation).

Lemma framedM_collectFieldToResolve sel :
  ∀ resolver st, framedM (collectFieldToResolve sel resolver st).
Proof.
  induction sel as [sel Sels _|tf|methodIndex Sels IH] using Selection_ind';
    intros resolver [fields fieldByAlias].
  - cbn. destruct (fieldByAlias !! Alias sel); apply framedM_ret.
  - cbn. apply framedM_bind; [apply framedM_typeOf|]. intros name. apply framedM_ret.
  - cbn [collectFieldToResolve].
    apply framedM_bind; [apply framedM_Method_Call|]. intros out.
    apply framedM_bind; [apply framedM_index|]. intros ok.
    apply framedM_bind; [apply framedM_Value_Bool|]. intros []; cbn [negb].
    + apply framedM_bind; [apply framedM_index|]. intros narrowed.
      apply framedM_forEach. intros s st Hs.
      rewrite Forall_forall in IH. by apply IH.
    + apply framedM_ret.
Qed.

Lemma framedM_collectFieldsToResolve sels resolver fields fieldByAlias :
  framedM (collectFieldsToResolve sels resolver fields fieldByAlias).
Proof.
  apply framedM_forEach. intros s st _. apply framedM_collectFieldToResolve.
Qed.

Lemma extract_elem {A} k (l : list A) x l' :
  extract k l = Some (x, l') → l ≡ₚ x :: l'.
Proof.
  revert k x l'. induction l as [|y l IH]; intros k x l' H; [by destruct k|].
  destruct k as [|k]; cbn in H.
  - by inversion H.
  - destruct (extract k l) as [[z l'']|] eqn:E; [|done].
    inversion H; subst. rewrite (IH _ _ _ E). apply Permutation_swap.
Qed.

Lemma extract_None {A} k (l : list A) :
  k < length l → extract k l ≠ None.
Proof.
  revert k. induction l as [|y l IH]; intros k H; cbn in *; [lia|].
  destruct k as [|k]; [done|].
  specialize (IH k ltac:(lia)). cbn. destruct (extract k l) as [[z l']|]; done.
Qed.

Lemma schedule_frame n ctx site (pending : list (nat * Exec)) outs r :
  (∀ it, it ∈ pending → framed it.2) →
  steady r →
  schedule pick n ctx site pending outs r
  = match schedule pick n ctx site pending outs (clear r) with
    | Some (outs', d) => Some (outs', extend r d)
    | None => None
    end.
Proof.
  revert pending outs r. induction n as [|n IH]; intros pending outs r H Hs.
  - cbn. by rewrite extend_clear.
  - cbn [schedule].
    destruct (extract _ pending) as [[[i task] pending']|] eqn:E.
    2:{ by rewrite extend_clear. }
    pose proof (extract_elem _ _ _ _ E) as Hp.
    assert (Htask : framed task).
    { apply (H (i, task)). rewrite Hp. by left. }
    assert (Hrest : ∀ it, it ∈ pending' → framed it.2).
    { intros it Hin. apply H. rewrite Hp. by right. }
    pose proof (framed_handlePanic ctx task Htask) as Hh.
    rewrite Hh by done.
    destruct (handlePanic ctx task [] (clear r)) as [[[b d] o]|] eqn:E2; [|reflexivity].
    assert (Tracer d = Tracer r) as Ht
      by (by apply (framed_Tracer _ [] (clear r) b d o Hh)).
    cbn [app].
    rewrite (IH pending' _ (extend r d) Hrest) by done.
    rewrite (IH pending' _ d Hrest) by (by apply (steady_Tracer r)).
    rewrite clear_extend, (clear_Tracer d r Ht).
    destruct (schedule pick n ctx site pending' _ (clear r)) as [[outs' d']|];
      [|reflexivity].
    by rewrite extend_assoc.
Qed.

Lemma elem_of_imap_pair {A} (l : list A) it :
  it ∈ imap pair l → it.2 ∈ l.
Proof.
  intros H. apply elem_of_lookup_imap_1 in H as (i & x & -> & Hx).
  cbn. by eapply list_elem_of_lookup_2.
Qed.

Lemma goAll_frame ctx site tasks r :
  (∀ t, t ∈ tasks → framed t) →
  steady r →
  goAll pick ctx site tasks r
  = match goAll pick ctx site tasks (clear r) with
    | Some (outs, d) => Some (outs, extend r d)
    | None => None
    end.
Proof.
  intros H Hs. unfold goAll. apply schedule_frame; [|done].
  intros it Hin. apply H. by apply elem_of_imap_pair.
Qed.

Lemma goAll_Tracer ctx site tasks r outs d :
  (∀ t, t ∈ tasks → framed t) →
  steady r →
  goAll pick ctx site tasks r = Some (outs, d) → Tracer d = Tracer r.
Proof.
  intros H Hs E. rewrite goAll_frame in E by done.
  destruct (goAll pick ctx site tasks (clear r)) as [[outs' d']|]; [|done].
  by inversion E.
Qed.

(** A computation that starts goroutines and then writes what they left. *)
Lemma framed_spawn ctx site tasks (k : list Buffer → Exec) :
  (∀ t, t ∈ tasks → framed t) → (∀ outs, framed (k outs)) →
  framed (λ out r,
    match goAll pick ctx site tasks r with
    | None => None
    | Some (outs, r) => k outs out r
    end).
Proof.
  intros Ht Hk out r Hs. rewrite goAll_frame by done.
  destruct (goAll pick ctx site tasks (clear r)) as [[outs d]|] eqn:E; [|reflexivity].
  assert (Tracer d = Tracer r) as HT
    by (by apply (goAll_Tracer ctx site tasks (clear r) outs d)).
  rewrite Hk, (Hk outs [] d), clear_extend
    by first [done|by apply (steady_Tracer r)].
  rewrite (clear_Tracer d r HT).
  destruct (k outs [] (clear r)) as [[[b d'] o]|]; [|reflexivity].
  by rewrite extend_assoc.
Qed.


Lemma framed_execFields rec ctx path async outs fields :
  stable ctx → framedRec rec → framed (execFields rec ctx path async outs fields).
Proof.
  intros Hctx Hrec. unfold execFields.
  apply framed_andThen; [apply framed_WriteByte|].
  apply framed_andThen; [|apply framed_WriteByte].
  apply framed_rangeFrom. intros i f _. unfold fieldEntry.
  apply framed_andThen; [apply framed_writeKey|].
  destruct async; [apply framed_write|].
  apply framed_execFieldSelection; [done|]. intros traceCtx v. apply Hrec.
Qed.

Lemma framed_execSelections rec ctx sels path resolver serially :
  stable ctx → framedRec rec →
  framed (execSelections rec ctx sels path resolver serially).
Proof.
  intros Hctx Hrec. unfold execSelections.
  apply framed_run; [apply framedM_collectFieldsToResolve|].
  intros [fields fieldByAlias].
  destruct (negb serially && HasAsyncSel sels).
  - apply (framed_spawn ctx (toSlice path) _
             (λ outs, execFields rec ctx path true outs fields)).
    + intros t Ht. apply list_elem_of_fmap in Ht as (f & -> & _).
      apply framed_execFieldSelection; [done|]. intros traceCtx v. apply Hrec.
    + intros outs. by apply framed_execFields.
  - by apply framed_execFields.
Qed.

Lemma framed_listConcurrently execElem ctx path l :
  (∀ i, framed (execElem i)) → framed (listConcurrently pick execElem ctx path l).
Proof.
  intros H. unfold listConcurrently.
  apply (framed_spawn ctx (toSlice path) _
           (λ entryouts, write (WriteByte "["%byte) ;;
              range entryouts (λ i entryout, comma i ;; write (Write entryout)) ;;
              write (WriteByte "]"%byte))).
  - intros t Ht. apply list_elem_of_fmap in Ht as (i & -> & _). apply H.
  - intros outs.
    apply framed_andThen; [apply framed_WriteByte|].
    apply framed_andThen; [|apply framed_WriteByte].
    apply framed_rangeFrom. intros i b _.
    apply framed_andThen; [apply framed_comma|apply framed_write].
Qed.

Lemma framed_listSequentially execElem l :
  (∀ i, framed (execElem i)) → framed (listSequentially execElem l).
Proof.
  intros H. unfold listSequentially.
  apply framed_andThen; [apply framed_WriteByte|].
  apply framed_andThen; [|apply framed_WriteByte].
  apply framed_rangeFrom. intros i b _.
  apply framed_andThen; [apply framed_comma|apply H].
Qed.

Lemma framed_execSelectionSet n : framedRec (execSelectionSet n).
Proof.
  induction n as [|n IH]; intros ctx sels typ path v Hctx; [done|].
  cbn [execSelectionSet].
  destruct (unwrapNonNull typ) as [t nonNull].
  assert (Hlist : ∀ OfType v,
    framed (run (Len v) (λ l,
      let execElem := listElem (execSelectionSet n) ctx sels OfType path v in
      if HasAsyncSel sels then listConcurrently pick execElem ctx path l
      else listSequentially execElem l))).
  { intros OfType v'. apply framed_run; [apply framedM_Len|]. intros l.
    assert (∀ i, framed (listElem (execSelectionSet n) ctx sels OfType path v' i)).
    { intros i. apply framed_run; [apply framedM_Index|]. intros e. by apply IH. }
    destruct (HasAsyncSel sels);
      [by apply framed_listConcurrently|by apply framed_listSequentially]. }
  assert (Hscalar : ∀ v, framed (
     if IsValid v then
       match json_Marshal v with
       | Some data => write (Write data)
       | None => raise (PanicQueryError ("could not marshal " +:+ Sprint v))
       end
     else raise (PanicString "reflect: call of reflect.Value.Interface on zero Value"))).
  { intros v'. destruct (IsValid v'); [|apply framed_raise].
    destruct (json_Marshal v'); [apply framed_write|apply framed_raise]. }
  assert (Henum : ∀ v, framed (
     write (WriteByte x22) ;;
     write (WriteString (Value_String typeString v)) ;;
     write (WriteByte x22))).
  { intros v'. repeat (apply framed_andThen;
      [first [apply framed_WriteByte|apply framed_WriteString]|]).
    apply framed_WriteByte. }
  assert (Hobj : framed (
     run (if Kind_eqb (Value_Kind v) Ptr then IsNil v else ret false) (λ isNil,
       if isNil : bool then
         if nonNull
         then raise (PanicQueryError ("got nil for non-null " +:+ quoted (Ty_String t)))
         else write (WriteString "null")
       else execSelections (execSelectionSet n) ctx sels path v false))).
  { apply framed_run.
    - destruct (Kind_eqb _ _); [apply framedM_IsNil|apply framedM_ret].
    - intros [].
      + destruct nonNull; [apply framed_raise|apply framed_WriteString].
      + by apply framed_execSelections. }
  destruct t; try exact Hobj;
    (destruct nonNull;
     [|apply framed_run; [apply framedM_IsNil|]; intros [];
       [apply framed_WriteString|apply framed_run; [apply framedM_Elem|]; intros v']]);
    first [apply Hlist|apply Hscalar|apply Henum|apply framed_raise].
Qed.

End Frames.

(** *** The recursion bound is enough *)


Lemma total_skip : total skip.
Proof. intros out r. by eexists. Qed.
Lemma total_write f : total (write f).
Proof. intros out r. by eexists. Qed.
Lemma total_raise v : total (raise v).
Proof. intros out r. by eexists. Qed.

Lemma total_andThen a b : total a → total b → total (a ;; b).
Proof.
  intros Ha Hb out r. unfold andThen.
  destruct (Ha out r) as [[[out' r'] [|v]] ->]; [apply Hb|by eexists].
Qed.

Lemma total_run {A} (c : M A) (k : A → Exec) : (∀ a, total (k a)) → total (run c k).
Proof.
  intros Hk out r. unfold run. destruct (c r) as [r' [a|v]]; [apply Hk|by eexists].
Qed.

Lemma total_rangeFrom {A} (l : list A) (body : nat → A → Exec) i :
  (∀ j x, x ∈ l → total (body j x)) → total (rangeFrom i l body).
Proof.
  revert i. induction l as [|x l IH]; intros i H; [apply total_skip|].
  cbn [rangeFrom]. apply total_andThen.
  - apply H. by left.
  - apply IH. intros j y Hy. apply H. by right.
Qed.

Lemma total_handlePanic ctx body : total body → total (handlePanic ctx body).
Proof.
  intros H out r. unfold handlePanic.
  destruct (H out r) as [[[out' r'] [|v]] ->]; by eexists.
Qed.

Lemma total_comma i : total (comma i).
Proof. unfold comma. destruct (0 <? i); [apply total_write|apply total_skip]. Qed.

Lemma total_writeKey i f : total (writeKey i f).
Proof.
  unfold writeKey.
  repeat (apply total_andThen; [first [apply total_comma|apply total_write]|]).
  apply total_write.
Qed.

Lemma total_execFieldSelection (rec : ExecSelectionSet) ctx f path applyLimiter :
  (∀ traceCtx v, total (rec traceCtx (sels f) (Type_ (Field_ (field f))) path v)) →
  total (execFieldSelection rec ctx f path applyLimiter).
Proof.
  intros Hrec out r. unfold execFieldSelection.
  destruct (recoverField _ _ _) as [r2 [result [err|]]]; [by eexists|].
  match goal with |- context [rec ?c ?s ?t ?p ?v ?o ?r] =>
    destruct (Hrec c v o r) as [[[out' r'] o'] ->] end.
  by eexists.
Qed.

Section Totality.

Context (MetaFieldTypename : Field) (pick : list PathElem → nat → nat)
  (json_Marshal : Value → option (list byte)) (typeString Sprint : Value → string)
  (ApplyOperation : Schema → Operation → M (list Selection)).

Local Abbreviation collectFieldsToResolve := (collectFieldsToResolve MetaFieldTypename).
Local Abbreviation execSelectionSet :=
  (execSelectionSet MetaFieldTypename pick json_Marshal typeString Sprint).
Local Abbreviation execSelections := (execSelections MetaFieldTypename pick).
Local Abbreviation Execute :=
  (Execute MetaFieldTypename pick json_Marshal typeString Sprint ApplyOperation).
Local Abbreviation need := (need MetaFieldTypename).
Local Abbreviation need1 := (need1 MetaFieldTypename).
Local Abbreviation mergeOcc := (mergeOcc MetaFieldTypename).
Local Abbreviation weight := (weight MetaFieldTypename).
Local Abbreviation occNeed := (occNeed MetaFieldTypename).

Lemma schedule_total n ctx site (pending : list (nat * Exec)) outs r :
  (∀ it, it ∈ pending → total it.2) →
  is_Some (schedule pick n ctx site pending outs r).
Proof.
  revert pending outs r. induction n as [|n IH]; intros pending outs r H; [by eexists|].
  cbn [schedule].
  destruct (extract _ pending) as [[[i task] pending']|] eqn:E; [|by eexists].
  pose proof (extract_elem _ _ _ _ E) as Hp.
  destruct (total_handlePanic ctx task (H (i, task) ltac:(rewrite Hp; by left)) [] r)
    as [[[b r'] o] ->].
  apply IH. intros it Hin. apply H. rewrite Hp. by right.
Qed.

Lemma goAll_total ctx site tasks r :
  (∀ t, t ∈ tasks → total t) → is_Some (goAll pick ctx site tasks r).
Proof.
  intros H. apply schedule_total. intros it Hin. apply H. by apply elem_of_imap_pair.
Qed.

Lemma total_spawn ctx site tasks (k : list Buffer → Exec) :
  (∀ t, t ∈ tasks → total t) → (∀ outs, total (k outs)) →
  total (λ out r,
    match goAll pick ctx site tasks r with
    | None => None
    | Some (outs, r) => k outs out r
    end).
Proof.
  intros Ht Hk out r. destruct (goAll_total ctx site tasks r Ht) as [[outs r'] ->].
  apply Hk.
Qed.

Lemma total_execFields rec ctx path async outs fields :
  (∀ f, f ∈ fields → ∀ traceCtx path v,
     total (rec traceCtx (sels f) (Type_ (Field_ (field f))) path v)) →
  total (execFields rec ctx path async outs fields).
Proof.
  intros Hrec. unfold execFields.
  apply total_andThen; [apply total_write|].
  apply total_andThen; [|apply total_write].
  apply total_rangeFrom. intros i f Hf. unfold fieldEntry.
  apply total_andThen; [apply total_writeKey|].
  destruct async; [apply total_write|].
  apply total_execFieldSelection. intros traceCtx v. by apply Hrec.
Qed.

Lemma total_execSelections rec ctx selections path resolver serially :
  (∀ r r' fields m f,
     collectFieldsToResolve selections resolver [] ∅ r = (r', Ok (fields, m)) →
     f ∈ fields → ∀ traceCtx path v,
     total (rec traceCtx (sels f) (Type_ (Field_ (field f))) path v)) →
  total (execSelections rec ctx selections path resolver serially).
Proof.
  intros Hrec out r. unfold execSelections, run.
  destruct (collectFieldsToResolve selections resolver [] ∅ r) as [r' [[fields m]|v]] eqn:E;
    [|by eexists].
  assert (Hf : ∀ f, f ∈ fields → ∀ traceCtx path v,
     total (rec traceCtx (sels f) (Type_ (Field_ (field f))) path v)).
  { intros f Hin. by eapply Hrec. }
  destruct (negb serially && HasAsyncSel selections).
  - apply (total_spawn ctx (toSlice path) _
             (λ outs, execFields rec ctx path true outs fields)).
    + intros t Ht. apply list_elem_of_fmap in Ht as (f & -> & Hin).
      apply total_execFieldSelection. intros traceCtx v. by apply Hf.
    + intros outs. by apply total_execFields.
  - by apply total_execFields.
Qed.



Lemma need_app l1 l2 : need (l1 ++ l2) = need l1 + need l2.
Proof. unfold need. by rewrite sum_list_with_app. Qed.

Lemma weight_app l1 l2 : weight (l1 ++ l2) = weight l1 + weight l2.
Proof. unfold weight. by rewrite sum_list_with_app. Qed.

Lemma weight_alter Sels i fields :
  weight (alter (append_sels Sels) i fields) ≤ weight fields + need Sels.
Proof.
  revert i. induction fields as [|f fields IH]; intros i; [unfold weight; destruct i; cbn; lia|].
  destruct i as [|i]; unfold weight in *; cbn [alter list_alter sum_list_with append_sels sels field].
  - rewrite need_app. lia.
  - specialize (IH i). cbn [alter] in IH. lia.
Qed.

Lemma weight_elem f fields :
  f ∈ fields → ty_height (Type_ (Field_ (field f))) + need (sels f) ≤ weight fields.
Proof.
  induction 1 as [f l|f g l _ IH]; unfold weight in *; cbn [sum_list_with]; lia.
Qed.

Lemma mergeOcc_weight st o :
  weight (mergeOcc st o).1 ≤ weight st.1 + occNeed o.
Proof.
  destruct st as [fields m], o as [sel Sels res|al name res]; cbn [mergeOcc fst snd].
  - destruct (m !! Alias sel); cbn [fst occNeed].
    + pose proof (weight_alter Sels n fields). lia.
    + rewrite weight_app. unfold weight at 2. cbn [sum_list_with entryOf field sels]. lia.
  - cbn [occNeed]. rewrite weight_app. unfold weight at 2.
    cbn [sum_list_with entryOf field sels typenameField Field_].
    unfold need. cbn. lia.
Qed.

Lemma foldl_mergeOcc_weight occs st :
  weight (foldl mergeOcc st occs).1 ≤ weight st.1 + sum_list_with occNeed occs.
Proof.
  revert st. induction occs as [|o occs IH]; intros st; cbn [foldl sum_list_with]; [lia|].
  specialize (IH (mergeOcc st o)). pose proof (mergeOcc_weight st o). lia.
Qed.

Lemma gather_need resolver Sels :
  Forall (λ s, ∀ resolver r r' occs,
            occurrencesOf s resolver r = (r', Ok occs) →
            sum_list_with occNeed occs ≤ need1 s) Sels →
  ∀ r r' occs,
    forEach (gather resolver) Sels [] r = (r', Ok occs) →
    sum_list_with occNeed occs ≤ need Sels.
Proof.
  induction 1 as [|s Sels Hs _ IH]; intros r r' occs H.
  - inversion H. cbn. lia.
  - rewrite forEach_cons, gather_eq in H.
    destruct (occurrencesOf s resolver r) as [r1 [o|v]] eqn:E; [|done].
    cbn [mapRes] in H. rewrite gather_acc in H.
    destruct (forEach (gather resolver) Sels [] r1) as [r2 [os|v]] eqn:E2; [|done].
    inversion H; subst. rewrite sum_list_with_app. cbn.
    specialize (Hs _ _ _ _ E). specialize (IH _ _ _ E2).
    unfold need in *. lia.
Qed.

Lemma occurrencesOf_need sel : ∀ resolver r r' occs,
  occurrencesOf sel resolver r = (r', Ok occs) →
  sum_list_with occNeed occs ≤ need1 sel.
Proof.
  induction sel as [sel Sels _|tf|methodIndex Sels IH] using Selection_ind';
    intros resolver r r' occs H.
  - inversion H. cbn. unfold need. lia.
  - cbn in H. rewrite bind_eq in H.
    destruct (typeOf tf resolver r) as [r1 [name|v]]; [|done].
    inversion H. cbn. lia.
  - cbn [occurrencesOf] in H. rewrite bind_eq in H.
    destruct (Method_Call resolver methodIndex [] r) as [r1 [out|v]]; [|done].
    rewrite bind_eq in H.
    destruct (index out 1 r1) as [r2 [ok|v]]; [|done].
    rewrite bind_eq in H.
    destruct (Value_Bool ok r2) as [r3 [[]|v]]; [| |done]; cbn [negb] in H.
    + rewrite bind_eq in H.
      destruct (index out 0 r3) as [r4 [narrowed|v]]; [|done].
      apply (gather_need narrowed Sels IH) in H. exact H.
    + inversion H. cbn. lia.
Qed.

Lemma collect_need selections resolver r r' fields m f :
  collectFieldsToResolve selections resolver [] ∅ r = (r', Ok (fields, m)) →
  f ∈ fields →
  ty_height (Type_ (Field_ (field f))) + need (sels f) ≤ need selections.
Proof.
  intros H Hf. rewrite collect_occurrences in H.
  destruct (occurrences selections resolver r) as [r1 [occs|v]] eqn:E; [|done].
  cbn in H. inversion H as [[H1 H2]].
  pose proof (foldl_mergeOcc_weight occs ([], ∅)) as Hw.
  fold mergeOcc in H2. rewrite H2 in Hw. cbn [fst] in Hw.
  assert (sum_list_with occNeed occs ≤ need selections) as Ho.
  { apply (gather_need resolver selections) with (r := r) (r' := r1); [|exact E].
    apply Forall_forall. intros s _. apply occurrencesOf_need. }
  pose proof (weight_elem f fields Hf). cbn in Hw. lia.
Qed.

Lemma ty_height_pos t : 1 ≤ ty_height t.
Proof. destruct t; cbn; lia. Qed.

Lemma execSelectionSet_total n : ∀ ctx sels typ path v,
  ty_height typ + need sels ≤ n → total (execSelectionSet n ctx sels typ path v).
Proof.
  induction n as [|n IH]; intros ctx sels typ path v Hn.
  { pose proof (ty_height_pos typ). lia. }
  cbn [execSelectionSet].
  destruct (unwrapNonNull typ) as [t nonNull] eqn:Eu.
  assert (Ht : ty_height t ≤ ty_height typ).
  { destruct typ; inversion Eu; subst; cbn; lia. }
  assert (Hlist : ∀ OfType v, t = List OfType →
    total (run (Len v) (λ l,
      let execElem := listElem (execSelectionSet n) ctx sels OfType path v in
      if HasAsyncSel sels then listConcurrently pick execElem ctx path l
      else listSequentially execElem l))).
  { intros OfType v' ->. cbn in Ht. apply total_run. intros l.
    assert (∀ i, total (listElem (execSelectionSet n) ctx sels OfType path v' i)) as He.
    { intros i. apply total_run. intros e. apply IH. lia. }
    destruct (HasAsyncSel sels).
    - unfold listConcurrently.
      apply (total_spawn ctx (toSlice path) _
           (λ entryouts, write (WriteByte "["%byte) ;;
              range entryouts (λ i entryout, comma i ;; write (Write entryout)) ;;
              write (WriteByte "]"%byte))).
      + intros t Hin. apply list_elem_of_fmap in Hin as (i & -> & _). apply He.
      + intros outs.
        apply total_andThen; [apply total_write|].
        apply total_andThen; [|apply total_write].
        apply total_rangeFrom. intros i b _.
        apply total_andThen; [apply total_comma|apply total_write].
    - unfold listSequentially.
      apply total_andThen; [apply total_write|].
      apply total_andThen; [|apply total_write].
      apply total_rangeFrom. intros i b _.
      apply total_andThen; [apply total_comma|apply He]. }
  assert (Hscalar : ∀ v, total (
     if IsValid v then
       match json_Marshal v with
       | Some data => write (Write data)
       | None => raise (PanicQueryError ("could not marshal " +:+ Sprint v))
       end
     else raise (PanicString "reflect: call of reflect.Value.Interface on zero Value"))).
  { intros v'. destruct (IsValid v'); [|apply total_raise].
    destruct (json_Marshal v'); [apply total_write|apply total_raise]. }
  assert (Henum : ∀ v, total (
     write (WriteByte x22) ;;
     write (WriteString (Value_String typeString v)) ;;
     write (WriteByte x22))).
  { intros v'. repeat (apply total_andThen; [apply total_write|]). apply total_write. }
  assert (Hobj : total (
     run (if Kind_eqb (Value_Kind v) Ptr then IsNil v else ret false) (λ isNil,
       if isNil : bool then
         if nonNull
         then raise (PanicQueryError ("got nil for non-null " +:+ quoted (Ty_String t)))
         else write (WriteString "null")
       else execSelections (execSelectionSet n) ctx sels path v false))).
  { apply total_run. intros [].
    - destruct nonNull; [apply total_raise|apply total_write].
    - apply total_execSelections. intros r r' fields m f Hc Hf traceCtx path' v'.
      apply IH. pose proof (collect_need _ _ _ _ _ _ _ Hc Hf).
      pose proof (ty_height_pos typ). lia. }
  destruct t; try exact Hobj;
    (destruct nonNull;
     [|apply total_run; intros [];
       [apply total_write|apply total_run; intros v']]);
    first [by apply (Hlist t)|apply Hscalar|apply Henum|apply total_raise].
Qed.

Lemma Execute_total n ctx s op r :
  (∀ r' sels, ApplyOperation s op r = (r', Ok sels) → need sels ≤ n) →
  is_Some (Execute n ctx s op r).
Proof.
  intros Hn. unfold Execute.
  assert (Ht : is_Some (handlePanic ctx
    (run (ApplyOperation s op) (λ sels,
       execSelections (execSelectionSet n) ctx sels None (Resolver s)
         (isMutation (opType op)))) [] r)).
  { unfold handlePanic, run.
    destruct (ApplyOperation s op r) as [r1 [sels|v]] eqn:E; [|by eexists].
    assert (total (execSelections (execSelectionSet n) ctx sels None (Resolver s)
         (isMutation (opType op)))) as Hx.
    { apply total_execSelections. intros r0 r' fields m f Hc Hf traceCtx path' v'.
      apply execSelectionSet_total. pose proof (collect_need _ _ _ _ _ _ _ Hc Hf).
      specialize (Hn _ _ eq_refl). lia. }
    destruct (Hx [] r1) as [[[out r2] [|v]] ->]; by eexists. }
  destruct Ht as [[[out r2] o] ->]. destruct (Err ctx _); by eexists.
Qed.

End Totality.

(** *** What a computation writes *)




Lemma bytesOf_Tracer t r1 r2 : Tracer r1 = Tracer r2 → bytesOf t r1 = bytesOf t r2.
Proof. intros H. unfold bytesOf. by rewrite (clear_Tracer _ _ H). Qed.

Lemma framed_bytes t out r b d o :
  framed t → steady r → t out r = Some (b, d, o) →
  b = out ++ bytesOf t r ∧ Tracer d = Tracer r ∧
  ∃ d', t [] (clear r) = Some (bytesOf t r, d', o).
Proof.
  intros H Hs E. rewrite H in E by done. unfold bytesOf.
  destruct (t [] (clear r)) as [[[b' d'] o']|]; [|done].
  inversion E; subst. split; [done|]. split; [done|]. by eexists.
Qed.

Lemma bytesOf_handlePanic ctx t r : bytesOf (handlePanic ctx t) r = bytesOf t r.
Proof.
  unfold bytesOf, handlePanic.
  by destruct (t [] (clear r)) as [[[b d] [|v]]|].
Qed.

Lemma comma_spec i out r : comma i out r = Some (out ++ commaBytes i, r, Done).
Proof.
  unfold comma, commaBytes. destruct (0 <? i); cbn; [done|by rewrite app_nil_r].
Qed.

Lemma rangeFrom_Done {A} (l : list A) (body : nat → A → Exec) i out r out' r' :
  (∀ j x, framed (body j x)) →
  steady r →
  rangeFrom i l body out r = Some (out', r', Done) →
  out' = out ++ concat (imap (λ k x, bytesOf (body (i + k) x) r) l) ∧
  Tracer r' = Tracer r ∧
  ∀ k x, l !! k = Some x →
    ∃ d, body (i + k) x [] (clear r) = Some (bytesOf (body (i + k) x) r, d, Done).
Proof.
  intros Hf. revert i out r. induction l as [|x l IH]; intros i out r Hs E.
  - cbn in E. inversion E; subst. cbn. rewrite app_nil_r. done.
  - cbn [rangeFrom] in E. unfold andThen in E.
    destruct (body i x out r) as [[[out1 r1] [|v]]|] eqn:E1; [|done|done].
    destruct (framed_bytes _ _ _ _ _ _ (Hf i x) Hs E1) as (-> & Ht & d & Hd).
    destruct (IH _ _ _ (steady_Tracer r r1 (eq_sym Ht) Hs) E) as (-> & Ht' & Hall).
    rewrite imap_cons. cbn [concat]. rewrite Nat.add_0_r.
    split; [|split].
    + rewrite <- app_assoc. do 2 f_equal. f_equal.
      apply imap_ext. intros k y _. cbn.
      rewrite (bytesOf_Tracer _ r1 r Ht). by rewrite Nat.add_succ_r.
    + congruence.
    + intros [|k] y Hy.
      * inversion Hy; subst. rewrite Nat.add_0_r. by eexists.
      * destruct (Hall k y Hy) as (d' & Hd').
        rewrite (clear_Tracer _ _ Ht), (bytesOf_Tracer _ r1 r Ht) in Hd'.
        rewrite Nat.add_succ_r. by eexists.
Qed.

Lemma range_writes (entryouts : list Buffer) i out r :
  rangeFrom i entryouts (λ i entryout, comma i ;; write (Write entryout)) out r
  = Some (out ++ concat (imap (λ k b, commaBytes (i + k) ++ b) entryouts), r, Done).
Proof.
  revert i out. induction entryouts as [|b l IH]; intros i out.
  - cbn. by rewrite app_nil_r.
  - cbn [rangeFrom]. unfold andThen at 1 2. rewrite comma_spec. cbn [write Write].
    rewrite IH, imap_cons. cbn [concat]. unfold Write.
    rewrite Nat.add_0_r, <- !app_assoc.
    replace (imap ((λ k b0, commaBytes (i + k) ++ b0) ∘ S) l)
      with (imap (λ k b0, commaBytes (S i + k) ++ b0) l); [done|].
    apply imap_ext. intros k y _. cbn. by rewrite Nat.add_succ_r.
Qed.

Section Goroutines.

Context (pick : list PathElem → nat → nat).

Lemma schedule_slots n ctx site (pending : list (nat * Exec)) outs r outs' r' :
  (∀ it, it ∈ pending → framed it.2) →
  steady r →
  NoDup pending.*1 →
  n = length pending →
  schedule pick n ctx site pending outs r = Some (outs', r') →
  length outs' = length outs ∧
  Tracer r' = Tracer r ∧
  (∀ j, j ∉ pending.*1 → outs' !! j = outs !! j) ∧
  (∀ j t, (j, t) ∈ pending → j < length outs → outs' !! j = Some (bytesOf t r)).
Proof.
  revert pending outs r.
  induction n as [|n IH]; intros pending outs r Hf Hs Hnd Hn E.
  - destruct pending; [|done]. cbn in E. inversion E; subst.
    repeat split; try done. intros j t Hin. by apply elem_of_nil in Hin.
  - cbn [schedule] in E.
    destruct (extract _ pending) as [[[i task] pending']|] eqn:Ex.
    2:{ exfalso. eapply (extract_None _ pending); [|exact Ex].
        apply Nat.mod_upper_bound. lia. }
    pose proof (extract_elem _ _ _ _ Ex) as Hp.
    assert (Htask : framed task).
    { apply (Hf (i, task)). rewrite Hp. by left. }
    assert (Hrest : ∀ it, it ∈ pending' → framed it.2).
    { intros it Hin. apply Hf. rewrite Hp. by right. }
    assert (Hp1 : pending.*1 ≡ₚ i :: pending'.*1) by (by rewrite Hp).
    rewrite Hp1 in Hnd. apply NoDup_cons in Hnd as [Hi Hnd'].
    destruct (handlePanic ctx task [] r) as [[[b r1] o]|] eqn:Eh; [|done].
    destruct (framed_bytes _ _ _ _ _ _ (framed_handlePanic ctx task Htask) Hs Eh)
      as (Hb & Ht & _).
    cbn in Hb. rewrite bytesOf_handlePanic in Hb. subst b.
    assert (Hlen : n = length pending').
    { apply Permutation_length in Hp. cbn in Hp. lia. }
    destruct (IH _ _ _ Hrest (steady_Tracer r r1 (eq_sym Ht) Hs) Hnd' Hlen E)
      as (Hl & Ht' & Hout & Hin).
    rewrite length_insert in Hl.
    split; [done|]. split; [congruence|]. split.
    + intros j Hj. rewrite Hp1 in Hj. apply not_elem_of_cons in Hj as [Hji Hj].
      rewrite (Hout j Hj). by rewrite list_lookup_insert_ne.
    + intros j t Hjt Hlt. rewrite Hp in Hjt. apply elem_of_cons in Hjt as [Heq|Hjt].
      * inversion Heq; subst. rewrite (Hout i Hi).
        by rewrite list_lookup_insert_eq.
      * rewrite (Hin j t Hjt) by (by rewrite length_insert).
        by rewrite (bytesOf_Tracer _ r1 r Ht).
Qed.

Lemma schedule_some n ctx site (pending : list (nat * Exec)) outs r :
  (∀ it, it ∈ pending → framed it.2 ∧ is_Some (it.2 [] (clear r))) →
  steady r →
  is_Some (schedule pick n ctx site pending outs r).
Proof.
  revert pending outs r.
  induction n as [|n IH]; intros pending outs r H Hs; [by eexists|].
  cbn [schedule].
  destruct (extract _ pending) as [[[i task] pending']|] eqn:E; [|by eexists].
  pose proof (extract_elem _ _ _ _ E) as Hp.
  destruct (H (i, task) ltac:(rewrite Hp; by left)) as [Hf [[[b d] o] Hs']]. cbn in *.
  pose proof (framed_handlePanic ctx task Hf) as Hh.
  assert (is_Some (handlePanic ctx task [] r)) as [[[b' r1] o'] Eh].
  { rewrite Hh by done. unfold handlePanic at 1. rewrite Hs'. destruct o; by eexists. }
  rewrite Eh.
  destruct (framed_bytes _ _ _ _ _ _ Hh Hs Eh) as (_ & Ht & _).
  apply IH; [|by apply (steady_Tracer r)].
  intros it Hin. rewrite (clear_Tracer _ _ Ht). apply H. rewrite Hp. by right.
Qed.

Lemma imap_pair_fst {A} (l : list A) : (imap pair l).*1 = seq 0 (length l).
Proof.
  rewrite fmap_imap, <- (list_fmap_id (seq 0 (length l))), <- (imap_seq_0 l id).
  by apply imap_ext.
Qed.

(** Each goroutine's buffer holds what it writes on its own, whatever
    the order the scheduler runs them in. *)
Lemma goAll_slots ctx site tasks r outs r' :
  (∀ t, t ∈ tasks → framed t) →
  steady r →
  goAll pick ctx site tasks r = Some (outs, r') →
  outs = (λ t, bytesOf t r) <$> tasks ∧ Tracer r' = Tracer r.
Proof.
  intros Hf Hs E. unfold goAll in E.
  apply schedule_slots in E as (Hl & Ht & _ & Hin).
  - split; [|done]. rewrite length_replicate in Hl.
    apply list_eq. intros j. rewrite list_lookup_fmap.
    destruct (tasks !! j) as [t|] eqn:Ej; cbn.
    + apply Hin.
      * apply elem_of_lookup_imap. by exists j, t.
      * rewrite length_replicate. by eapply lookup_lt_Some.
    + apply lookup_ge_None. rewrite Hl. by apply lookup_ge_None.
  - intros it Hi. apply Hf. by apply elem_of_imap_pair.
  - done.
  - rewrite imap_pair_fst. apply NoDup_seq.
  - by rewrite length_imap.
Qed.

Lemma goAll_some ctx site tasks r :
  (∀ t, t ∈ tasks → framed t ∧ is_Some (t [] (clear r))) →
  steady r →
  is_Some (goAll pick ctx site tasks r).
Proof.
  intros H Hs. apply schedule_some; [|done].
  intros it Hin. apply H. by apply elem_of_imap_pair.
Qed.

End Goroutines.


Lemma quietM_ret {A} (a : A) : quietM (ret a).
Proof. done. Qed.
Lemma quietM_panic {A} v : quietM (@panic A v).
Proof. done. Qed.
Lemma quietM_bind {A B} (c : M A) (k : A → M B) :
  quietM c → (∀ a, quietM (k a)) → quietM (bind c k).
Proof.
  intros Hc Hk r. unfold bind. specialize (Hc r).
  destruct (c r) as [r1 [a|v]]; cbn in *; [|done]. by rewrite Hk.
Qed.
Lemma quietM_Method_Call v i args : quietM (Method_Call v i args).
Proof.
  intros r. unfold Method_Call. destruct v; try done. by destruct (methods i args).
Qed.
Lemma quietM_index outs i : quietM (index outs i).
Proof. unfold index. by destruct (outs !! i). Qed.
Lemma quietM_IsNil v : quietM (IsNil v).
Proof. by destruct v. Qed.
Lemma quietM_Interface_error v : quietM (Interface_error v).
Proof. by destruct v. Qed.

Lemma quietM_resolveField traceCtx f path : quietM (resolveField traceCtx f path).
Proof.
  unfold resolveField.
  destruct (IsValid _); [apply quietM_ret|].
  apply quietM_bind; [done|]. intros [err|]; [apply quietM_ret|].
  apply quietM_bind; [apply quietM_Method_Call|]. intros callOut.
  apply quietM_bind; [apply quietM_index|]. intros result.
  destruct (HasError _); [|apply quietM_ret].
  apply quietM_bind; [apply quietM_index|]. intros e.
  apply quietM_bind; [apply quietM_IsNil|]. intros []; cbn [negb].
  - apply quietM_ret.
  - apply quietM_bind; [apply quietM_Interface_error|]. intros resolverErr.
    apply quietM_ret.
Qed.

Lemma andThen_eq (a b : Exec) out r :
  (a ;; b) out r = match a out r with
                   | Some (out', r', Done) => b out' r'
                   | other => other
                   end.
Proof. reflexivity. Qed.

Lemma andThen_comma_alone i t r b d :
  framed t → steady r →
  (comma i ;; t) [] (clear r) = Some (b, d, Done) →
  b = commaBytes i ++ bytesOf t r ∧
  ∃ d', t [] (clear r) = Some (bytesOf t r, d', Done).
Proof.
  intros Hf Hs E. unfold andThen in E. rewrite comma_spec in E. cbn [app] in E.
  destruct (framed_bytes _ _ _ _ _ _ Hf (steady_clear r Hs) E) as (-> & _ & d' & Hd).
  rewrite clear_clear in Hd. rewrite (bytesOf_Tracer t (clear r) r) in * by done.
  split; [done|]. by eexists.
Qed.

Lemma range_slots rec ctx path (outs : list Buffer) fields i out r :
  rangeFrom i fields (fieldEntry rec ctx path true outs) out r
  = Some (out ++ concat (imap (λ k f, keyBytes (i + k) f ++ outs !!! (i + k)) fields),
          r, Done).
Proof.
  revert i out. induction fields as [|f l IH]; intros i out.
  - cbn. by rewrite app_nil_r.
  - cbn [rangeFrom]. unfold andThen at 1, fieldEntry at 1, andThen at 1.
    rewrite writeKey_spec. cbn [write Write].
    rewrite IH, imap_cons. cbn [concat]. rewrite Nat.add_0_r, <- !app_assoc.
    replace (imap ((λ k f0, keyBytes (i + k) f0 ++ outs !!! (i + k)) ∘ S) l)
      with (imap (λ k f0, keyBytes (S i + k) f0 ++ outs !!! (S i + k)) l).
    2:{ apply imap_ext. intros k y _. cbn. by rewrite Nat.add_succ_r. }
    unfold Write. by rewrite <- !app_assoc.
Qed.

(** *** What is written is appended, whatever the contexts do *)

Lemma appends_skip : appends skip.
Proof. intros out r. cbn. by rewrite app_nil_r. Qed.

Lemma appends_write p : appends (write (Write p)).
Proof. intros out r. reflexivity. Qed.

Lemma appends_WriteByte c : appends (write (WriteByte c)).
Proof. apply (appends_write [c]). Qed.

Lemma appends_WriteString s : appends (write (WriteString s)).
Proof. apply (appends_write (String.list_byte_of_string s)). Qed.

Lemma appends_raise v : appends (raise v).
Proof. intros out r. cbn. by rewrite app_nil_r. Qed.

Lemma appends_andThen a b : appends a → appends b → appends (a ;; b).
Proof.
  intros Ha Hb out r. unfold andThen. rewrite Ha.
  destruct (a [] r) as [[[ba ra] [|v]]|]; [|reflexivity|reflexivity].
  rewrite Hb, (Hb ba).
  destruct (b [] ra) as [[[bb rb] o]|]; [|reflexivity]. by rewrite app_assoc.
Qed.

Lemma appends_run {A} (c : M A) (k : A → Exec) : (∀ a, appends (k a)) → appends (run c k).
Proof.
  intros Hk out r. unfold run.
  destruct (c r) as [r1 [a|v]]; [apply Hk|by rewrite app_nil_r].
Qed.

Lemma appends_rangeFrom {A} (l : list A) (body : nat → A → Exec) i :
  (∀ j x, x ∈ l → appends (body j x)) → appends (rangeFrom i l body).
Proof.
  revert i. induction l as [|x l IH]; intros i H; [apply appends_skip|].
  cbn [rangeFrom]. apply appends_andThen.
  - apply H. by left.
  - apply IH. intros j y Hy. apply H. by right.
Qed.

Lemma appends_handlePanic ctx body : appends body → appends (handlePanic ctx body).
Proof.
  intros H out r. unfold handlePanic. rewrite H.
  by destruct (body [] r) as [[[b r1] [|v]]|].
Qed.

Lemma appends_comma i : appends (comma i).
Proof. unfold comma. destruct (0 <? i); [apply appends_WriteByte|apply appends_skip]. Qed.

Lemma appends_writeKey i f : appends (writeKey i f).
Proof.
  unfold writeKey.
  repeat (apply appends_andThen;
          [first [apply appends_comma|apply appends_WriteByte|apply appends_WriteString]|]).
  apply appends_WriteByte.
Qed.

Lemma appends_execFieldSelection (rec : ExecSelectionSet) ctx f path applyLimiter :
  (∀ traceCtx v, appends (rec traceCtx (sels f) (Type_ (Field_ (field f))) path v)) →
  appends (execFieldSelection rec ctx f path applyLimiter).
Proof.
  intros Hrec out r. unfold execFieldSelection.
  destruct (recoverField _ _ _) as [r2 [result [err|]]]; [reflexivity|].
  rewrite Hrec.
  match goal with |- context [rec ?c ?s ?t ?p ?v [] ?r] =>
    destruct (rec c s t p v [] r) as [[[b r3] o]|] end; reflexivity.
Qed.

Lemma handlePanic_Done ctx body out r b r1 o :
  handlePanic ctx body out r = Some (b, r1, o) → o = Done.
Proof.
  unfold handlePanic. destruct (body out r) as [[[b' r'] [|v]]|]; by inversion 1.
Qed.

Lemma rounds_index {A} (body : A → Exec) (l : list A) i j r :
  rounds (λ _, body) i l r = rounds (λ _, body) j l r.
Proof.
  revert i j r. induction l as [|x l IH]; intros i j r; [reflexivity|].
  cbn [rounds]. destruct (body x [] r) as [[[b r1] [|v]]|]; [|reflexivity|reflexivity].
  by rewrite (IH (S i) (S j)).
Qed.

(** A loop that ends without a panic wrote what its rounds write. *)
Lemma rangeFrom_rounds {A} (l : list A) (body : nat → A → Exec) i out r out' r' :
  (∀ j x, appends (body j x)) →
  rangeFrom i l body out r = Some (out', r', Done) →
  ∃ bs, rounds body i l r = Some (bs, r') ∧ out' = out ++ concat bs.
Proof.
  intros Hb. revert i out r. induction l as [|x l IH]; intros i out r E.
  - cbn in E. inversion E; subst. exists []. cbn. by rewrite app_nil_r.
  - cbn [rangeFrom] in E. unfold andThen in E. rewrite Hb in E.
    cbn [rounds].
    destruct (body i x [] r) as [[[b r1] [|v]]|]; [|done|done].
    destruct (IH _ _ _ E) as (bs & -> & ->).
    exists (b :: bs). cbn. by rewrite app_assoc.
Qed.

Lemma rounds_fieldEntry rec ctx path outs fields i r bs r' :
  (∀ f, appends (execFieldSelection rec ctx f (fieldPath path f) false)) →
  rounds (fieldEntry rec ctx path false outs) i fields r = Some (bs, r') →
  ∃ entries,
    rounds (λ _ f, execFieldSelection rec ctx f (fieldPath path f) false) i fields r
      = Some (entries, r') ∧
    length entries = length fields ∧
    bs = imap (λ k f, keyBytes (i + k) f ++ entries !!! k) fields.
Proof.
  intros Hf. revert i r bs. induction fields as [|f l IH]; intros i r bs E.
  - cbn in E. inversion E; subst. by exists [].
  - cbn [rounds] in E |- *. unfold fieldEntry at 1, andThen at 1 in E.
    rewrite writeKey_spec, Hf in E. cbn [app] in E.
    destruct (execFieldSelection rec ctx f (fieldPath path f) false [] r)
      as [[[b r1] [|v]]|]; [|done|done].
    destruct (rounds (fieldEntry rec ctx path false outs) (S i) l r1)
      as [[bs' r2]|] eqn:E'; [|done].
    inversion E; subst. destruct (IH _ _ _ E') as (entries & -> & Hl & ->).
    exists (b :: entries). split; [done|]. split; [cbn; by rewrite Hl|].
    rewrite imap_cons, Nat.add_0_r. f_equal.
    apply imap_ext. intros k y _. cbn. by rewrite Nat.add_succ_r.
Qed.

Section Appending.

Context (pick : list PathElem → nat → nat).

Lemma schedule_ran n ctx site (pending : list (nat * Exec)) outs r outs' r' :
  NoDup pending.*1 →
  n = length pending →
  schedule pick n ctx site pending outs r = Some (outs', r') →
  ∃ order bs,
    order ≡ₚ pending ∧
    rounds (λ _ it, handlePanic ctx it.2) 0 order r = Some (bs, r') ∧
    length outs' = length outs ∧
    (∀ j, j ∉ pending.*1 → outs' !! j = outs !! j) ∧
    (∀ k it, order !! k = Some it → it.1 < length outs → outs' !! it.1 = bs !! k).
Proof.
  revert pending outs r. induction n as [|n IH]; intros pending outs r Hnd Hn E.
  - destruct pending; [|done]. cbn in E. inversion E; subst.
    exists [], []. repeat split; done.
  - cbn [schedule] in E.
    destruct (extract _ pending) as [[[i task] pending']|] eqn:Ex.
    2:{ exfalso. eapply (extract_None _ pending); [|exact Ex].
        apply Nat.mod_upper_bound. lia. }
    pose proof (extract_elem _ _ _ _ Ex) as Hp.
    assert (Hp1 : pending.*1 ≡ₚ i :: pending'.*1) by (by rewrite Hp).
    rewrite Hp1 in Hnd. apply NoDup_cons in Hnd as [Hi Hnd'].
    destruct (handlePanic ctx task [] r) as [[[b r1] o]|] eqn:Eh; [|done].
    pose proof (handlePanic_Done _ _ _ _ _ _ _ Eh) as ->.
    assert (Hlen : n = length pending').
    { apply Permutation_length in Hp. cbn in Hp. lia. }
    destruct (IH _ _ _ Hnd' Hlen E) as (order & bs & Ho & Hr & Hl & Hout & Hin).
    rewrite length_insert in Hl.
    exists ((i, task) :: order), (b :: bs).
    split; [by rewrite Hp, Ho|]. split.
    { cbn [rounds snd]. rewrite Eh.
      rewrite (rounds_index (λ it, handlePanic ctx it.2) order 1 0), Hr. done. }
    split; [done|]. split.
    + intros j Hj. rewrite Hp1 in Hj. apply not_elem_of_cons in Hj as [Hji Hj].
      rewrite (Hout j Hj). by rewrite list_lookup_insert_ne.
    + intros [|k] it Hk Hlt.
      * inversion Hk; subst. cbn. rewrite (Hout i Hi).
        by rewrite list_lookup_insert_eq.
      * cbn in Hk |- *. apply Hin; [done|]. by rewrite length_insert.
Qed.

(** The goroutines run in some order, each into its own buffer. *)
Lemma goAll_ran ctx site tasks r outs r' :
  goAll pick ctx site tasks r = Some (outs, r') → ranConcurrently ctx tasks r outs r'.
Proof.
  intros E. unfold goAll in E.
  apply schedule_ran in E as (order & bs & Ho & Hr & Hl & _ & Hin).
  - exists order, bs. split; [done|]. split; [done|].
    rewrite length_replicate in Hl. split; [done|].
    intros k it Hk. apply Hin; [done|]. rewrite length_replicate.
    assert (it ∈ imap pair tasks) as Hit.
    { rewrite <- Ho. by eapply list_elem_of_lookup_2. }
    apply elem_of_lookup_imap_1 in Hit as (j & x & -> & Hx).
    cbn. by eapply lookup_lt_Some.
  - rewrite imap_pair_fst. apply NoDup_seq.
  - by rewrite length_imap.
Qed.

Lemma appends_spawn ctx site tasks (k : list Buffer → Exec) :
  (∀ outs, appends (k outs)) →
  appends (λ out r,
    match goAll pick ctx site tasks r with
    | None => None
    | Some (outs, r) => k outs out r
    end).
Proof.
  intros Hk out r. destruct (goAll pick ctx site tasks r) as [[outs r1]|]; [apply Hk|done].
Qed.

Lemma appends_execFields rec ctx path async outs fields :
  appendsRec rec → appends (execFields rec ctx path async outs fields).
Proof.
  intros Hrec. unfold execFields.
  apply appends_andThen; [apply appends_WriteByte|].
  apply appends_andThen; [|apply appends_WriteByte].
  apply appends_rangeFrom. intros i f _. unfold fieldEntry.
  apply appends_andThen; [apply appends_writeKey|].
  destruct async; [apply appends_write|].
  apply appends_execFieldSelection. intros traceCtx v. apply Hrec.
Qed.

Lemma appends_execSelections MetaFieldTypename rec ctx sels path resolver serially :
  appendsRec rec →
  appends (execSelections MetaFieldTypename pick rec ctx sels path resolver serially).
Proof.
  intros Hrec. unfold execSelections.
  apply appends_run. intros [fields fieldByAlias].
  destruct (negb serially && HasAsyncSel sels).
  - apply (appends_spawn ctx (toSlice path) _
             (λ outs, execFields rec ctx path true outs fields)).
    intros outs. by apply appends_execFields.
  - by apply appends_execFields.
Qed.

Lemma appends_listConcurrently execElem ctx path l :
  appends (listConcurrently pick execElem ctx path l).
Proof.
  unfold listConcurrently.
  apply (appends_spawn ctx (toSlice path) _
           (λ entryouts, write (WriteByte "["%byte) ;;
              range entryouts (λ i entryout, comma i ;; write (Write entryout)) ;;
              write (WriteByte "]"%byte))).
  intros outs.
  apply appends_andThen; [apply appends_WriteByte|].
  apply appends_andThen; [|apply appends_WriteByte].
  apply appends_rangeFrom. intros i b _.
  apply appends_andThen; [apply appends_comma|apply appends_write].
Qed.

Lemma appends_listSequentially execElem l :
  (∀ i, appends (execElem i)) → appends (listSequentially execElem l).
Proof.
  intros H. unfold listSequentially.
  apply appends_andThen; [apply appends_WriteByte|].
  apply appends_andThen; [|apply appends_WriteByte].
  apply appends_rangeFrom. intros i b _.
  apply appends_andThen; [apply appends_comma|apply H].
Qed.

Lemma appends_execSelectionSet MetaFieldTypename json_Marshal typeString Sprint n :
  appendsRec (execSelectionSet MetaFieldTypename pick json_Marshal typeString Sprint n).
Proof.
  induction n as [|n IH]; intros ctx sels typ path v; [done|].
  cbn [execSelectionSet].
  set (rec := execSelectionSet MetaFieldTypename pick json_Marshal typeString Sprint n)
    in *.
  destruct (unwrapNonNull typ) as [t nonNull].
  assert (Hlist : ∀ OfType v,
    appends (run (Len v) (λ l,
      let execElem := listElem rec ctx sels OfType path v in
      if HasAsyncSel sels then listConcurrently pick execElem ctx path l
      else listSequentially execElem l))).
  { intros OfType v'. apply appends_run. intros l.
    assert (∀ i, appends (listElem rec ctx sels OfType path v' i)).
    { intros i. apply appends_run. intros e. apply IH. }
    destruct (HasAsyncSel sels);
      [apply appends_listConcurrently|by apply appends_listSequentially]. }
  assert (Hscalar : ∀ v, appends (
     if IsValid v then
       match json_Marshal v with
       | Some data => write (Write data)
       | None => raise (PanicQueryError ("could not marshal " +:+ Sprint v))
       end
     else raise (PanicString "reflect: call of reflect.Value.Interface on zero Value"))).
  { intros v'. destruct (IsValid v'); [|apply appends_raise].
    destruct (json_Marshal v'); [apply appends_write|apply appends_raise]. }
  assert (Henum : ∀ v, appends (
     write (WriteByte x22) ;;
     write (WriteString (Value_String typeString v)) ;;
     write (WriteByte x22))).
  { intros v'. repeat (apply appends_andThen;
      [first [apply appends_WriteByte|apply appends_WriteString]|]).
    apply appends_WriteByte. }
  assert (Hobj : appends (
     run (if Kind_eqb (Value_Kind v) Ptr then IsNil v else ret false) (λ isNil,
       if isNil : bool then
         if nonNull
         then raise (PanicQueryError ("got nil for non-null " +:+ quoted (Ty_String t)))
         else write (WriteString "null")
       else execSelections MetaFieldTypename pick rec ctx sels path v false))).
  { apply appends_run. intros [].
    - destruct nonNull; [apply appends_raise|apply appends_WriteString].
    - by apply appends_execSelections. }
  destruct t; try exact Hobj;
    (destruct nonNull;
     [|apply appends_run; intros [];
       [apply appends_WriteString|apply appends_run; intros v']]);
    first [apply Hlist|apply Hscalar|apply Henum|apply appends_raise].
Qed.

End Appending.

(** *** The closure of a field sees the time only *)

Lemma timedM_ret {A} (a : A) : timedM (ret a).
Proof. by intros r1 r2 H. Qed.
Lemma timedM_panic {A} v : timedM (@panic A v).
Proof. by intros r1 r2 H. Qed.
Lemma timedM_bind {A B} (c : M A) (k : A → M B) :
  timedM c → (∀ a, timedM (k a)) → timedM (bind c k).
Proof.
  intros Hc Hk r1 r2 H. unfold bind. destruct (Hc r1 r2 H) as [H1 H2].
  destruct (c r1) as [r1' [a|v]], (c r2) as [r2' [a'|v']]; cbn in *; try done.
  - inversion H1; subst. by apply Hk.
  - by inversion H1.
Qed.
Lemma timedM_Method_Call v i args : timedM (Method_Call v i args).
Proof.
  intros r1 r2 H. unfold Method_Call.
  destruct v; try (cbn; by rewrite H). destruct (methods i args); cbn; by rewrite H.
Qed.
Lemma timedM_Context_Err ctx : timedM (Context_Err ctx).
Proof. intros r1 r2 H. unfold Context_Err. cbn. by rewrite H. Qed.
Lemma timedM_index outs i : timedM (index outs i).
Proof. unfold index. destruct (outs !! i); [apply timedM_ret|apply timedM_panic]. Qed.
Lemma timedM_IsNil v : timedM (IsNil v).
Proof. destruct v; first [apply timedM_ret|apply timedM_panic]. Qed.
Lemma timedM_Interface_error v : timedM (Interface_error v).
Proof. destruct v; first [apply timedM_ret|apply timedM_panic]. Qed.

Lemma timedM_resolveField traceCtx f path : timedM (resolveField traceCtx f path).
Proof.
  unfold resolveField.
  destruct (IsValid _); [apply timedM_ret|].
  apply timedM_bind; [apply timedM_Context_Err|]. intros [err|]; [apply timedM_ret|].
  apply timedM_bind; [apply timedM_Method_Call|]. intros callOut.
  apply timedM_bind; [apply timedM_index|]. intros result.
  destruct (HasError _); [|apply timedM_ret].
  apply timedM_bind; [apply timedM_index|]. intros e.
  apply timedM_bind; [apply timedM_IsNil|]. intros []; cbn [negb].
  - apply timedM_ret.
  - apply timedM_bind; [apply timedM_Interface_error|]. intros resolverErr.
    apply timedM_ret.
Qed.

Section Claims.

Context (MetaFieldTypename : Field) (pick : list PathElem → nat → nat)
  (json_Marshal : Value → option (list byte)) (typeString Sprint : Value → string)
  (ApplyOperation : Schema → Operation → M (list Selection)).

Local Abbreviation collectFieldsToResolve := (collectFieldsToResolve MetaFieldTypename).
Local Abbreviation execSelectionSet :=
  (execSelectionSet MetaFieldTypename pick json_Marshal typeString Sprint).
Local Abbreviation execSelections := (execSelections MetaFieldTypename pick).
Local Abbreviation Execute :=
  (Execute MetaFieldTypename pick json_Marshal typeString Sprint ApplyOperation).
Local Abbreviation need := (need MetaFieldTypename).

(** C2. The walk of [Execute] always ends, under its [handlePanic],
    when the recursion bound [n] covers the selections.  When the
    context is cancelled at the time the walk has ended, [Execute]
    returns no bytes and exactly one QueryError, with the text of the
    cancellation cause as message and the cause attached, whatever the
    walk wrote and recorded. *)
Theorem cancelled_execute_one_error n ctx s op r :
  let walk :=
    handlePanic ctx (run (ApplyOperation s op) (λ sels,
      execSelections (execSelectionSet n) ctx sels None (Resolver s)
                     (isMutation (opType op)))) in
  (∀ r' sels, ApplyOperation s op r = (r', Ok sels) → need sels ≤ n) →
  ∃ out r',
    walk [] r = Some (out, r', Done) ∧
    ∀ cause, Err ctx (Clock r') = Some cause →
      Execute n ctx s op r
      = Some ([], [{| Message := Error cause; Path := [];
                      OriginalError := Some cause; PanicValue := None |}]).
Proof.
  intros walk Hn.
  destruct (Execute_total MetaFieldTypename pick json_Marshal typeString Sprint
              ApplyOperation n ctx s op r Hn) as [res Hres].
  unfold Execute in *. fold walk in Hres |- *.
  destruct (walk [] r) as [[[out r1] o]|] eqn:E; [|done].
  pose proof (handlePanic_Done _ _ _ _ _ _ _ E) as ->.
  exists out, r1. split; [done|]. intros cause Hc. by rewrite Hc.
Qed.

(** C4, amended. A list serialized with an asynchronous selection, one
    goroutine for each element, in whatever order the scheduler runs
    them, while no context changes: when the sequential loop over the
    same elements ends without a panic, the concurrent branch ends too
    and writes the same bytes, one entry for each element in index order
    between [[] and []], each entry being what the element's
    serialization writes on its own. *)
Theorem list_concurrent_same_bytes n ctx sels OfType path elems out r out' r' :
  let execElem := listElem (execSelectionSet n) ctx sels OfType path (VSlice elems) in
  let entries := (λ i, bytesOf (execElem i) r) <$> seq 0 (length elems) in
  stable ctx →
  steady r →
  HasAsyncSel sels = true →
  listSequentially execElem (length elems) out r = Some (out', r', Done) →
  (∃ r'', execSelectionSet (S n) ctx sels (NonNull (List OfType)) path (VSlice elems)
            out r = Some (out', r'', Done)) ∧
  length entries = length elems ∧
  out' = out ++ ["["%byte] ++ joined entries ++ ["]"%byte] ∧
  ∀ i, i < length elems →
    ∃ d, execElem i [] (clear r) = Some (bytesOf (execElem i) r, d, Done).
Proof.
  intros execElem entries Hctx Hst Ha Hs.
  assert (Hf : ∀ i, framed (execElem i)).
  { intros i. apply framed_run; [apply framedM_Index|]. intros e.
    by apply framed_execSelectionSet. }
  unfold listSequentially, range in Hs. rewrite andThen_eq in Hs.
  cbn [write] in Hs. unfold WriteByte in Hs. rewrite andThen_eq in Hs.
  destruct (rangeFrom 0 (seq 0 (length elems)) _ (out ++ ["["%byte]) r)
    as [[[out2 r2] [|v]]|] eqn:E; [|done|done].
  cbn [write] in Hs. unfold WriteByte in Hs. inversion Hs; subst out' r'. clear Hs.
  apply rangeFrom_Done in E as (-> & Ht & Hall); [| |done].
  2:{ intros j x. apply framed_andThen; [apply framed_comma|apply Hf]. }
  assert (Hel : ∀ i, i < length elems →
     bytesOf (comma i ;; execElem i) r = commaBytes i ++ bytesOf (execElem i) r ∧
     ∃ d, execElem i [] (clear r) = Some (bytesOf (execElem i) r, d, Done)).
  { intros i Hi. destruct (Hall i i) as (d & Hd).
    { by rewrite lookup_seq_lt. }
    cbn in Hd. by apply andThen_comma_alone in Hd. }
  assert (Hj : concat (imap (λ k x, bytesOf (comma x ;; execElem x) r)
                         (seq 0 (length elems))) = joined entries).
  { unfold joined, entries. rewrite imap_fmap. f_equal. apply imap_ext.
    intros k x Hk. apply lookup_seq in Hk as [-> Hk]. cbn.
    by destruct (Hel k Hk) as [-> _]. }
  split; [|split; [|split]].
  - cbn [execSelectionSet unwrapNonNull]. unfold run at 1. cbn [Len ret].
    rewrite Ha. fold execElem. unfold listConcurrently.
    destruct (goAll_some pick ctx (toSlice path) (execElem <$> seq 0 (length elems)) r)
      as [[entryouts r3] Hg]; [|done|].
    { intros t Hin. apply list_elem_of_fmap in Hin as (i & -> & Hi).
      split; [apply Hf|]. apply elem_of_seq in Hi as [_ Hi].
      destruct (Hel i Hi) as (_ & d & ->). by eexists. }
    change (map execElem (seq 0 (length elems))) with (execElem <$> seq 0 (length elems)).
    rewrite Hg.
    apply goAll_slots in Hg as [-> _]; [| |done].
    2:{ intros t Hin. apply list_elem_of_fmap in Hin as (i & -> & _). apply Hf. }
    rewrite <- list_fmap_compose. fold entries.
    unfold range. rewrite andThen_eq. cbn [write]. unfold WriteByte.
    rewrite andThen_eq, range_writes. cbn [write].
    eexists. rewrite Hj. unfold joined. cbn [Nat.add]. reflexivity.
  - unfold entries. by rewrite length_fmap, length_seq.
  - rewrite Hj. by rewrite <- !app_assoc.
  - intros i Hi. by destruct (Hel i Hi) as [_ ?].
Qed.

(** C6, amended. A panic in the closure that invokes a field's resolver
    is caught at that field: one QueryError with the payload and the
    field's path is appended, the field's buffer gets [null], and the
    serial loop goes on with the next field.  A panic that leaves a
    goroutine's body or the walk is caught by [handlePanic], which
    appends one QueryError without path and keeps the bytes written so
    far; goroutines started together run to the end in some order, each
    under its [handlePanic] and into its own buffer. *)
Theorem resolver_panic_isolated (rec : ExecSelectionSet) ctx parent f r v :
  let path := fieldPath parent f in
  let traceCtx := traceCtxOf r ctx f in
  let err := set_Path (panicError v) (toSlice parent ++ [PathAlias (Alias (field f))]) in
  (resolveField traceCtx f path r).2 = Panic v →
  (∀ applyLimiter out, ∃ r',
     execFieldSelection rec ctx f path applyLimiter out r
       = Some (out ++ nullBytes, r', Done) ∧
     Errs r' = Errs r ++ [err]) ∧
  (∀ i rest outs0 out, ∃ r',
     rangeFrom i (f :: rest) (fieldEntry rec ctx parent false outs0) out r
       = rangeFrom (S i) rest (fieldEntry rec ctx parent false outs0)
           (out ++ keyBytes i f ++ nullBytes) r' ∧
     Errs r' = Errs r ++ [err]) ∧
  (∀ (body : Exec) out0 r0 out1 r1 w,
     body out0 r0 = Some (out1, r1, Panicked w) →
     handlePanic ctx body out0 r0
       = Some (out1, AddError (panicError w) (emit (LogPanic w) r1), Done)) ∧
  (∀ site tasks r0 outs r1,
     goAll pick ctx site tasks r0 = Some (outs, r1) →
     ranConcurrently ctx tasks r0 outs r1).
Proof.
  intros path traceCtx err Hp.
  assert (Hfield : ∀ applyLimiter out, ∃ r',
     execFieldSelection rec ctx f path applyLimiter out r
       = Some (out ++ nullBytes, r', Done) ∧
     Errs r' = Errs r ++ [err]).
  { intros applyLimiter out. unfold execFieldSelection.
    set (r0 := if applyLimiter then emit LimiterAcquire r else r).
    assert (Ht : Tracer r0 = Tracer r) by (unfold r0; by destruct applyLimiter).
    assert (He : Errs r0 = Errs r) by (unfold r0; by destruct applyLimiter).
    assert (Hc : Clock (emit (spanOf f) r0) = Clock r)
      by (unfold r0; by destruct applyLimiter).
    rewrite Ht. fold (traceCtxOf r ctx f). fold traceCtx. fold (spanOf f).
    unfold recoverField.
    destruct (timedM_resolveField traceCtx f path _ _ Hc) as [Hres _].
    pose proof (quietM_resolveField traceCtx f path (emit (spanOf f) r0)) as Hq.
    rewrite Hp in Hres.
    destruct (resolveField traceCtx f path (emit (spanOf f) r0)) as [r2 res].
    cbn [fst snd] in Hres, Hq. subst res.
    eexists. split; [reflexivity|].
    destruct applyLimiter; cbn [Errs emit AddError] in *; by rewrite Hq, He. }
  split; [exact Hfield|]. split; [|split].
  - intros i rest outs0 out.
    destruct (Hfield false (out ++ keyBytes i f)) as (r' & Hx & He).
    exists r'. split; [|exact He].
    cbn [rangeFrom]. unfold andThen at 1, fieldEntry at 1, andThen at 1.
    rewrite writeKey_spec. fold path. rewrite Hx. rewrite <- app_assoc. reflexivity.
  - intros body out0 r0 out1 r1 w Hb. unfold handlePanic. by rewrite Hb.
  - intros site tasks r0 outs r1 Hg. by eapply goAll_ran.
Qed.

(** C10, amended. When [execSelections] ends without a panic, what it
    appended is [{], the entries of the merged fields in order, each the
    quoted alias, a colon and the bytes of the field, with a comma
    between two entries, and [}].  The bytes of a field are what its
    execution wrote into an empty buffer: in its goroutine when the
    selection set is executed concurrently, and else after the field
    before it.  A selection set that merges to no field always ends
    without a panic and appends [{}]. *)
Theorem object_in_braces n ctx sels path resolver serially out r :
  let async := negb serially && HasAsyncSel sels in
  let rec := execSelectionSet n in
  (∀ out' r',
     execSelections rec ctx sels path resolver serially out r = Some (out', r', Done) →
     ∃ r1 fields m entries,
       collectFieldsToResolve sels resolver [] ∅ r = (r1, Ok (fields, m)) ∧
       length entries = length fields ∧
       out' = out ++ ["{"%byte]
                  ++ concat (imap (λ i f, keyBytes i f ++ entries !!! i) fields)
                  ++ ["}"%byte] ∧
       if async
       then ranConcurrently ctx
              ((λ f, execFieldSelection rec ctx f (fieldPath path f) true) <$> fields)
              r1 entries r'
       else rounds (λ _ f, execFieldSelection rec ctx f (fieldPath path f) false)
              0 fields r1 = Some (entries, r')) ∧
  (∀ r1 m,
     collectFieldsToResolve sels resolver [] ∅ r = (r1, Ok ([], m)) →
     execSelections rec ctx sels path resolver serially out r
       = Some (out ++ ["{"%byte; "}"%byte], r1, Done)).
Proof.
  intros async rec.
  assert (Hrec : appendsRec rec) by apply appends_execSelectionSet.
  assert (Hfs : ∀ f b, appends (execFieldSelection rec ctx f (fieldPath path f) b)).
  { intros f b. apply appends_execFieldSelection. intros traceCtx v. apply Hrec. }
  split.
  - intros out' r' E. unfold execSelections, run in E.
    destruct (collectFieldsToResolve sels resolver [] ∅ r) as [r1 [[fields m]|v]] eqn:Ec;
      [|done].
    exists r1, fields, m.
    fold async in E |- *. destruct async.
    + change (map ?g fields) with (g <$> fields) in E.
      destruct (goAll pick ctx (toSlice path) _ r1) as [[outs r2]|] eqn:Eg; [|done].
      apply goAll_ran in Eg.
      unfold execFields in E. rewrite andThen_eq in E. cbn [write] in E.
      unfold WriteByte in E. unfold range in E.
      rewrite andThen_eq, range_slots in E. cbn [write] in E.
      injection E as <- <-.
      exists outs. split; [done|].
      split; [destruct Eg as (_ & _ & _ & _ & Hl & _); by rewrite Hl, length_fmap|].
      split; [|done]. by rewrite <- !app_assoc.
    + unfold execFields in E. rewrite andThen_eq in E. cbn [write] in E.
      unfold WriteByte in E. unfold range in E. rewrite andThen_eq in E.
      destruct (rangeFrom 0 fields _ (out ++ ["{"%byte]) r1)
        as [[[out2 r2] [|v]]|] eqn:Er; [|done|done].
      cbn [write] in E. injection E as <- <-.
      apply rangeFrom_rounds in Er as (bs & Hr & ->).
      2:{ intros j x. unfold fieldEntry.
          apply appends_andThen; [apply appends_writeKey|apply Hfs]. }
      apply rounds_fieldEntry in Hr as (entries & Hr & Hl & ->); [|intros f; apply Hfs].
      exists entries. split; [done|]. split; [done|]. split; [|done].
      by rewrite <- !app_assoc.
  - intros r1 m Ec. unfold execSelections, run. rewrite Ec.
    destruct (negb serially && HasAsyncSel sels); cbn;
      unfold execFields, range, andThen, write, WriteByte; cbn;
      by rewrite <- app_assoc.
Qed.

End Claims.


(** * More properties of the code *)

(** ** Paths *)

(** X1. A path lists its segments from the root down: descending from
    [path] through the segments [vs], one [pathSegment] for each, gives
    the slice of [path] followed by [vs]. *)
Theorem toSlice_descend path vs :
  toSlice (foldl subPath path vs) = toSlice path ++ vs.
Proof.
  revert path. induction vs as [|v vs IH]; intros path; cbn [foldl].
  - by rewrite app_nil_r.
  - rewrite IH. destruct path; cbn; by rewrite <- ?app_assoc.
Qed.

(** ** The selected fields a resolver is told *)

(** X2. [selectionToSelectedFields] reports the schema fields of a
    selection list, by name and in order, and nothing for a typename
    selection or a type assertion: the fields selected below a type
    assertion are not reported.  It distributes over the [append] by
    which the merge accumulates the selections of an alias. *)
Theorem selected_fields_are_schema_fields sels1 sels2 :
  SelectedField_Name <$> selectionToSelectedFields sels1 = omap reportedName sels1 ∧
  selectionToSelectedFields (sels1 ++ sels2)
  = selectionToSelectedFields sels1 ++ selectionToSelectedFields sels2.
Proof.
  split.
  - induction sels1 as [|[selField Sels|tf|methodIndex Sels] l IH]; [done|..];
      cbn; by rewrite <- IH.
  - unfold selectionToSelectedFields. by rewrite flat_map_app.
Qed.

(** ** [typeOf] *)

Lemma calls_app l1 l2 r : calls (l1 ++ l2) r = calls l2 (calls l1 r).
Proof. unfold calls. by rewrite foldl_app. Qed.

Lemma typeOf_range_skip methods pre rest r :
  (∀ n m, (n, m) ∈ pre →
     ∃ outs, methods m [] = Returns outs ∧ outs !! 1 = Some (VBool false)) →
  typeOf_range (pre ++ rest) (VResolver methods) r
  = typeOf_range rest (VResolver methods) (calls pre r).
Proof.
  revert r. induction pre as [|[n m] pre IH]; intros r H; [done|].
  destruct (H n m) as (outs & Hc & Ho); [left|].
  cbn [app typeOf_range]. unfold bind at 1, Method_Call. rewrite Hc.
  unfold bind at 1, index. rewrite Ho. cbn [Value_Bool ret bind].
  rewrite IH; [done|]. intros n' m' Hin. apply (H n' m'). by right.
Qed.

(** X3. [typeOf] tries the narrowing predicates in the order of the
    range and stops at the first that holds: when the predicates before
    it return false, the result is its name, and the predicates after it
    are not called.  When that predicate panics instead, [typeOf] panics
    with its payload. *)
Theorem typeOf_first_match tf methods pre name methodIndex post r :
  TypeAssertions tf = pre ++ (name, methodIndex) :: post →
  (∀ n m, (n, m) ∈ pre →
     ∃ outs, methods m [] = Returns outs ∧ outs !! 1 = Some (VBool false)) →
  (∀ outs, methods methodIndex [] = Returns outs → outs !! 1 = Some (VBool true) →
     typeOf tf (VResolver methods) r
     = (calls (pre ++ [(name, methodIndex)]) r, Ok name)) ∧
  (∀ v, methods methodIndex [] = Panics v →
     typeOf tf (VResolver methods) r
     = (calls (pre ++ [(name, methodIndex)]) r, Panic v)).
Proof.
  intros Heq Hpre.
  assert (Ht : typeOf tf (VResolver methods) r
    = typeOf_range ((name, methodIndex) :: post) (VResolver methods) (calls pre r)).
  { unfold typeOf. rewrite Heq, length_app. cbn [length].
    replace (length pre + S (length post) =? 0) with false
      by (symmetry; apply Nat.eqb_neq; lia).
    by apply typeOf_range_skip. }
  rewrite Ht, calls_app. split.
  - intros outs Hc Ho. cbn [typeOf_range]. unfold bind at 1, Method_Call. rewrite Hc.
    unfold bind at 1, index. rewrite Ho. reflexivity.
  - intros v Hc. cbn [typeOf_range]. unfold bind at 1, Method_Call. rewrite Hc.
    reflexivity.
Qed.

Lemma isField_fieldAliases a occs :
  existsb (isField a) occs = true ↔ a ∈ fieldAliases occs.
Proof.
  induction occs as [|[sel Sels res|al name res] occs IH]; cbn.
  - split; [done|]. by intros ?%elem_of_nil.
  - unfold fieldAliases. cbn. fold (fieldAliases occs).
    rewrite orb_true_iff, elem_of_cons, IH, bool_decide_eq_true.
    split; (intros [?|?]; [by left|by right]).
  - exact IH.
Qed.

Lemma entryIdx_unseen b after a :
  existsb (isField a) after = false → entryIdx b after a = None.
Proof.
  revert b. induction after as [|o rest IH]; intros b H; [done|].
  cbn [existsb] in H. apply orb_false_iff in H as [Ho Hr].
  destruct o as [sel Sels res|al name res]; cbn [entryIdx isField] in *.
  - rewrite Ho. destruct (existsb _ b); by rewrite IH.
  - by rewrite IH.
Qed.

Section More.

Context (MetaFieldTypename : Field) (pick : list PathElem → nat → nat)
  (json_Marshal : Value → option (list byte)) (typeString Sprint : Value → string)
  (ApplyOperation : Schema → Operation → M (list Selection)).

Local Abbreviation collectFieldsToResolve := (collectFieldsToResolve MetaFieldTypename).
Local Abbreviation execSelectionSet :=
  (execSelectionSet MetaFieldTypename pick json_Marshal typeString Sprint).
Local Abbreviation execSelections := (execSelections MetaFieldTypename pick).
Local Abbreviation mergeOcc := (mergeOcc MetaFieldTypename).
Local Abbreviation merged := (merged MetaFieldTypename).
Local Abbreviation mergedFrom := (mergedFrom MetaFieldTypename).

(** ** Values that are nil *)

(** X4. Under a type that is not non-null, a nil value is written as
    [null]: nothing else is written, nothing is recorded, and no
    selection is looked at.  For an object, interface or union the value
    has to be a pointer. *)
Theorem nullable_nil_is_null n ctx sels t path v out r :
  (∀ t', t ≠ NonNull t') →
  IsNil v = ret true →
  (isComposite t = true → Value_Kind v = Ptr) →
  execSelectionSet (S n) ctx sels t path v out r = Some (out ++ nullBytes, r, Done).
Proof.
  intros Ht Hnil Hptr. cbn [execSelectionSet].
  destruct t; try (by destruct (Ht t));
    cbn [unwrapNonNull]; try rewrite (Hptr eq_refl); cbn [Kind_eqb];
    rewrite Hnil; reflexivity.
Qed.

(** X5. Under a scalar, enum or list type that is not non-null, the
    value has to be one that can be nil: for a value on which
    [reflect.Value.IsNil] panics, such as a plain integer or string,
    the serializer panics before it writes anything. *)
Theorem nullable_leaf_needs_nillable n ctx sels t path v p out r :
  (∀ t', t ≠ NonNull t') →
  isComposite t = false →
  IsNil v = panic p →
  execSelectionSet (S n) ctx sels t path v out r = Some (out, r, Panicked p).
Proof.
  intros Ht Hc Hnil. cbn [execSelectionSet].
  destruct t; try (by destruct (Ht t)); try discriminate Hc;
    cbn [unwrapNonNull]; rewrite Hnil; reflexivity.
Qed.

(** ** The merge table *)

Lemma entryIdx_lookup b after a i :
  entryIdx b after a = Some i →
  ∃ f, mergedFrom b after !! i = Some f ∧ Alias (field f) = a ∧
       sels f = nested a after ∧ existsb (isField a) b = false.
Proof.
  revert b i. induction after as [|o rest IH]; intros b i H; [done|].
  destruct o as [sel Sels res|al name res]; cbn [entryIdx mergedFrom] in *.
  - destruct (existsb (isField (Alias sel)) b) eqn:E.
    + destruct (IH _ _ H) as (f & Hf & Ha & Hs & Hb).
      rewrite existsb_app in Hb. apply orb_false_iff in Hb as [Hb Ho].
      cbn in Ho. rewrite orb_false_r in Ho.
      exists f. split; [done|]. split; [done|]. split; [|done].
      unfold nested in *. cbn [flat_map]. by rewrite Ho.
    + case_bool_decide as Hal.
      * inversion H; subst. eexists. split; [reflexivity|]. split; [done|].
        split; [|done]. cbn. unfold nested. cbn [flat_map].
        by rewrite bool_decide_eq_true_2.
      * destruct (entryIdx _ rest a) as [j|] eqn:Ej; [|done].
        inversion H; subst. destruct (IH _ _ Ej) as (f & Hf & Ha & Hs & Hb).
        rewrite existsb_app in Hb. apply orb_false_iff in Hb as [Hb _].
        exists f. split; [done|]. split; [done|]. split; [|done].
        unfold nested in *. cbn [flat_map]. by rewrite bool_decide_eq_false_2.
  - destruct (entryIdx _ rest a) as [j|] eqn:Ej; [|done].
    inversion H; subst. destruct (IH _ _ Ej) as (f & Hf & Ha & Hs & Hb).
    rewrite existsb_app in Hb. apply orb_false_iff in Hb as [Hb _].
    exists f. split; [done|]. split; [done|]. split; [|done]. done.
Qed.

Lemma merge_result sels resolver r r' fields m :
  collectFieldsToResolve sels resolver [] ∅ r = (r', Ok (fields, m)) →
  ∃ occs, occurrences sels resolver r = (r', Ok occs) ∧
          foldl mergeOcc ([], ∅) occs = (fields, m).
Proof.
  intros H. rewrite collect_occurrences in H.
  destruct (occurrences sels resolver r) as [r1 [occs|v]] eqn:E;
    [|done].
  cbn in H. inversion H; subst. by exists occs.
Qed.

(** X6. After the merge of a selection list, [fieldByAlias] holds
    exactly the aliases of the field selections that were met (a
    typename selection enters none), and the entry it refers to for an
    alias is an entry of [fields] with that alias that holds the nested
    selections of all field selections of the alias, in order. *)
Theorem merge_table_points_at_entries selections resolver r r' fields
    (fieldByAlias : gmap string nat) :
  collectFieldsToResolve selections resolver [] ∅ r = (r', Ok (fields, fieldByAlias)) →
  ∃ occs,
    occurrences selections resolver r = (r', Ok occs) ∧
    (∀ a, is_Some (fieldByAlias !! a) ↔ a ∈ fieldAliases occs) ∧
    (∀ a i, fieldByAlias !! a = Some i →
       ∃ f, fields !! i = Some f ∧ Alias (field f) = a ∧ sels f = nested a occs).
Proof.
  intros H. destruct (merge_result _ _ _ _ _ _ H) as (occs & Ho & Hf).
  exists occs. split; [done|].
  destruct (foldl_mergeOcc MetaFieldTypename occs) as (m & Hm & Hidx).
  fold mergeOcc in Hm. rewrite Hf in Hm. inversion Hm; subst.
  split.
  - intros a. rewrite Hidx, <- isField_fieldAliases. split.
    + intros [i Hi]. destruct (existsb (isField a) occs) eqn:E; [done|].
      by rewrite entryIdx_unseen in Hi.
    + intros E. destruct (entryIdx [] occs a) eqn:Ei; [done|].
      apply entryIdx_None in Ei; [congruence|done].
  - intros a i Hi. rewrite Hidx in Hi.
    destruct (entryIdx_lookup _ _ _ _ Hi) as (f & ? & ? & ? & _). by exists f.
Qed.

Lemma mergeOcc_count occs : ∀ st : Merge,
  length (foldl mergeOcc st occs).1 + size st.2
  = length st.1 + size (foldl mergeOcc st occs).2 + length (filter isTypename occs).
Proof.
  induction occs as [|o occs IH]; intros [fields m]; cbn [foldl fst snd].
  - rewrite filter_nil. cbn. lia.
  - specialize (IH (mergeOcc (fields, m) o)).
    destruct o as [sel Sels res|al name res]; cbn [mergeOcc fst snd] in *.
    + rewrite filter_cons_False by (cbn; auto).
      destruct (m !! Alias sel) as [i|] eqn:E; cbn [fst snd] in *.
      * rewrite length_alter in IH. lia.
      * rewrite length_app, map_size_insert_None in IH by done.
        cbn [length] in IH. lia.
    + rewrite filter_cons_True by done. rewrite length_app in IH.
      cbn [length] in *. lia.
Qed.

(** X7. The merge makes one entry for each alias of a field selection
    and one for each typename selection it meets: typename selections
    are never merged, neither with one another nor with a field
    selection of the same alias. *)
Theorem merge_entry_count selections resolver r r' fields (fieldByAlias : gmap string nat) :
  collectFieldsToResolve selections resolver [] ∅ r = (r', Ok (fields, fieldByAlias)) →
  ∃ occs,
    occurrences selections resolver r = (r', Ok occs) ∧
    size fieldByAlias = length (remove_dups (fieldAliases occs)) ∧
    length fields = size fieldByAlias + length (filter isTypename occs).
Proof.
  intros H. destruct (merge_result _ _ _ _ _ _ H) as (occs & Ho & Hf).
  exists occs. split; [done|].
  pose proof (mergeOcc_count occs ([], ∅)) as Hc. rewrite Hf in Hc.
  cbn [fst snd length] in Hc. rewrite map_size_empty in Hc.
  split; [|lia].
  destruct (foldl_mergeOcc MetaFieldTypename occs) as (m & Hm & Hidx).
  fold mergeOcc in Hm. rewrite Hf in Hm. inversion Hm; subst.
  rewrite <- size_dom.
  replace (dom m) with (list_to_set (C := gset string) (remove_dups (fieldAliases occs))).
  { rewrite size_list_to_set; [done|apply NoDup_remove_dups]. }
  apply set_eq. intros a.
  rewrite elem_of_list_to_set, elem_of_remove_dups, elem_of_dom, Hidx,
    <- isField_fieldAliases.
  split.
  - intros E. destruct (entryIdx [] occs a) eqn:Ei; [done|].
    apply entryIdx_None in Ei; [congruence|done].
  - intros [i Hi]. destruct (existsb (isField a) occs) eqn:E; [done|].
    by rewrite entryIdx_unseen in Hi.
Qed.

(** ** A field that resolves *)

(** X8. A field without fixed result, under a context that is not
    cancelled, whose resolver method returns without a nil-checked
    error: the limiter is held from before the span is opened until the
    method has returned, the field itself records no error, and the
    result is serialized, under the context of the span, after the
    limiter has been released; the span is finished when the serializer
    is done, also when it panics. *)
Theorem resolver_success_serializes (rec : ExecSelectionSet) ctx f path r methods outs
    result (applyLimiter : bool) out :
  let traceCtx := traceCtxOf r ctx f in
  let call := MethodCall (MethodIndex (Field_ (field f))) (callArgs traceCtx f) in
  let r0 := if applyLimiter then emit LimiterAcquire r else r in
  let r1 := tick (emit call (emit (spanOf f) r0)) in
  let r2 := if applyLimiter then emit LimiterRelease r1 else r1 in
  IsValid (FixedResult (field f)) = false →
  Err traceCtx (Clock r) = None →
  resolver f = VResolver methods →
  methods (MethodIndex (Field_ (field f))) (callArgs traceCtx f) = Returns outs →
  outs !! 0 = Some result →
  (HasError (Field_ (field f)) = true →
     ∃ e, outs !! 1 = Some e ∧ IsNil e = ret true) →
  execFieldSelection rec ctx f path applyLimiter out r
  = match rec traceCtx (sels f) (Type_ (Field_ (field f))) path result out r2 with
    | Some (out', r', o) => Some (out', emit (TraceFinish None) r', o)
    | None => None
    end.
Proof.
  intros traceCtx call r0 r1 r2 Hfix Hctx Hres Hcall H0 Herr.
  unfold execFieldSelection, recoverField, resolveField.
  assert (Ht : Tracer r0 ctx (TraceLabel (Field_ (field f))) (TypeName (Field_ (field f)))
         (Name (Field_ (field f))) (negb (Async (field f))) (Args (field f)) = traceCtx).
  { unfold r0. by destruct applyLimiter. }
  fold r0. rewrite Ht. fold (spanOf f).
  rewrite Hfix, Hres. unfold bind at 1, Context_Err.
  assert (Hclock : Clock (emit (spanOf f) r0) = Clock r)
    by (unfold r0; by destruct applyLimiter).
  rewrite Hclock, Hctx.
  unfold bind at 1, Method_Call. rewrite Hcall. fold call. fold r1.
  unfold bind at 1, index at 1. rewrite H0. cbn [ret].
  destruct (HasError (Field_ (field f))).
  - destruct (Herr eq_refl) as (e & H1 & Hnil).
    unfold bind at 1, index at 1. rewrite H1. cbn [ret].
    unfold bind at 1. rewrite Hnil. cbn [ret negb]. reflexivity.
  - reflexivity.
Qed.

(** ** Arrays and objects *)

Lemma rounds_comma (execElem : nat → Exec) l i r bs r' :
  (∀ i, appends (execElem i)) →
  rounds (λ _ i, comma i ;; execElem i) i l r = Some (bs, r') →
  ∃ entries,
    rounds (λ _ i, execElem i) i l r = Some (entries, r') ∧
    length entries = length l ∧
    bs = zip_with (λ i b, commaBytes i ++ b) l entries.
Proof.
  intros Hf. revert i r bs. induction l as [|x l IH]; intros i r bs E.
  - cbn in E. inversion E; subst. by exists [].
  - cbn [rounds] in E |- *. unfold andThen at 1 in E.
    rewrite comma_spec, Hf in E. cbn [app] in E.
    destruct (execElem x [] r) as [[[b r1] [|v]]|]; [|done|done].
    destruct (rounds (λ _ i, comma i ;; execElem i) (S i) l r1)
      as [[bs' r2]|] eqn:E'; [|done].
    inversion E; subst. destruct (IH _ _ _ E') as (entries & -> & Hl & ->).
    exists (b :: entries). split; [done|]. split; [cbn; by rewrite Hl|done].
Qed.

Lemma joined_seq (entries : list Buffer) j :
  concat (zip_with (λ i b, commaBytes i ++ b) (seq j (length entries)) entries)
  = concat (imap (λ k b, commaBytes (j + k) ++ b) entries).
Proof.
  revert j. induction entries as [|b l IH]; intros j; [done|].
  cbn [length seq zip_with concat]. rewrite imap_cons. cbn [concat].
  rewrite Nat.add_0_r, (IH (S j)). do 2 f_equal.
  apply imap_ext. intros k y _. cbn. by rewrite Nat.add_succ_r.
Qed.

(** X9. A list value is written as [[], one entry for each element in
    index order with a comma between two entries, and []].  With an
    asynchronous selection this always happens: the elements are
    serialized by goroutines, each under its [handlePanic] and into its
    own buffer, and no panic of an element leaves the list.  Otherwise
    the elements are serialized one after the other, and the list is
    complete when none of them panics. *)
Theorem list_in_brackets n ctx selections OfType path elems out r out' r' o :
  let execElem :=
    listElem (execSelectionSet n) ctx selections OfType path (VSlice elems) in
  execSelectionSet (S n) ctx selections (NonNull (List OfType)) path (VSlice elems)
    out r = Some (out', r', o) →
  if HasAsyncSel selections
  then o = Done ∧
       ∃ entries,
         length entries = length elems ∧
         out' = out ++ ["["%byte] ++ joined entries ++ ["]"%byte] ∧
         ranConcurrently ctx (execElem <$> seq 0 (length elems)) r entries r'
  else o = Done →
       ∃ entries,
         length entries = length elems ∧
         out' = out ++ ["["%byte] ++ joined entries ++ ["]"%byte] ∧
         rounds (λ _ i, execElem i) 0 (seq 0 (length elems)) r = Some (entries, r').
Proof.
  intros execElem E.
  cbn [execSelectionSet unwrapNonNull] in E. unfold run at 1 in E. cbn [Len ret] in E.
  fold execElem in E.
  destruct (HasAsyncSel selections).
  - unfold listConcurrently in E.
    change (map execElem (seq 0 (length elems))) with (execElem <$> seq 0 (length elems))
      in E.
    destruct (goAll pick ctx (toSlice path) _ r) as [[outs r1]|] eqn:Eg; [|done].
    apply goAll_ran in Eg.
    unfold range in E. rewrite andThen_eq in E. cbn [write] in E. unfold WriteByte in E.
    rewrite andThen_eq, range_writes in E. cbn [write] in E.
    injection E as <- <- <-. split; [done|].
    exists outs. split.
    { destruct Eg as (_ & _ & _ & _ & Hl & _).
      by rewrite Hl, length_fmap, length_seq. }
    split; [|done]. unfold joined. cbn [Nat.add]. by rewrite <- !app_assoc.
  - intros ->.
    assert (Hf : ∀ i, appends (execElem i)).
    { intros i. apply appends_run. intros e. apply appends_execSelectionSet. }
    unfold listSequentially, range in E. rewrite andThen_eq in E.
    cbn [write] in E. unfold WriteByte in E. rewrite andThen_eq in E.
    destruct (rangeFrom 0 (seq 0 (length elems)) _ (out ++ ["["%byte]) r)
      as [[[out2 r2] [|v]]|] eqn:Er; [|done|done].
    cbn [write] in E. injection E as <- <-.
    apply rangeFrom_rounds in Er as (bs & Hr & ->).
    2:{ intros j x. apply appends_andThen; [apply appends_comma|apply Hf]. }
    apply rounds_comma in Hr as (entries & Hr & Hl & ->); [|done].
    rewrite length_seq in Hl.
    exists entries. split; [done|]. split; [|done].
    rewrite <- Hl, joined_seq. unfold joined. cbn [Nat.add]. by rewrite <- !app_assoc.
Qed.

(** X10. An object whose selection set is executed concurrently is
    either not begun or complete: only the merge can make
    [execSelections] panic, before it has written anything; once the
    fields are merged, no panic of a field leaves the object, which
    ends with its closing brace. *)
Theorem concurrent_object_always_closed n ctx selections path resolver out r out' r' o :
  HasAsyncSel selections = true →
  execSelections (execSelectionSet n) ctx selections path resolver false out r
    = Some (out', r', o) →
  match o with
  | Panicked v =>
      collectFieldsToResolve selections resolver [] ∅ r = (r', Panic v) ∧ out' = out
  | Done =>
      ∃ r1 fields m entries,
        collectFieldsToResolve selections resolver [] ∅ r = (r1, Ok (fields, m)) ∧
        length entries = length fields ∧
        out' = out ++ ["{"%byte]
                   ++ concat (imap (λ i f, keyBytes i f ++ entries !!! i) fields)
                   ++ ["}"%byte]
  end.
Proof.
  intros Ha E. unfold execSelections, run in E. rewrite Ha in E. cbn [negb andb] in E.
  destruct (collectFieldsToResolve selections resolver [] ∅ r)
    as [r1 [[fields m]|v]] eqn:Ec.
  - change (map ?g fields) with (g <$> fields) in E.
    destruct (goAll pick ctx (toSlice path) _ r1) as [[outs r2]|] eqn:Eg; [|done].
    apply goAll_ran in Eg as (_ & _ & _ & _ & Hl & _).
    unfold execFields in E. rewrite andThen_eq in E. cbn [write] in E.
    unfold WriteByte in E. unfold range in E.
    rewrite andThen_eq, range_slots in E. cbn [write] in E.
    injection E as <- <- <-.
    exists r1, fields, m, outs. split; [done|].
    split; [by rewrite length_fmap in Hl|]. by rewrite <- !app_assoc.
  - by injection E as <- <- <-.
Qed.

End More.

(** ** What is recorded stays, and what is opened is closed *)

Lemma tally_app weigh l1 l2 : tally weigh (l1 ++ l2) = (tally weigh l1 + tally weigh l2)%Z.
Proof. unfold tally. induction l1 as [|e l IH]; cbn [app foldr]; [lia|]. rewrite IH. lia. Qed.

Lemma grown_refl weigh r : grown weigh 0 r r.
Proof.
  split; [done|]. split; [done|]. exists [], []. by rewrite !app_nil_r.
Qed.

Lemma grown_trans weigh w1 w2 r1 r2 r3 :
  grown weigh w1 r1 r2 → grown weigh w2 r2 r3 → grown weigh (w1 + w2) r1 r3.
Proof.
  intros (Ht1 & Hc1 & e1 & l1 & He1 & Hl1 & Hw1) (Ht2 & Hc2 & e2 & l2 & He2 & Hl2 & Hw2).
  split; [congruence|]. split; [lia|]. exists (e1 ++ e2), (l1 ++ l2).
  rewrite He2, He1, Hl2, Hl1, !app_assoc, tally_app. by subst.
Qed.

Lemma grown_trans0 weigh r1 r2 r3 :
  grown weigh 0 r1 r2 → grown weigh 0 r2 r3 → grown weigh 0 r1 r3.
Proof. apply (grown_trans weigh 0 0). Qed.

Lemma grown_emit weigh e r : grown weigh (weigh e) r (emit e r).
Proof.
  split; [done|]. split; [done|]. exists [], [e]. rewrite app_nil_r. cbn.
  split; [done|]. split; [done|]. lia.
Qed.

Lemma grown_AddError weigh err r : grown weigh 0 r (AddError err r).
Proof.
  split; [done|]. split; [done|]. exists [err], []. by rewrite app_nil_r.
Qed.

Lemma grown_tick weigh r : grown weigh 0 r (tick r).
Proof.
  split; [done|]. split; [cbn; lia|]. exists [], []. by rewrite !app_nil_r.
Qed.

Lemma keeps_skip weigh : keeps weigh skip.
Proof. intros out r out' r' o E. inversion E; subst. apply grown_refl. Qed.
Lemma keeps_write weigh f : keeps weigh (write f).
Proof. intros out r out' r' o E. inversion E; subst. apply grown_refl. Qed.
Lemma keeps_raise weigh v : keeps weigh (raise v).
Proof. intros out r out' r' o E. inversion E; subst. apply grown_refl. Qed.

Lemma keeps_andThen weigh a b : keeps weigh a → keeps weigh b → keeps weigh (a ;; b).
Proof.
  intros Ha Hb out r out' r' o E. unfold andThen in E.
  destruct (a out r) as [[[out1 r1] [|v]]|] eqn:Ea; [| |done].
  - eapply grown_trans0; [by eapply Ha|by eapply Hb].
  - inversion E; subst. by eapply Ha.
Qed.

Lemma keeps_run weigh {A} (c : M A) (k : A → Exec) :
  keepsM weigh c → (∀ a, keeps weigh (k a)) → keeps weigh (run c k).
Proof.
  intros Hc Hk out r out' r' o E. unfold run in E. specialize (Hc r).
  destruct (c r) as [r1 [a|v]]; cbn [fst] in Hc.
  - eapply grown_trans0; [done|by eapply Hk].
  - by inversion E; subst.
Qed.

Lemma keeps_rangeFrom weigh {A} (l : list A) (body : nat → A → Exec) i :
  (∀ j x, x ∈ l → keeps weigh (body j x)) → keeps weigh (rangeFrom i l body).
Proof.
  revert i. induction l as [|x l IH]; intros i H; [apply keeps_skip|].
  cbn [rangeFrom]. apply keeps_andThen.
  - apply H. by left.
  - apply IH. intros j y Hy. apply H. by right.
Qed.

Lemma keeps_handlePanic weigh ctx body :
  paired weigh → keeps weigh body → keeps weigh (handlePanic ctx body).
Proof.
  intros Hp H out r out' r' o E. unfold handlePanic in E.
  destruct (body out r) as [[[out1 r1] [|v]]|] eqn:Eb; [| |done].
  - inversion E; subst. by eapply H.
  - inversion E; subst.
    eapply grown_trans0; [by eapply H|].
    eapply grown_trans0; [|apply grown_AddError].
    rewrite <- (paired_panic weigh Hp v). apply grown_emit.
Qed.

Lemma keeps_comma weigh i : keeps weigh (comma i).
Proof. unfold comma. destruct (0 <? i); [apply keeps_write|apply keeps_skip]. Qed.

Lemma keeps_writeKey weigh i f : keeps weigh (writeKey i f).
Proof.
  unfold writeKey.
  repeat (apply keeps_andThen; [first [apply keeps_comma|apply keeps_write]|]).
  apply keeps_write.
Qed.

Lemma keepsM_ret weigh {A} (a : A) : keepsM weigh (ret a).
Proof. intros r. apply grown_refl. Qed.
Lemma keepsM_panic weigh {A} v : keepsM weigh (@panic A v).
Proof. intros r. apply grown_refl. Qed.

Lemma keepsM_bind weigh {A B} (c : M A) (k : A → M B) :
  keepsM weigh c → (∀ a, keepsM weigh (k a)) → keepsM weigh (bind c k).
Proof.
  intros Hc Hk r. unfold bind. specialize (Hc r).
  destruct (c r) as [r1 [a|v]]; cbn [fst] in *; [|done].
  eapply grown_trans0; [done|apply Hk].
Qed.

Lemma keepsM_Method_Call weigh v i args :
  paired weigh → keepsM weigh (Method_Call v i args).
Proof.
  intros Hp r.
  assert (grown weigh 0 r (tick (emit (MethodCall i args) r))) as H.
  { eapply grown_trans0; [|apply grown_tick].
    rewrite <- (paired_call weigh Hp i args). apply grown_emit. }
  unfold Method_Call. destruct v; try exact H. by destruct (methods i args).
Qed.

Lemma keepsM_Context_Err weigh ctx : keepsM weigh (Context_Err ctx).
Proof. intros r. apply grown_refl. Qed.
Lemma keepsM_index weigh outs i : keepsM weigh (index outs i).
Proof. unfold index. destruct (outs !! i); [apply keepsM_ret|apply keepsM_panic]. Qed.
Lemma keepsM_Value_Bool weigh v : keepsM weigh (Value_Bool v).
Proof. destruct v; first [apply keepsM_ret|apply keepsM_panic]. Qed.
Lemma keepsM_IsNil weigh v : keepsM weigh (IsNil v).
Proof. destruct v; first [apply keepsM_ret|apply keepsM_panic]. Qed.
Lemma keepsM_Elem weigh v : keepsM weigh (Elem v).
Proof. destruct v; first [apply keepsM_ret|apply keepsM_panic]. Qed.
Lemma keepsM_Len weigh v : keepsM weigh (Len v).
Proof. destruct v; first [apply keepsM_ret|apply keepsM_panic]. Qed.
Lemma keepsM_Index weigh v i : keepsM weigh (Index v i).
Proof.
  destruct v; try apply keepsM_panic; cbn.
  - destruct (String.get i s); [apply keepsM_ret|apply keepsM_panic].
  - destruct (elems !! i); [apply keepsM_ret|apply keepsM_panic].
Qed.
Lemma keepsM_Interface_error weigh v : keepsM weigh (Interface_error v).
Proof. destruct v; first [apply keepsM_ret|apply keepsM_panic]. Qed.

Lemma keepsM_typeOf weigh tf resolver : paired weigh → keepsM weigh (typeOf tf resolver).
Proof.
  intros Hp. unfold typeOf. destruct (_ =? _); [apply keepsM_ret|].
  induction (TypeAssertions tf) as [|[name methodIndex] l IH]; [apply keepsM_ret|].
  cbn [typeOf_range].
  apply keepsM_bind; [by apply keepsM_Method_Call|]. intros out.
  apply keepsM_bind; [apply keepsM_index|]. intros ok.
  apply keepsM_bind; [apply keepsM_Value_Bool|]. intros [].
  - apply keepsM_ret.
  - apply IH.
Qed.

Lemma keepsM_forEach weigh {A S} (f : A → S → M S) l :
  (∀ a s, a ∈ l → keepsM weigh (f a s)) → ∀ s, keepsM weigh (forEach f l s).
Proof.
  induction l as [|a l IH]; intros H s; [apply keepsM_ret|].
  cbn [forEach]. apply keepsM_bind.
  - apply H. by left.
  - intros s'. apply IH. intros b t Hb. apply H. by right.
Qed.

Lemma keepsM_resolveField weigh traceCtx f path :
  paired weigh → keepsM weigh (resolveField traceCtx f path).
Proof.
  intros Hp. unfold resolveField.
  destruct (IsValid _); [apply keepsM_ret|].
  apply keepsM_bind; [apply keepsM_Context_Err|]. intros [err|]; [apply keepsM_ret|].
  apply keepsM_bind; [by apply keepsM_Method_Call|]. intros callOut.
  apply keepsM_bind; [apply keepsM_index|]. intros result.
  destruct (HasError _); [|apply keepsM_ret].
  apply keepsM_bind; [apply keepsM_index|]. intros e.
  apply keepsM_bind; [apply keepsM_IsNil|]. intros []; cbn [negb].
  - apply keepsM_ret.
  - apply keepsM_bind; [apply keepsM_Interface_error|]. intros resolverErr.
    apply keepsM_ret.
Qed.

Lemma keeps_execFieldSelection weigh (rec : ExecSelectionSet) ctx f path applyLimiter :
  paired weigh →
  (∀ traceCtx v, keeps weigh (rec traceCtx (sels f) (Type_ (Field_ (field f))) path v)) →
  keeps weigh (execFieldSelection rec ctx f path applyLimiter).
Proof.
  intros Hp Hrec out r out' r' o E. unfold execFieldSelection in E.
  set (acq := if applyLimiter then weigh LimiterAcquire else 0%Z).
  set (rel := if applyLimiter then weigh LimiterRelease else 0%Z).
  set (r0 := if applyLimiter then emit LimiterAcquire r else r) in E.
  assert (H0 : grown weigh acq r r0).
  { unfold acq, r0. destruct applyLimiter; [apply grown_emit|apply grown_refl]. }
  set (span := TraceField _ _ _ _ _) in E.
  set (traceCtx := Tracer r0 ctx _ _ _ _ _) in E.
  pose proof (grown_trans _ _ _ _ _ _ H0 (grown_emit weigh span r0)) as H1.
  assert (Hsum : ∀ e, (acq + weigh span + rel + weigh (TraceFinish e) = 0)%Z).
  { intros e. pose proof (paired_limiter weigh Hp).
    pose proof (paired_span weigh Hp (TraceLabel (Field_ (field f)))
                  (TypeName (Field_ (field f))) (Name (Field_ (field f)))
                  (negb (Async (field f))) (Args (field f)) e) as Hs.
    fold span in Hs. unfold acq, rel. destruct applyLimiter; lia. }
  assert (Htail : ∀ r3 result err,
    grown weigh (acq + weigh span) r r3 →
    (let r := if applyLimiter then emit LimiterRelease r3 else r3 in
     match err with
     | Some err =>
         Some (WriteString "null" out, emit (TraceFinish (Some err)) (AddError err r), Done)
     | None =>
         match rec traceCtx (sels f) (Type_ (Field_ (field f))) path result out r with
         | Some (out, r, o) => Some (out, emit (TraceFinish None) r, o)
         | None => None
         end
     end) = Some (out', r', o) →
    grown weigh 0 r r').
  { intros r3 result err H3 E'. cbn zeta in E'.
    set (r4 := if applyLimiter then emit LimiterRelease r3 else r3) in E'.
    assert (H4 : grown weigh (acq + weigh span + rel) r r4).
    { eapply grown_trans; [exact H3|].
      unfold rel, r4. destruct applyLimiter; [apply grown_emit|apply grown_refl]. }
    destruct err as [err|].
    - inversion E'; subst. rewrite <- (Hsum (Some err)).
      eapply grown_trans; [|apply grown_emit].
      rewrite <- (Z.add_0_r (acq + weigh span + rel)).
      eapply grown_trans; [exact H4|apply grown_AddError].
    - destruct (rec traceCtx (sels f) _ path result out r4) as [[[out5 r5] o5]|] eqn:Er;
        [|done].
      inversion E'; subst. rewrite <- (Hsum None).
      eapply grown_trans; [|apply grown_emit].
      rewrite <- (Z.add_0_r (acq + weigh span + rel)).
      eapply grown_trans; [exact H4|by eapply Hrec]. }
  unfold recoverField in E.
  pose proof (keepsM_resolveField weigh traceCtx f path Hp (emit span r0)) as H2.
  destruct (resolveField traceCtx f path (emit span r0)) as [r2 [[result err]|v]];
    cbn [fst] in H2.
  - eapply (Htail r2 result err); [|exact E].
    rewrite <- (Z.add_0_r (acq + weigh span)). by eapply grown_trans.
  - eapply (Htail (emit (LogPanic v) r2) VInvalid
              (Some (set_Path (panicError v) (toSlice path)))); [|exact E].
    rewrite <- (Z.add_0_r (acq + weigh span)).
    eapply grown_trans; [exact H1|].
    eapply grown_trans0; [exact H2|].
    rewrite <- (paired_panic weigh Hp v). apply grown_emit.
Qed.

Section Kept.

Context (MetaFieldTypename : Field) (pick : list PathElem → nat → nat)
  (json_Marshal : Value → option (list byte)) (typeString Sprint : Value → string).

Local Abbreviation collectFieldToResolve := (collectFieldToResolve MetaFieldTypename).
Local Abbreviation collectFieldsToResolve := (collectFieldsToResolve MetaFieldTypename).
Local Abbreviation execSelectionSet :=
  (execSelectionSet MetaFieldTypename pick json_Marshal typeString Sprint).
Local Abbreviation execSelections := (execSelections MetaFieldTypename pick).

Context (weigh : Event → Z) (Hp : paired weigh).

Lemma keepsM_collectFieldToResolve sel :
  ∀ resolver st, keepsM weigh (collectFieldToResolve sel resolver st).
Proof using Hp.
  induction sel as [sel Sels _|tf|methodIndex Sels IH] using Selection_ind';
    intros resolver [fields fieldByAlias].
  - cbn. destruct (fieldByAlias !! Alias sel); apply keepsM_ret.
  - cbn. apply keepsM_bind; [by apply keepsM_typeOf|]. intros name. apply keepsM_ret.
  - cbn [collectFieldToResolve].
    apply keepsM_bind; [by apply keepsM_Method_Call|]. intros out.
    apply keepsM_bind; [apply keepsM_index|]. intros ok.
    apply keepsM_bind; [apply keepsM_Value_Bool|]. intros []; cbn [negb].
    + apply keepsM_bind; [apply keepsM_index|]. intros narrowed.
      apply keepsM_forEach. intros s st Hs.
      rewrite Forall_forall in IH. by apply IH.
    + apply keepsM_ret.
Qed.

Lemma keepsM_collectFieldsToResolve sels resolver fields fieldByAlias :
  keepsM weigh (collectFieldsToResolve sels resolver fields fieldByAlias).
Proof using Hp.
  apply keepsM_forEach. intros s st _. apply keepsM_collectFieldToResolve.
Qed.

Lemma schedule_grown n ctx site (pending : list (nat * Exec)) outs r outs' r' :
  (∀ it, it ∈ pending → keeps weigh it.2) →
  schedule pick n ctx site pending outs r = Some (outs', r') →
  grown weigh 0 r r'.
Proof using Hp.
  revert pending outs r. induction n as [|n IH]; intros pending outs r H E.
  - cbn in E. inversion E; subst. apply grown_refl.
  - cbn [schedule] in E.
    destruct (extract _ pending) as [[[i task] pending']|] eqn:Ex.
    2:{ inversion E; subst. apply grown_refl. }
    pose proof (extract_elem _ _ _ _ Ex) as Hperm.
    destruct (handlePanic ctx task [] r) as [[[b r1] o]|] eqn:Eh; [|done].
    eapply grown_trans0.
    + eapply (keeps_handlePanic weigh ctx task Hp); [|exact Eh].
      apply (H (i, task)). rewrite Hperm. by left.
    + eapply IH; [|exact E]. intros it Hin. apply H. rewrite Hperm. by right.
Qed.

Lemma keeps_spawn ctx site tasks (k : list Buffer → Exec) :
  (∀ t, t ∈ tasks → keeps weigh t) → (∀ outs, keeps weigh (k outs)) →
  keeps weigh (λ out r,
    match goAll pick ctx site tasks r with
    | None => None
    | Some (outs, r) => k outs out r
    end).
Proof using Hp.
  intros Ht Hk out r out' r' o E.
  destruct (goAll pick ctx site tasks r) as [[outs r1]|] eqn:Eg; [|done].
  eapply grown_trans0; [|by eapply Hk].
  eapply schedule_grown; [|exact Eg].
  intros it Hin. apply Ht. by apply elem_of_imap_pair.
Qed.

Lemma keeps_execFields rec ctx path async outs fields :
  keepsRec weigh rec → keeps weigh (execFields rec ctx path async outs fields).
Proof using Hp.
  intros Hrec. unfold execFields.
  apply keeps_andThen; [apply keeps_write|].
  apply keeps_andThen; [|apply keeps_write].
  apply keeps_rangeFrom. intros i f _. unfold fieldEntry.
  apply keeps_andThen; [apply keeps_writeKey|].
  destruct async; [apply keeps_write|].
  apply keeps_execFieldSelection; [done|]. intros traceCtx v. apply Hrec.
Qed.

Lemma keeps_execSelections rec ctx sels path resolver serially :
  keepsRec weigh rec →
  keeps weigh (execSelections rec ctx sels path resolver serially).
Proof using Hp.
  intros Hrec. unfold execSelections.
  apply keeps_run; [apply keepsM_collectFieldsToResolve|].
  intros [fields fieldByAlias].
  destruct (negb serially && HasAsyncSel sels).
  - apply (keeps_spawn ctx (toSlice path) _
             (λ outs, execFields rec ctx path true outs fields)).
    + intros t Ht. apply list_elem_of_fmap in Ht as (f & -> & _).
      apply keeps_execFieldSelection; [done|]. intros traceCtx v. apply Hrec.
    + intros outs. by apply keeps_execFields.
  - by apply keeps_execFields.
Qed.

Lemma keeps_execSelectionSet n : keepsRec weigh (execSelectionSet n).
Proof using Hp.
  induction n as [|n IH]; intros ctx sels typ path v; [done|].
  cbn [execSelectionSet].
  destruct (unwrapNonNull typ) as [t nonNull].
  assert (Hlist : ∀ OfType v,
    keeps weigh (run (Len v) (λ l,
      let execElem := listElem (execSelectionSet n) ctx sels OfType path v in
      if HasAsyncSel sels then listConcurrently pick execElem ctx path l
      else listSequentially execElem l))).
  { intros OfType v'. apply keeps_run; [apply keepsM_Len|]. intros l.
    assert (∀ i, keeps weigh (listElem (execSelectionSet n) ctx sels OfType path v' i)).
    { intros i. apply keeps_run; [apply keepsM_Index|]. intros e. apply IH. }
    destruct (HasAsyncSel sels).
    - unfold listConcurrently.
      apply (keeps_spawn ctx (toSlice path) _
           (λ entryouts, write (WriteByte "["%byte) ;;
              range entryouts (λ i entryout, comma i ;; write (Write entryout)) ;;
              write (WriteByte "]"%byte))).
      + intros task Ht. apply list_elem_of_fmap in Ht as (i & -> & _). done.
      + intros outs.
        apply keeps_andThen; [apply keeps_write|].
        apply keeps_andThen; [|apply keeps_write].
        apply keeps_rangeFrom. intros i b _.
        apply keeps_andThen; [apply keeps_comma|apply keeps_write].
    - unfold listSequentially.
      apply keeps_andThen; [apply keeps_write|].
      apply keeps_andThen; [|apply keeps_write].
      apply keeps_rangeFrom. intros i b _.
      apply keeps_andThen; [apply keeps_comma|done]. }
  assert (Hscalar : ∀ v, keeps weigh (
     if IsValid v then
       match json_Marshal v with
       | Some data => write (Write data)
       | None => raise (PanicQueryError ("could not marshal " +:+ Sprint v))
       end
     else raise (PanicString "reflect: call of reflect.Value.Interface on zero Value"))).
  { intros v'. destruct (IsValid v'); [|apply keeps_raise].
    destruct (json_Marshal v'); [apply keeps_write|apply keeps_raise]. }
  assert (Henum : ∀ v, keeps weigh (
     write (WriteByte x22) ;;
     write (WriteString (Value_String typeString v)) ;;
     write (WriteByte x22))).
  { intros v'. repeat (apply keeps_andThen; [apply keeps_write|]). apply keeps_write. }
  assert (Hobj : keeps weigh (
     run (if Kind_eqb (Value_Kind v) Ptr then IsNil v else ret false) (λ isNil,
       if isNil : bool then
         if nonNull
         then raise (PanicQueryError ("got nil for non-null " +:+ quoted (Ty_String t)))
         else write (WriteString "null")
       else execSelections (execSelectionSet n) ctx sels path v false))).
  { apply keeps_run.
    - destruct (Kind_eqb _ _); [apply keepsM_IsNil|apply keepsM_ret].
    - intros [].
      + destruct nonNull; [apply keeps_raise|apply keeps_write].
      + by apply keeps_execSelections. }
  destruct t; try exact Hobj;
    (destruct nonNull;
     [|apply keeps_run; [apply keepsM_IsNil|]; intros [];
       [apply keeps_write|apply keeps_run; [apply keepsM_Elem|]; intros v']]);
    first [apply Hlist|apply Hscalar|apply Henum|apply keeps_raise].
Qed.

End Kept.

Lemma paired_limiterHeld : paired limiterHeld.
Proof. by split. Qed.

Lemma paired_spanOpen : paired spanOpen.
Proof. by split. Qed.

Lemma tally_limiterHeld log :
  tally limiterHeld log
  = (Z.of_nat (length (filter isAcquire log)) - Z.of_nat (length (filter isRelease log)))%Z.
Proof.
  induction log as [|e log IH]; [done|].
  change (tally limiterHeld (e :: log)) with (limiterHeld e + tally limiterHeld log)%Z.
  rewrite IH. destruct e;
    repeat first [rewrite filter_cons_True by done|rewrite filter_cons_False by (cbn; auto)];
    cbn [length limiterHeld]; lia.
Qed.

Lemma tally_spanOpen log :
  tally spanOpen log
  = (Z.of_nat (length (filter isTraceField log))
     - Z.of_nat (length (filter isTraceFinish log)))%Z.
Proof.
  induction log as [|e log IH]; [done|].
  change (tally spanOpen (e :: log)) with (spanOpen e + tally spanOpen log)%Z.
  rewrite IH. destruct e;
    repeat first [rewrite filter_cons_True by done|rewrite filter_cons_False by (cbn; auto)];
    cbn [length spanOpen]; lia.
Qed.

Section Recorded.

Context (MetaFieldTypename : Field) (pick : list PathElem → nat → nat)
  (json_Marshal : Value → option (list byte)) (typeString Sprint : Value → string).

Local Abbreviation execSelectionSet :=
  (execSelectionSet MetaFieldTypename pick json_Marshal typeString Sprint).
Local Abbreviation execSelections := (execSelections MetaFieldTypename pick).

Lemma execSelections_grown weigh n ctx selections path resolver serially out r out' r' o :
  paired weigh →
  execSelections (execSelectionSet n) ctx selections path resolver serially out r
    = Some (out', r', o) →
  grown weigh 0 r r'.
Proof.
  intros Hp E. eapply keeps_execSelections; [done| |exact E].
  by apply keeps_execSelectionSet.
Qed.

(** X11. The serialization of a selection set only appends: the bytes
    in the buffer and the errors recorded before are a prefix of the
    ones after, in the same order, whether it ends normally or by a
    panic; the tracer of the request is not replaced. *)
Theorem recorded_is_kept n ctx selections path resolver serially out r out' r' o :
  execSelections (execSelectionSet n) ctx selections path resolver serially out r
    = Some (out', r', o) →
  out `prefix_of` out' ∧ Errs r `prefix_of` Errs r' ∧ Log r `prefix_of` Log r' ∧
  Tracer r' = Tracer r.
Proof.
  intros E.
  destruct (execSelections_grown limiterHeld _ _ _ _ _ _ _ _ _ _ _ paired_limiterHeld E)
    as (Ht & _ & errs & log & He & Hl & _).
  split; [|split; [by exists errs|split; [by exists log|done]]].
  rewrite appends_execSelections in E by apply appends_execSelectionSet.
  destruct (execSelections _ _ _ _ _ _ [] r) as [[[b r1] o1]|]; [|done].
  inversion E; subst. by exists b.
Qed.

(** X12. Every slot of the limiter that the serialization of a
    selection set takes is given back by the time it ends, also when a
    resolver panics and when the serialization ends by a panic: the log
    it appends has as many releases as acquisitions. *)
Theorem limiter_always_released n ctx selections path resolver serially out r out' r' o :
  execSelections (execSelectionSet n) ctx selections path resolver serially out r
    = Some (out', r', o) →
  ∃ log, Log r' = Log r ++ log ∧
         length (filter isAcquire log) = length (filter isRelease log).
Proof.
  intros E.
  destruct (execSelections_grown limiterHeld _ _ _ _ _ _ _ _ _ _ _ paired_limiterHeld E)
    as (_ & _ & errs & log & _ & Hl & Hw).
  exists log. split; [done|]. rewrite tally_limiterHeld in Hw. lia.
Qed.

(** X13. Every span the serialization of a selection set opens with
    [TraceField] is finished by the time it ends, also when what the
    field serializes panics: the log it appends has as many
    [TraceFinish] as [TraceField] events. *)
Theorem spans_always_finished n ctx selections path resolver serially out r out' r' o :
  execSelections (execSelectionSet n) ctx selections path resolver serially out r
    = Some (out', r', o) →
  ∃ log, Log r' = Log r ++ log ∧
         length (filter isTraceField log) = length (filter isTraceFinish log).
Proof.
  intros E.
  destruct (execSelections_grown spanOpen _ _ _ _ _ _ _ _ _ _ _ paired_spanOpen E)
    as (_ & _ & errs & log & _ & Hl & Hw).
  exists log. split; [done|]. rewrite tally_spanOpen in Hw. lia.
Qed.

End Recorded.

(** ** The order the goroutines run in *)

Lemma same_refl r : same r r.
Proof. done. Qed.

Lemma same_steady r1 r2 : same r1 r2 → steady r1 → steady r2.
Proof. intros (Ht & _) Hs. by apply (steady_Tracer r1). Qed.

Lemma same_clear r1 r2 : same r1 r2 → clear r2 = clear r1.
Proof. intros (Ht & _). by apply clear_Tracer. Qed.

Lemma same_extend r1 r2 d1 d2 :
  same r1 r2 → same d1 d2 → same (extend r1 d1) (extend r2 d2).
Proof.
  intros (Ht & He & Hc) (Ht' & He' & Hc'). split; [done|]. split; cbn.
  - by rewrite He, He'.
  - by rewrite Hc, Hc'.
Qed.

Lemma same_emit e1 e2 r1 r2 : same r1 r2 → same (emit e1 r1) (emit e2 r2).
Proof. by intros (Ht & He & Hc). Qed.

Lemma same_AddError err r1 r2 : same r1 r2 → same (AddError err r1) (AddError err r2).
Proof.
  intros (Ht & He & Hc). split; [done|]. split; [|done]. cbn. by rewrite He.
Qed.

Lemma alike_Tracer r r' x y : Tracer r = Tracer r' → alike r x y → alike r' x y.
Proof.
  intros Ht. unfold alike. destruct x as [[[b1 d1] o1]|], y as [[[b2 d2] o2]|]; try done.
  intros (? & ? & ? & ?). by rewrite <- Ht.
Qed.

Ltac split_alike := split; [done|]; split; [done|]; split.

Lemma framed_agree e : framed e → agree e e.
Proof.
  intros H out r1 r2 Hs Hsame.
  rewrite (H out r1), (H out r2), (same_clear r1 r2) by (done || by eapply same_steady).
  destruct (e [] (clear r1)) as [[[b d] o]|]; [|done].
  split_alike; [by apply same_extend|done].
Qed.

Lemma agree_andThen a1 a2 b1 b2 :
  agree a1 a2 → agree b1 b2 → agree (a1 ;; b1) (a2 ;; b2).
Proof.
  intros Ha Hb out r1 r2 Hs Hsame. unfold andThen.
  specialize (Ha out r1 r2 Hs Hsame).
  destruct (a1 out r1) as [[[ba1 d1] o1]|], (a2 out r2) as [[[ba2 d2] o2]|]; try done.
  destruct Ha as (-> & -> & Hsm & Ht). destruct o2; [|done].
  apply (alike_Tracer d1); [done|]. apply Hb; [by apply (steady_Tracer r1)|done].
Qed.

Lemma agree_run {A} (c : M A) (k1 k2 : A → Exec) :
  framedM c → (∀ a, agree (k1 a) (k2 a)) → agree (run c k1) (run c k2).
Proof.
  intros Hc Hk out r1 r2 Hs Hsame. unfold run.
  rewrite (Hc r1), (Hc r2), (same_clear r1 r2) by (done || by eapply same_steady).
  destruct (c (clear r1)) as [d [a|v]]; cbn [fst snd].
  - apply (alike_Tracer (extend r1 d)); [done|].
    apply Hk; [done|]. by apply same_extend.
  - split_alike; [by apply same_extend|done].
Qed.

Lemma agree_rangeFrom {A} (l : list A) (body1 body2 : nat → A → Exec) i :
  (∀ j x, x ∈ l → agree (body1 j x) (body2 j x)) →
  agree (rangeFrom i l body1) (rangeFrom i l body2).
Proof.
  revert i. induction l as [|x l IH]; intros i H; [apply framed_agree, framed_skip|].
  cbn [rangeFrom]. apply agree_andThen.
  - apply H. by left.
  - apply IH. intros j y Hy. apply H. by right.
Qed.

Lemma agree_handlePanic ctx body1 body2 :
  agree body1 body2 → agree (handlePanic ctx body1) (handlePanic ctx body2).
Proof.
  intros H out r1 r2 Hs Hsame. unfold handlePanic. specialize (H out r1 r2 Hs Hsame).
  destruct (body1 out r1) as [[[b1 d1] o1]|], (body2 out r2) as [[[b2 d2] o2]|]; try done.
  destruct H as (-> & -> & Hsm & Ht). destruct o2; [done|].
  split_alike; [by apply same_AddError, same_emit|done].
Qed.

Lemma agree_execFieldSelection (rec1 rec2 : ExecSelectionSet) ctx f path applyLimiter :
  stable ctx →
  (∀ traceCtx v, stable traceCtx →
     agree (rec1 traceCtx (sels f) (Type_ (Field_ (field f))) path v)
           (rec2 traceCtx (sels f) (Type_ (Field_ (field f))) path v)) →
  agree (execFieldSelection rec1 ctx f path applyLimiter)
        (execFieldSelection rec2 ctx f path applyLimiter).
Proof.
  intros Hctx Hrec out r1 r2 Hs Hsame. unfold execFieldSelection.
  set (acq := λ r : Request, if applyLimiter then emit LimiterAcquire r else r).
  set (rel := λ r : Request, if applyLimiter then emit LimiterRelease r else r).
  change (if applyLimiter then emit LimiterAcquire r1 else r1) with (acq r1).
  change (if applyLimiter then emit LimiterAcquire r2 else r2) with (acq r2).
  assert (Hacq : ∀ r, Tracer (acq r) = Tracer r) by (intros r; unfold acq; by destruct applyLimiter).
  assert (Hrel : ∀ r, Tracer (rel r) = Tracer r) by (intros r; unfold rel; by destruct applyLimiter).
  assert (Hsacq : ∀ a b, same a b → same (acq a) (acq b)).
  { intros a b H. unfold acq. destruct applyLimiter; [by apply same_emit|done]. }
  assert (Hsrel : ∀ a b, same a b → same (rel a) (rel b)).
  { intros a b H. unfold rel. destruct applyLimiter; [by apply same_emit|done]. }
  pose proof Hsame as (Ht & _).
  rewrite !Hacq, <- Ht.
  set (traceCtx := Tracer r1 ctx _ _ _ _ _).
  set (span := TraceField _ _ _ _ _).
  assert (Hst : stable traceCtx) by (by apply Hs).
  pose proof (framedM_resolveField traceCtx f path Hst) as Hbody.
  assert (Hs1 : steady (emit span (acq r1))).
  { apply (steady_Tracer r1); [|done]. cbn. by rewrite Hacq. }
  assert (Hs2 : steady (emit span (acq r2))).
  { apply (steady_Tracer r1); [|done]. cbn. by rewrite Hacq. }
  rewrite (recoverField_frame _ _ (emit span (acq r1))) by done.
  rewrite (recoverField_frame _ _ (emit span (acq r2))) by done.
  replace (clear (emit span (acq r2))) with (clear (emit span (acq r1)))
    by (apply clear_Tracer; cbn; by rewrite !Hacq).
  pose proof (recoverField_Tracer path (resolveField traceCtx f path)
                (clear (emit span (acq r1))) Hbody Hs1) as Ht2.
  destruct (recoverField path (resolveField traceCtx f path) (clear (emit span (acq r1))))
    as [d [result err]]; cbn [fst snd] in *.
  change (if applyLimiter then emit LimiterRelease ?x else ?x) with (rel x).
  set (q1 := rel (extend (emit span (acq r1)) d)).
  set (q2 := rel (extend (emit span (acq r2)) d)).
  assert (Hq : same q1 q2).
  { apply Hsrel, same_extend; [|done]. by apply same_emit, Hsacq. }
  assert (Htq : Tracer q1 = Tracer r1).
  { unfold q1. rewrite Hrel. cbn. by rewrite Hacq. }
  destruct err as [err|].
  - split_alike; [by apply same_emit, same_AddError|exact Htq].
  - specialize (Hrec traceCtx result Hst out q1 q2 (steady_Tracer r1 q1 (eq_sym Htq) Hs) Hq).
    destruct (rec1 traceCtx (sels f) _ path result out q1) as [[[b1 d1] o1]|],
             (rec2 traceCtx (sels f) _ path result out q2) as [[[b2 d2] o2]|]; try done.
    destruct Hrec as (-> & -> & Hsm & Htd).
    split_alike; [by apply same_emit|]. cbn. congruence.
Qed.

Lemma bind_pointwise_Permutation {A B} (f g : A → list B) (l : list A) :
  (∀ x, x ∈ l → f x ≡ₚ g x) → l ≫= f ≡ₚ l ≫= g.
Proof.
  induction l as [|x l IH]; intros H; [done|]. cbn.
  rewrite (H x) by (by left). rewrite IH; [done|]. intros y Hy. apply H. by right.
Qed.

Lemma bind_fmap_list {A B C} (g : A → B) (f : B → list C) (l : list A) :
  (g <$> l) ≫= f = l ≫= (f ∘ g).
Proof. induction l as [|x l IH]; [done|]. cbn. by rewrite <- IH. Qed.

Lemma sum_fmap_list {A B} (g : A → B) (f : B → nat) (l : list A) :
  sum_list_with f (g <$> l) = sum_list_with (f ∘ g) l.
Proof. induction l as [|x l IH]; [done|]. cbn. by rewrite <- IH. Qed.

Lemma sum_pointwise {A} (f g : A → nat) (l : list A) :
  (∀ x, x ∈ l → f x = g x) → sum_list_with f l = sum_list_with g l.
Proof.
  induction l as [|x l IH]; intros H; [done|]. cbn.
  rewrite (H x) by (by left). rewrite IH; [done|]. intros y Hy. apply H. by right.
Qed.

Lemma imap_pair_bind {A B} (f : A → list B) (l : list A) :
  imap pair l ≫= (λ it, f it.2) = l ≫= f.
Proof.
  enough (∀ g : nat → nat,
    imap (λ i x, (g i, x)) l ≫= (λ it, f it.2) = l ≫= f) as H by apply (H id).
  induction l as [|x l IH]; intros g; [done|]. cbn. f_equal. apply (IH (g ∘ S)).
Qed.

Lemma imap_pair_sum {A} (f : A → nat) (l : list A) :
  sum_list_with (λ it, f it.2) (imap pair l) = sum_list_with f l.
Proof.
  enough (∀ g : nat → nat,
    sum_list_with (λ it, f it.2) (imap (λ i x, (g i, x)) l) = sum_list_with f l)
    as H by apply (H id).
  induction l as [|x l IH]; intros g; [done|]. cbn. f_equal. apply (IH (g ∘ S)).
Qed.

Section Schedule.

Context (pick : list PathElem → nat → nat).

Lemma handlePanic_task ctx task out r b r1 o :
  handlePanic ctx task out r = Some (b, r1, o) → is_Some (task out r).
Proof. unfold handlePanic. by destruct (task out r). Qed.

(** What the goroutines leave in the request, whatever their order. *)
Lemma schedule_request n ctx site (pending : list (nat * Exec)) outs r outs' r' :
  (∀ it, it ∈ pending → framed it.2) →
  steady r →
  n = length pending →
  schedule pick n ctx site pending outs r = Some (outs', r') →
  (∀ it, it ∈ pending → is_Some (it.2 [] (clear r))) ∧
  Errs r' ≡ₚ Errs r ++ (pending ≫= λ it, errsOf ctx it.2 r) ∧
  Clock r' = Clock r + sum_list_with (λ it, ticksOf ctx it.2 r) pending.
Proof.
  revert pending outs r.
  induction n as [|n IH]; intros pending outs r Hf Hs Hn E.
  - destruct pending; [|done]. cbn in E. inversion E; subst.
    split; [by intros it ?%elem_of_nil|]. cbn. by rewrite app_nil_r, Nat.add_0_r.
  - cbn [schedule] in E.
    destruct (extract _ pending) as [[[i task] pending']|] eqn:Ex.
    2:{ exfalso. eapply (extract_None _ pending); [|exact Ex].
        apply Nat.mod_upper_bound. lia. }
    pose proof (extract_elem _ _ _ _ Ex) as Hp.
    assert (Htask : framed task).
    { apply (Hf (i, task)). rewrite Hp. by left. }
    assert (Hrest : ∀ it, it ∈ pending' → framed it.2).
    { intros it Hin. apply Hf. rewrite Hp. by right. }
    destruct (handlePanic ctx task [] r) as [[[b r1] o]|] eqn:Eh; [|done].
    pose proof Eh as Eh'.
    rewrite (framed_handlePanic ctx task Htask [] r Hs) in Eh'.
    destruct (handlePanic ctx task [] (clear r)) as [[[b0 d] o0]|] eqn:Ec; [|done].
    inversion Eh'; subst b r1 o. clear Eh'.
    assert (Hlen : n = length pending').
    { apply Permutation_length in Hp. cbn in Hp. lia. }
    destruct (IH _ _ _ Hrest (steady_Tracer r (extend r d) eq_refl Hs) Hlen E) as (Hsome & He & Hc).
    change (λ it : nat * Exec, errsOf ctx it.2 (extend r d))
      with (λ it : nat * Exec, errsOf ctx it.2 r) in He.
    change (λ it : nat * Exec, ticksOf ctx it.2 (extend r d))
      with (λ it : nat * Exec, ticksOf ctx it.2 r) in Hc.
    split; [|split].
    + intros it Hin. rewrite Hp in Hin. apply elem_of_cons in Hin as [->|Hin].
      * cbn. by apply (handlePanic_task ctx task [] (clear r) b0 d o0).
      * by apply Hsome.
    + rewrite He, Hp. cbn [mbind list_bind]. cbn [Errs extend snd].
      unfold errsOf at 2. rewrite Ec. by rewrite <- app_assoc.
    + rewrite Hc, Hp. cbn [sum_list_with Clock extend snd].
      unfold ticksOf at 2. rewrite Ec. lia.
Qed.

Lemma goAll_request ctx site tasks r outs r' :
  (∀ t, t ∈ tasks → framed t) →
  steady r →
  goAll pick ctx site tasks r = Some (outs, r') →
  (∀ t, t ∈ tasks → is_Some (t [] (clear r))) ∧
  Errs r' ≡ₚ Errs r ++ (tasks ≫= λ t, errsOf ctx t r) ∧
  Clock r' = Clock r + sum_list_with (λ t, ticksOf ctx t r) tasks.
Proof.
  intros Hf Hs E. unfold goAll in E.
  apply schedule_request in E as (Hsome & He & Hc); [| |done|by rewrite length_imap].
  2:{ intros it Hi. apply Hf. by apply elem_of_imap_pair. }
  rewrite (imap_pair_bind (λ t, errsOf ctx t r)) in He.
  rewrite (imap_pair_sum (λ t, ticksOf ctx t r)) in Hc.
  split; [|done]. intros t Ht.
  apply list_elem_of_lookup_1 in Ht as (j & Hj).
  apply (Hsome (j, t)). apply elem_of_lookup_imap. by exists j, t.
Qed.

End Schedule.

Section Orders.

Context (MetaFieldTypename : Field) (pick1 pick2 : list PathElem → nat → nat)
  (json_Marshal : Value → option (list byte)) (typeString Sprint : Value → string).

Local Abbreviation collectFieldsToResolve := (collectFieldsToResolve MetaFieldTypename).
Local Abbreviation execSelectionSet1 :=
  (execSelectionSet MetaFieldTypename pick1 json_Marshal typeString Sprint).
Local Abbreviation execSelectionSet2 :=
  (execSelectionSet MetaFieldTypename pick2 json_Marshal typeString Sprint).
Local Abbreviation execSelections1 := (execSelections MetaFieldTypename pick1).
Local Abbreviation execSelections2 := (execSelections MetaFieldTypename pick2).

Lemma alike_is_Some r x y : alike r x y → is_Some x ↔ is_Some y.
Proof.
  destruct x as [[[b1 d1] o1]|], y as [[[b2 d2] o2]|]; cbn;
    first [done|intros _; split; first [by eexists|by intros [? ?]]].
Qed.

(** Goroutines that agree one by one leave the same buffers and the
    [same] request, in whatever orders they run. *)
Lemma agree_goAll ctx site {X} (xs : list X) (g1 g2 : X → Exec) r1 r2 :
  (∀ x, x ∈ xs → framed (g1 x) ∧ framed (g2 x) ∧ agree (g1 x) (g2 x)) →
  steady r1 → same r1 r2 →
  match goAll pick1 ctx site (g1 <$> xs) r1, goAll pick2 ctx site (g2 <$> xs) r2 with
  | Some (outs1, d1), Some (outs2, d2) =>
      outs1 = outs2 ∧ same d1 d2 ∧ Tracer d1 = Tracer r1
  | None, None => True
  | _, _ => False
  end.
Proof.
  intros H Hs Hsame. pose proof (same_steady _ _ Hsame Hs) as Hs2.
  assert (Hf1 : ∀ t, t ∈ g1 <$> xs → framed t).
  { intros t (x & -> & Hx)%list_elem_of_fmap. by apply H. }
  assert (Hf2 : ∀ t, t ∈ g2 <$> xs → framed t).
  { intros t (x & -> & Hx)%list_elem_of_fmap. by apply H. }
  assert (Hag : ∀ x, x ∈ xs →
    alike (clear r1) (handlePanic ctx (g1 x) [] (clear r1))
                     (handlePanic ctx (g2 x) [] (clear r1))).
  { intros x Hx. apply agree_handlePanic; [by apply H|done|done]. }
  assert (Hsome : (∀ t, t ∈ g1 <$> xs → is_Some (t [] (clear r1))) ↔
                  (∀ t, t ∈ g2 <$> xs → is_Some (t [] (clear r1)))).
  { split; intros Hall t (x & -> & Hx)%list_elem_of_fmap.
    - destruct (H x Hx) as (_ & _ & Ha).
      apply (alike_is_Some _ _ _ (Ha [] (clear r1) (clear r1) Hs (same_refl _))).
      apply Hall. apply list_elem_of_fmap. by exists x.
    - destruct (H x Hx) as (_ & _ & Ha).
      apply (alike_is_Some _ _ _ (Ha [] (clear r1) (clear r1) Hs (same_refl _))).
      apply Hall. apply list_elem_of_fmap. by exists x. }
  destruct (goAll pick1 ctx site (g1 <$> xs) r1) as [[outs1 d1]|] eqn:E1.
  - destruct (goAll_request pick1 ctx site _ _ _ _ Hf1 Hs E1) as (Hall1 & He1 & Hc1).
    destruct (goAll_slots pick1 ctx site _ _ _ _ Hf1 Hs E1) as (-> & Ht1).
    destruct (goAll_some pick2 ctx site (g2 <$> xs) r2) as [[outs2 d2] E2]; [|done|].
    { intros t Ht. split; [by apply Hf2|].
      rewrite (same_clear r1 r2 Hsame). exact (proj1 Hsome Hall1 t Ht). }
    rewrite E2.
    destruct (goAll_request pick2 ctx site _ _ _ _ Hf2 Hs2 E2) as (Hall2 & He2 & Hc2).
    destruct (goAll_slots pick2 ctx site _ _ _ _ Hf2 Hs2 E2) as (-> & Ht2).
    destruct Hsame as (Ht & He & Hc).
    split; [|split; [split; [congruence|split]|done]].
    + rewrite <- !list_fmap_compose. apply list_fmap_ext. intros j x Hx. cbn.
      apply list_elem_of_lookup_2 in Hx. specialize (Hag x Hx).
      unfold bytesOf. rewrite (clear_Tracer r2 r1) by done.
      destruct (H x Hx) as (_ & _ & Ha).
      specialize (Ha [] (clear r1) (clear r1) Hs (same_refl _)).
      destruct (g1 x [] (clear r1)) as [[[b1 e1] o1]|],
               (g2 x [] (clear r1)) as [[[b2 e2] o2]|]; try done.
      by destruct Ha as (-> & _).
    + rewrite He1, He2, He. apply Permutation_app_head.
      rewrite !bind_fmap_list. apply bind_pointwise_Permutation. intros x Hx. cbn.
      specialize (Hag x Hx). unfold errsOf. rewrite (clear_Tracer r2 r1) by done.
      destruct (handlePanic ctx (g1 x) [] (clear r1)) as [[[b1 e1] o1]|],
               (handlePanic ctx (g2 x) [] (clear r1)) as [[[b2 e2] o2]|]; try done.
      by destruct Hag as (_ & _ & (_ & Hpe & _) & _).
    + rewrite Hc1, Hc2, Hc. f_equal.
      rewrite !sum_fmap_list. apply sum_pointwise. intros x Hx. cbn.
      specialize (Hag x Hx). unfold ticksOf. rewrite (clear_Tracer r2 r1) by done.
      destruct (handlePanic ctx (g1 x) [] (clear r1)) as [[[b1 e1] o1]|],
               (handlePanic ctx (g2 x) [] (clear r1)) as [[[b2 e2] o2]|]; try done.
      by destruct Hag as (_ & _ & (_ & _ & Hpc) & _).
  - destruct (goAll pick2 ctx site (g2 <$> xs) r2) as [[outs2 d2]|] eqn:E2; [|done].
    destruct (goAll_request pick2 ctx site _ _ _ _ Hf2 Hs2 E2) as (Hall2 & _).
    rewrite (same_clear r1 r2 Hsame) in Hall2.
    destruct (goAll_some pick1 ctx site (g1 <$> xs) r1) as [x Hx]; [|done|congruence].
    intros t Ht. split; [by apply Hf1|]. exact (proj2 Hsome Hall2 t Ht).
Qed.

Lemma agree_spawn ctx site {X} (xs : list X) (g1 g2 : X → Exec)
    (k1 k2 : list Buffer → Exec) :
  (∀ x, x ∈ xs → framed (g1 x) ∧ framed (g2 x) ∧ agree (g1 x) (g2 x)) →
  (∀ outs, agree (k1 outs) (k2 outs)) →
  agree (λ out r,
           match goAll pick1 ctx site (g1 <$> xs) r with
           | None => None
           | Some (outs, r) => k1 outs out r
           end)
        (λ out r,
           match goAll pick2 ctx site (g2 <$> xs) r with
           | None => None
           | Some (outs, r) => k2 outs out r
           end).
Proof.
  intros H Hk out r1 r2 Hs Hsame.
  pose proof (agree_goAll ctx site xs g1 g2 r1 r2 H Hs Hsame) as Hg.
  destruct (goAll pick1 ctx site (g1 <$> xs) r1) as [[outs1 d1]|],
           (goAll pick2 ctx site (g2 <$> xs) r2) as [[outs2 d2]|]; try done.
  destruct Hg as (-> & Hsm & Ht).
  apply (alike_Tracer d1); [done|]. apply Hk; [by apply (steady_Tracer r1)|done].
Qed.

Lemma agree_execFields rec1 rec2 ctx path async outs fields :
  stable ctx → agreeRec rec1 rec2 →
  agree (execFields rec1 ctx path async outs fields)
        (execFields rec2 ctx path async outs fields).
Proof.
  intros Hctx Hrec. unfold execFields.
  apply agree_andThen; [apply framed_agree, framed_WriteByte|].
  apply agree_andThen; [|apply framed_agree, framed_WriteByte].
  apply agree_rangeFrom. intros i f _. unfold fieldEntry.
  apply agree_andThen; [apply framed_agree, framed_writeKey|].
  destruct async; [apply framed_agree, framed_write|].
  apply agree_execFieldSelection; [done|]. intros traceCtx v. apply Hrec.
Qed.

Lemma agree_execSelections rec1 rec2 ctx sels path resolver serially :
  stable ctx → framedRec rec1 → framedRec rec2 → agreeRec rec1 rec2 →
  agree (execSelections1 rec1 ctx sels path resolver serially)
        (execSelections2 rec2 ctx sels path resolver serially).
Proof.
  intros Hctx Hf1 Hf2 Hrec. unfold execSelections.
  apply agree_run; [apply framedM_collectFieldsToResolve|].
  intros [fields fieldByAlias].
  destruct (negb serially && HasAsyncSel sels).
  - apply (agree_spawn ctx (toSlice path) fields
             (λ f, execFieldSelection rec1 ctx f (fieldPath path f) true)
             (λ f, execFieldSelection rec2 ctx f (fieldPath path f) true)
             (λ outs, execFields rec1 ctx path true outs fields)
             (λ outs, execFields rec2 ctx path true outs fields)).
    + intros f _. split; [|split].
      * apply framed_execFieldSelection; [done|]. intros traceCtx v. apply Hf1.
      * apply framed_execFieldSelection; [done|]. intros traceCtx v. apply Hf2.
      * apply agree_execFieldSelection; [done|]. intros traceCtx v. apply Hrec.
    + intros outs. by apply agree_execFields.
  - by apply agree_execFields.
Qed.

Lemma agree_execSelectionSet n : agreeRec (execSelectionSet1 n) (execSelectionSet2 n).
Proof.
  induction n as [|n IH]; intros ctx sels typ path v Hctx.
  { intros out r1 r2 _ _. done. }
  cbn [execSelectionSet].
  pose proof (framed_execSelectionSet MetaFieldTypename pick1 json_Marshal typeString
                Sprint n) as Hf1.
  pose proof (framed_execSelectionSet MetaFieldTypename pick2 json_Marshal typeString
                Sprint n) as Hf2.
  destruct (unwrapNonNull typ) as [t nonNull].
  assert (Hlist : ∀ OfType v,
    agree (run (Len v) (λ l,
             let execElem := listElem (execSelectionSet1 n) ctx sels OfType path v in
             if HasAsyncSel sels then listConcurrently pick1 execElem ctx path l
             else listSequentially execElem l))
          (run (Len v) (λ l,
             let execElem := listElem (execSelectionSet2 n) ctx sels OfType path v in
             if HasAsyncSel sels then listConcurrently pick2 execElem ctx path l
             else listSequentially execElem l))).
  { intros OfType v'. apply agree_run; [apply framedM_Len|]. intros l.
    assert (He : ∀ i,
      framed (listElem (execSelectionSet1 n) ctx sels OfType path v' i) ∧
      framed (listElem (execSelectionSet2 n) ctx sels OfType path v' i) ∧
      agree (listElem (execSelectionSet1 n) ctx sels OfType path v' i)
            (listElem (execSelectionSet2 n) ctx sels OfType path v' i)).
    { intros i. split; [|split].
      - apply framed_run; [apply framedM_Index|]. intros e. by apply Hf1.
      - apply framed_run; [apply framedM_Index|]. intros e. by apply Hf2.
      - apply agree_run; [apply framedM_Index|]. intros e. by apply IH. }
    cbn zeta. destruct (HasAsyncSel sels).
    - unfold listConcurrently.
      apply (agree_spawn ctx (toSlice path) (seq 0 l)
               (listElem (execSelectionSet1 n) ctx sels OfType path v')
               (listElem (execSelectionSet2 n) ctx sels OfType path v')
               (λ entryouts, write (WriteByte "["%byte) ;;
                  range entryouts (λ i entryout, comma i ;; write (Write entryout)) ;;
                  write (WriteByte "]"%byte))
               (λ entryouts, write (WriteByte "["%byte) ;;
                  range entryouts (λ i entryout, comma i ;; write (Write entryout)) ;;
                  write (WriteByte "]"%byte))).
      + intros i _. apply He.
      + intros outs. apply framed_agree.
        apply framed_andThen; [apply framed_WriteByte|].
        apply framed_andThen; [|apply framed_WriteByte].
        apply framed_rangeFrom. intros i b _.
        apply framed_andThen; [apply framed_comma|apply framed_write].
    - unfold listSequentially.
      apply agree_andThen; [apply framed_agree, framed_WriteByte|].
      apply agree_andThen; [|apply framed_agree, framed_WriteByte].
      apply agree_rangeFrom. intros i b _.
      apply agree_andThen; [apply framed_agree, framed_comma|apply He]. }
  assert (Hscalar : ∀ v, framed (
     if IsValid v then
       match json_Marshal v with
       | Some data => write (Write data)
       | None => raise (PanicQueryError ("could not marshal " +:+ Sprint v))
       end
     else raise (PanicString "reflect: call of reflect.Value.Interface on zero Value"))).
  { intros v'. destruct (IsValid v'); [|apply framed_raise].
    destruct (json_Marshal v'); [apply framed_write|apply framed_raise]. }
  assert (Henum : ∀ v, framed (
     write (WriteByte x22) ;;
     write (WriteString (Value_String typeString v)) ;;
     write (WriteByte x22))).
  { intros v'. repeat (apply framed_andThen;
      [first [apply framed_WriteByte|apply framed_WriteString]|]).
    apply framed_WriteByte. }
  assert (Hobj : agree
    (run (if Kind_eqb (Value_Kind v) Ptr then IsNil v else ret false) (λ isNil,
       if isNil : bool then
         if nonNull
         then raise (PanicQueryError ("got nil for non-null " +:+ quoted (Ty_String t)))
         else write (WriteString "null")
       else execSelections1 (execSelectionSet1 n) ctx sels path v false))
    (run (if Kind_eqb (Value_Kind v) Ptr then IsNil v else ret false) (λ isNil,
       if isNil : bool then
         if nonNull
         then raise (PanicQueryError ("got nil for non-null " +:+ quoted (Ty_String t)))
         else write (WriteString "null")
       else execSelections2 (execSelectionSet2 n) ctx sels path v false))).
  { apply agree_run.
    - destruct (Kind_eqb _ _); [apply framedM_IsNil|apply framedM_ret].
    - intros [].
      + apply framed_agree.
        destruct nonNull; [apply framed_raise|apply framed_WriteString].
      + by apply agree_execSelections. }
  destruct t; try exact Hobj;
    (destruct nonNull;
     [|apply agree_run; [apply framedM_IsNil|]; intros [];
       [apply framed_agree, framed_WriteString
       |apply agree_run; [apply framedM_Elem|]; intros v']]);
    first [apply Hlist|apply framed_agree, Hscalar|apply framed_agree, Henum
          |apply framed_agree, framed_raise].
Qed.

(** X14. While no context changes, what the serialization of a
    selection set writes does not depend on the order in which the
    scheduler runs the goroutines: under any two schedules it runs out
    of the recursion bound under both or under neither, writes the same
    bytes, ends the same way, and records the same errors, which can
    differ in their order only. *)
Theorem schedule_independent n ctx selections path resolver serially out r :
  stable ctx →
  steady r →
  alike r
    (execSelections1 (execSelectionSet1 n) ctx selections path resolver serially out r)
    (execSelections2 (execSelectionSet2 n) ctx selections path resolver serially out r).
Proof.
  intros Hctx Hs.
  apply agree_execSelections; try done.
  - apply framed_execSelectionSet.
  - apply framed_execSelectionSet.
  - apply agree_execSelectionSet.
Qed.

End Orders.

(** * The theorems at work, and where the specification goes too far *)

Import Demo.

(** [b: String] of the scenario fails with "boom". *)
Lemma resolver_error_nulls_field_witness :
  ∃ r',
    execFieldSelection (run 0) background fieldB (fieldPath None fieldB) false [] request
      = Some (nullBytes, r', Done) ∧
    Errs r' = [{| Message := "boom"; Path := [PathAlias "b"];
                  OriginalError := Some boom; PanicValue := None |}].
Proof.
  destruct (resolver_error_nulls_field (run 0) background None fieldB request
              methodsAB [VNilPtr; VError boom] VNilPtr boom
              eq_refl eq_refl eq_refl eq_refl eq_refl eq_refl eq_refl) as [H _].
  destruct (H false []) as (r' & Hx & He & _).
  exists r'. split; [exact Hx|exact He].
Defined.

(** The scenario, run concurrently under a context that is cancelled
    while the second resolver runs: both fields are resolved and
    written, and all of it is dropped. *)
Lemma cancelled_execute_one_error_witness :
  observe (handlePanic (canceledDuring 2)
             (execSelections metaTypename lastPending (runLast 3) (canceledDuring 2)
                (selsAB true) None rootAB false) [] request)
  = Some (bytes "{" ++ quote "a" ++ bytes ":5," ++ quote "b" ++ bytes ":null}",
          [{| Message := "boom"; Path := [PathAlias "b"];
              OriginalError := Some boom; PanicValue := None |}], Done) ∧
  exec lastPending (selsAB true) 3 (canceledDuring 2) rootAB queryOp
  = Some ([], [{| Message := "context canceled"; Path := [];
                  OriginalError := Some contextCanceled; PanicValue := None |}]).
Proof.
  split; [vm_compute; reflexivity|].
  destruct (cancelled_execute_one_error metaTypename lastPending marshal goType goType
              (apply (selsAB true)) 3 (canceledDuring 2) {| Resolver := rootAB |}
              queryOp request) as (out & r' & Hw & H).
  - intros r' sels H. inversion H. vm_compute. lia.
  - apply (H contextCanceled). vm_compute in Hw. injection Hw as _ <-. reflexivity.
Defined.

(** Three objects with an asynchronous field, the last goroutine first. *)
Lemma list_concurrent_same_bytes_witness :
  ∃ r'',
    runLast 5 background [selX true] (NonNull (List (NonNull (Object "T")))) None
      (VSlice threeT) [] request
    = Some ([ "["%byte ] ++ ["{"%byte] ++ quote "x" ++ bytes ":1},{" ++ quote "x"
            ++ bytes ":2},{" ++ quote "x" ++ bytes ":3}]", r'', Done).
Proof.
  eapply proj1.
  eapply (list_concurrent_same_bytes metaTypename lastPending marshal goType goType
            4 background [selX true] (NonNull (Object "T")) None threeT [] request).
  - intros t t'. reflexivity.
  - intros ctx label typeName fieldName trivial args H. exact H.
  - reflexivity.
  - reflexivity.
Defined.

(** [T!] with a nil pointer. *)
Lemma nonnull_composite_nil_panics_witness :
  run 1 background [] (NonNull (Object "T")) None VNilPtr [] request
  = Some ([], request, Panicked gotNilT).
Proof.
  apply (proj1 (nonnull_composite_nil_panics metaTypename firstPending marshal goType
                  goType 0 background [] (Object "T") None [] request eq_refl)).
Defined.

(** A resolver method that panics. *)
Lemma resolver_panic_isolated_witness :
  ∃ r',
    execFieldSelection (run 0) background fieldP (fieldPath None fieldP) false [] request
      = Some (nullBytes, r', Done) ∧
    Errs r' = [{| Message := "internal server error"; Path := [PathAlias "p"];
                  OriginalError := None;
                  PanicValue := Some (PanicString "resolver panic") |}].
Proof.
  destruct (resolver_panic_isolated firstPending (run 0) background None fieldP request
              (PanicString "resolver panic") eq_refl) as [H _].
  destruct (H false []) as (r' & Hx & He).
  exists r'. split; [exact Hx|exact He].
Defined.

(** [a: Int!] under a cancelled context, with the limiter. *)
Lemma cancelled_field_skips_resolver_witness :
  ∃ r',
    execFieldSelection (run 0) canceled fieldA (fieldPath None fieldA) true [] request
      = Some (nullBytes, r', Done) ∧
    Errs r' = [Errorf "context canceled"] ∧
    Log r' = [LimiterAcquire; spanOf fieldA; LimiterRelease;
              TraceFinish (Some (Errorf "context canceled"))].
Proof.
  destruct (cancelled_field_skips_resolver (run 0) canceled None fieldA request
              contextCanceled eq_refl eq_refl) as [H _].
  destruct (H true []) as (r' & Hx & He & Hl).
  exists r'. split; [exact Hx|]. split; [exact He|exact Hl].
Defined.

(** The predicate [ToA] fails: nothing is merged. *)
Lemma type_assertion_narrowing_witness :
  collectFieldsToResolve metaTypename [TypeAssertionSel 0 [selX false]]
    (VResolver methodsNarrow) [] ∅ request
  = (tick (emit (MethodCall 0 []) request), Ok ([], ∅)).
Proof.
  destruct (type_assertion_narrowing metaTypename 0 [selX false] []
              (VResolver methodsNarrow) [] ∅ request
              (tick (emit (MethodCall 0 []) request)) [VNilPtr; VBool false] false
              eq_refl eq_refl) as [H _].
  destruct (H eq_refl) as [Hx _]. rewrite Hx. reflexivity.
Defined.

(** Neither [A] nor [B]: the type name is empty and is written as such. *)
Lemma typename_without_variant_witness :
  (∃ r', typeOf typenameAB (VResolver methodsNone) request = (r', Ok "") ∧
         Errs r' = []) ∧
  ∃ r1,
    execFieldSelection (run 1) background
      {| field := typenameField metaTypename "kind" ""; sels := [];
         resolver := VResolver methodsNone |}
      (fieldPath None fieldA) false [] request
    = Some (quote "", r1, Done).
Proof.
  destruct (typename_without_variant metaTypename firstPending marshal goType goType
              typenameAB methodsNone [] ∅ request) as (r' & Ht & He & _ & Hs).
  - discriminate.
  - intros name methodIndex _. exists [VNilPtr; VBool false]. split; reflexivity.
  - split.
    + exists r'. split; [exact Ht|exact He].
    + destruct (Hs "String" (quote "") eq_refl eq_refl 0 background
                  (fieldPath None fieldA) false [] request) as (r1 & Hx & _).
      exists r1. exact Hx.
Defined.

(** An empty selection set. *)
Lemma object_in_braces_witness :
  execSelections metaTypename firstPending (run 3) background [] None rootAB false []
    request
  = Some (bytes "{}", request, Done).
Proof.
  apply (proj2 (object_in_braces metaTypename firstPending marshal goType goType
                  3 background [] None rootAB false [] request) request ∅).
  reflexivity.
Defined.

(** C4 as stated fails.  [[T!]] holding a nil pointer and an object:
    the goroutine of the nil element recovers and leaves its entry
    empty, the other entry is written and the array is closed; the
    sequential loop panics after the opening bracket. *)
Lemma concurrent_list_keeps_going_where_sequential_stops :
  observe (run 5 background [selX true] (NonNull (List (NonNull (Object "T")))) None
             (VSlice holeT) [] request)
  = Some (bytes "[,{" ++ quote "x" ++ bytes ":2}]", [panicError gotNilT], Done) ∧
  observe (listSequentially
             (listElem (run 4) background [selX true] (NonNull (Object "T")) None
                       (VSlice holeT)) 2 [] request)
  = Some (bytes "[", [], Panicked gotNilT).
Proof. split; vm_compute; reflexivity. Qed.

(** C5 as stated fails.  A nil slice for [[Int!]!] is written as the
    empty array: no panic and no error. *)
Lemma nonnull_list_nil_slice_is_empty_array :
  run 1 background [] (NonNull (List (NonNull (Scalar "Int")))) None VNilSlice [] request
  = Some (bytes "[]", request, Done).
Proof. reflexivity. Qed.

(** C6 as stated fails.  A mutation selects [a: T!], which resolves to
    a nil pointer, and [b: Int!]: the panic of the serializer passes the
    field and ends the walk in [Execute]; the bytes stop after the key
    of [a], [b] is not executed, and the error has no path. *)
Lemma serial_serialization_panic_aborts_siblings :
  exec firstPending selsNilA 5 background rootNilA mutationOp
  = Some (bytes "{" ++ quote "a" ++ bytes ":", [panicError gotNilT]) ∧
  Path (panicError gotNilT) ≠ [PathAlias "a"] ∧
  exec firstPending selsNilA 5 background rootNilA mutationOp
  ≠ Some (bytes "{" ++ quote "a" ++ bytes ":null," ++ quote "b" ++ bytes ":7}",
          [set_Path (panicError gotNilT) [PathAlias "a"]]).
Proof. split; [vm_compute; reflexivity|]. split; [discriminate|]. vm_compute. discriminate. Qed.

(** C7 as stated fails.  The error of a field skipped for cancellation
    has neither the field's path nor the cause attached. *)
Lemma cancelled_field_error_has_no_path :
  observe (execFieldSelection (run 0) canceled fieldA (fieldPath None fieldA) false []
             request)
  = Some (nullBytes, [Errorf "context canceled"], Done) ∧
  toSlice (fieldPath None fieldA) = [PathAlias "a"] ∧
  Path (Errorf "context canceled") = [] ∧
  OriginalError (Errorf "context canceled") = None.
Proof. repeat split; vm_compute; reflexivity. Qed.

(** C10 as stated fails.  The same selection set, executed serially: the
    object is opened and never closed. *)
Lemma serial_object_left_open_on_panic :
  observe (execSelections metaTypename firstPending (run 5) background selsNilA None
             rootNilA true [] request)
  = Some (bytes "{" ++ quote "a" ++ bytes ":", [], Panicked gotNilT).
Proof. vm_compute. reflexivity. Qed.

(** * More properties at work *)

(** [A] fails, [B] holds, and the predicate of [C], which would panic,
    is not called. *)
Lemma typeOf_first_match_witness :
  typeOf {| tfName := "Node"; tfAlias := "kind";
            TypeAssertions := [("A", 0); ("B", 1); ("C", 2)] |}
         (VResolver methodsNarrow) request
  = (calls [("A", 0); ("B", 1)] request, Ok "B").
Proof.
  refine (proj1 (typeOf_first_match
                   {| tfName := "Node"; tfAlias := "kind";
                      TypeAssertions := [("A", 0); ("B", 1); ("C", 2)] |}
                   methodsNarrow [("A", 0)] "B" 1 [("C", 2)] request eq_refl _)
            [objT 4; VBool true] eq_refl eq_refl).
  intros n m Hin. apply list_elem_of_singleton in Hin. inversion Hin; subst.
  exists [VNilPtr; VBool false]. split; reflexivity.
Defined.

(** A nil slice for [[Int]]. *)
Lemma nullable_nil_is_null_witness :
  run 1 background [] (List (Scalar "Int")) None VNilSlice [] request
  = Some (nullBytes, request, Done).
Proof.
  apply (nullable_nil_is_null metaTypename firstPending marshal goType goType
           0 background [] (List (Scalar "Int")) None VNilSlice [] request).
  - discriminate.
  - reflexivity.
  - discriminate.
Defined.

(** A plain integer for [Int]. *)
Lemma nullable_leaf_needs_nillable_witness :
  ∃ p, run 1 background [] (Scalar "Int") None (VInt 5) [] request
       = Some ([], request, Panicked p).
Proof.
  eexists.
  apply (nullable_leaf_needs_nillable metaTypename firstPending marshal goType goType
           0 background [] (Scalar "Int") None (VInt 5)).
  - discriminate.
  - reflexivity.
  - reflexivity.
Defined.

(** The alias [x] twice as a field and once as a typename selection. *)
Lemma merge_table_points_at_entries_witness :
  match collectFieldsToResolve metaTypename
          [selX false;
           TypenameFieldSel {| tfName := "T"; tfAlias := "x"; TypeAssertions := [] |};
           selX true] (objT 1) [] ∅ request with
  | (r', Ok (fields, fieldByAlias)) =>
      ∀ a i, fieldByAlias !! a = Some i →
        ∃ f, fields !! i = Some f ∧ Alias (field f) = a
  | _ => False
  end.
Proof.
  destruct (collectFieldsToResolve metaTypename
              [selX false;
               TypenameFieldSel {| tfName := "T"; tfAlias := "x"; TypeAssertions := [] |};
               selX true] (objT 1) [] ∅ request) as [r' [[fields m]|v]] eqn:E.
  - destruct (merge_table_points_at_entries metaTypename _ _ _ _ _ _ E)
      as (occs & _ & _ & H).
    intros a i Hi. destruct (H a i Hi) as (f & Hf & Ha & _). by exists f.
  - vm_compute in E. discriminate.
Defined.

Lemma merge_entry_count_witness :
  match collectFieldsToResolve metaTypename
          [selX false;
           TypenameFieldSel {| tfName := "T"; tfAlias := "x"; TypeAssertions := [] |};
           selX true] (objT 1) [] ∅ request with
  | (r', Ok (fields, fieldByAlias)) =>
      ∃ occs, length fields = size fieldByAlias + length (filter isTypename occs)
  | _ => False
  end.
Proof.
  destruct (collectFieldsToResolve metaTypename
              [selX false;
               TypenameFieldSel {| tfName := "T"; tfAlias := "x"; TypeAssertions := [] |};
               selX true] (objT 1) [] ∅ request) as [r' [[fields m]|v]] eqn:E.
  - destruct (merge_entry_count metaTypename _ _ _ _ _ _ E) as (occs & _ & _ & H).
    by exists occs.
  - vm_compute in E. discriminate.
Defined.

(** [a: Int!] of the scenario, in a goroutine. *)
Lemma resolver_success_serializes_witness :
  execFieldSelection (run 1) background fieldA (fieldPath None fieldA) true [] request
  = Some (bytes "5",
          emit (TraceFinish None)
            (emit LimiterRelease
               (tick (emit (MethodCall 0 [])
                        (emit (spanOf fieldA) (emit LimiterAcquire request))))),
          Done).
Proof.
  rewrite (resolver_success_serializes (run 1) background fieldA (fieldPath None fieldA)
             request methodsAB [VInt 5] (VInt 5) true [] eq_refl eq_refl eq_refl eq_refl
             eq_refl).
  - reflexivity.
  - discriminate.
Defined.

(** [[T!]] holding a nil pointer and an object, serialized concurrently. *)
Lemma list_in_brackets_witness :
  match run 5 background [selX true] (NonNull (List (NonNull (Object "T")))) None
          (VSlice holeT) [] request with
  | Some (out', r', o) =>
      o = Done ∧
      ∃ entries, length entries = 2 ∧
                 out' = ["["%byte] ++ joined entries ++ ["]"%byte]
  | None => False
  end.
Proof.
  destruct (run 5 background [selX true] (NonNull (List (NonNull (Object "T")))) None
              (VSlice holeT) [] request) as [[[out' r'] o]|] eqn:E.
  - destruct (list_in_brackets metaTypename firstPending marshal goType goType 4
                background [selX true] (NonNull (Object "T")) None holeT [] request
                out' r' o E) as (Ho & entries & Hl & Hout & _).
    split; [exact Ho|]. exists entries. split; [exact Hl|exact Hout].
  - vm_compute in E. discriminate.
Defined.

(** The scenario, executed concurrently. *)
Lemma concurrent_object_always_closed_witness :
  match execSelections metaTypename lastPending (runLast 3) background (selsAB true)
          None rootAB false [] request with
  | Some (out', r', o) =>
      match o with
      | Panicked v =>
          collectFieldsToResolve metaTypename (selsAB true) rootAB [] ∅ request
            = (r', Panic v) ∧ out' = []
      | Done =>
          ∃ r1 fields m entries,
            collectFieldsToResolve metaTypename (selsAB true) rootAB [] ∅ request
              = (r1, Ok (fields, m)) ∧
            length entries = length fields ∧
            out' = [] ++ ["{"%byte]
                      ++ concat (imap (λ i f, keyBytes i f ++ entries !!! i) fields)
                      ++ ["}"%byte]
      end
  | None => False
  end.
Proof.
  destruct (execSelections metaTypename lastPending (runLast 3) background (selsAB true)
              None rootAB false [] request) as [[[out' r'] o]|] eqn:E.
  - exact (concurrent_object_always_closed metaTypename lastPending marshal goType
             goType 3 background (selsAB true) None rootAB [] request out' r' o
             eq_refl E).
  - vm_compute in E. discriminate.
Defined.

(** A mutation whose first field panics in the serializer. *)
Lemma recorded_is_kept_witness :
  match execSelections metaTypename firstPending (run 5) background selsNilA None
          rootNilA true (bytes "data:") request with
  | Some (out', r', o) =>
      bytes "data:" `prefix_of` out' ∧ Errs request `prefix_of` Errs r' ∧
      Log request `prefix_of` Log r' ∧ Tracer r' = Tracer request
  | None => False
  end.
Proof.
  destruct (execSelections metaTypename firstPending (run 5) background selsNilA None
              rootNilA true (bytes "data:") request) as [[[out' r'] o]|] eqn:E.
  - exact (recorded_is_kept metaTypename firstPending marshal goType goType 5
             background selsNilA None rootNilA true _ request out' r' o E).
  - vm_compute in E. discriminate.
Defined.

(** A field whose resolver panics, in a goroutine. *)
Lemma limiter_always_released_witness :
  match execSelections metaTypename firstPending (run 3) background
          [select "p" (mkField "p" (Scalar "String") 0 false) true []]
          None (VResolver methodsPanic) false [] request with
  | Some (out', r', o) =>
      ∃ log, Log r' = Log request ++ log ∧
             length (filter isAcquire log) = length (filter isRelease log)
  | None => False
  end.
Proof.
  destruct (execSelections metaTypename firstPending (run 3) background
              [select "p" (mkField "p" (Scalar "String") 0 false) true []]
              None (VResolver methodsPanic) false [] request)
    as [[[out' r'] o]|] eqn:E.
  - exact (limiter_always_released metaTypename firstPending marshal goType goType 3
             background _ None (VResolver methodsPanic) false [] request out' r' o E).
  - vm_compute in E. discriminate.
Defined.

(** A mutation whose first field panics in the serializer: its span is
    finished all the same. *)
Lemma spans_always_finished_witness :
  match execSelections metaTypename firstPending (run 5) background selsNilA None
          rootNilA true [] request with
  | Some (out', r', o) =>
      ∃ log, Log r' = Log request ++ log ∧
             length (filter isTraceField log) = length (filter isTraceFinish log)
  | None => False
  end.
Proof.
  destruct (execSelections metaTypename firstPending (run 5) background selsNilA None
              rootNilA true [] request) as [[[out' r'] o]|] eqn:E.
  - exact (spans_always_finished metaTypename firstPending marshal goType goType 5
             background selsNilA None rootNilA true [] request out' r' o E).
  - vm_compute in E. discriminate.
Defined.

(** The scenario, the first goroutine first and the last goroutine first. *)
Lemma schedule_independent_witness :
  alike request
    (execSelections metaTypename firstPending (run 3) background (selsAB true) None
       rootAB false [] request)
    (execSelections metaTypename lastPending (runLast 3) background (selsAB true) None
       rootAB false [] request).
Proof.
  apply (schedule_independent metaTypename firstPending lastPending marshal goType
           goType 3 background (selsAB true) None rootAB false [] request).
  - intros t t'. reflexivity.
  - intros ctx label typeName fieldName trivial args H. exact H.
Defined.
